(** * The event-log client of rainbond: manager, handles and loggers

    A shallow embedding of [pkg/event/manager.go].  The manager keeps a
    registry of loggers (one per event id), a registry of handles (one per
    event-log server), the list of servers, the set of servers found
    abnormal and the round-robin cursor [qos].  Every method of the manager
    runs under the manager's lock, so a method is one atomic step on the
    state. *)

From Stdlib Require Import ZArith String.
From stdpp Require Import base option list gmap strings.

#[local] Set Warnings "-clear-no-such-hyp".

Local Open Scope string_scope.
Local Open Scope nat_scope.
Local Open Scope list_scope.

(** ** Go values *)

(** A channel value is the identity of a channel made by [make]; [None] in
    a [option chan] is the nil channel.  A [*logger] is an address in the
    store of logger objects, a [map[string]string] handed to a logger is an
    address in the caller's store of maps. *)
Abbreviation chan := nat.
Abbreviation ptr := nat.
Abbreviation bytes := (list Byte.byte).

Inductive error := ErrDiscover | ErrConnect | ErrLogStream.

Inductive panic :=
  | NilDereference
  | IndexOutOfRange
  | DivideByZero
  | NilMapWrite
  | CloseOfClosedChannel.

Inductive result (A : Type) : Type :=
  | Ok (a : A)
  | Panic (p : panic).
Arguments Ok {A} a.
Arguments Panic {A} p.

#[global] Instance result_ret : MRet result := fun A a => Ok a.
#[global] Instance result_bind : MBind result := fun A B f r =>
  match r with
  | Ok a => f a
  | Panic p => Panic p
  end.

Fixpoint foldM {A S : Type} (f : A → S → result S) (l : list A) (s : S) : result S :=
  match l with
  | [] => Ok s
  | x :: l' => s' ← f x s; foldM f l' s'
  end.

(** int32 arithmetic: the value of a mathematical integer after it is
    stored in an [int32]. *)
Definition wrap32 (z : Z) : Z := ((z + 2 ^ 31) `mod` 2 ^ 32 - 2 ^ 31)%Z.

(** [time.Time] as nanoseconds; [time.Minute]. *)
Definition Minute : Z := 60000000000%Z.

(** ** Data model *)

(** config.Endpoint *)
Record Endpoint := mkEndpoint {
  Name : string;
  URL : string;
  Weight : Z;
  Mode : Z;
}.

Record EventConfig := mkEventConfig {
  EventLogServers : list string;
  DiscoverAddress : list string;
}.

(** Modelled from the spec: discover.Discover is not among the sources.
    The spec has the manager register its callback under a project key and
    stop the subscription on shutdown; so a discovery client is the projects
    registered with it and whether it was stopped. *)
Record Discover := mkDiscover {
  projects : list string;
  dis_stopped : bool;
}.

Definition AddProject (name : string) (d : Discover) : Discover :=
  {| projects := projects d ++ [name]; dis_stopped := dis_stopped d |}.

Definition Stop_discover (d : Discover) : Discover :=
  {| projects := projects d; dis_stopped := true |}.

(** A channel object: its buffer, its capacity and whether it was closed. *)
Record channel := mkChannel {
  buf : list bytes;
  cap : nat;
  closed : bool;
}.

Record handle := mkHandle {
  server : string;
  stop : chan;
  cacheChan : chan;
}.

Record logger := mkLogger {
  event : string;
  sendChan : option chan;
  createTime : Z;
}.

(** The fields of the Go struct [manager] ([ctx] and [cancel] are the
    flag [ctx_done]; the lock is the atomicity of the operations), followed
    by the objects the manager reaches through references: the logger
    objects, the channels, the goroutines it started. *)
Record manager := mkManager {
  ctx_done : bool;
  config : EventConfig;
  qos : Z;
  loggers : gmap string ptr;
  handles : gmap string handle;
  eventServer : list string;
  abnormalServer : gmap string string;
  dis : option Discover;
  heap : gmap ptr logger;
  chans : gmap chan channel;
  tasks : list handle;
  gc_started : bool;
}.

Definition set_ctx_done (b : bool) (m : manager) : manager :=
  mkManager b (config m) (qos m) (loggers m) (handles m) (eventServer m)
    (abnormalServer m) (dis m) (heap m) (chans m) (tasks m) (gc_started m).
Definition set_qos (q : Z) (m : manager) : manager :=
  mkManager (ctx_done m) (config m) q (loggers m) (handles m) (eventServer m)
    (abnormalServer m) (dis m) (heap m) (chans m) (tasks m) (gc_started m).
Definition set_loggers (ls : gmap string ptr) (m : manager) : manager :=
  mkManager (ctx_done m) (config m) (qos m) ls (handles m) (eventServer m)
    (abnormalServer m) (dis m) (heap m) (chans m) (tasks m) (gc_started m).
Definition set_handles (hs : gmap string handle) (m : manager) : manager :=
  mkManager (ctx_done m) (config m) (qos m) (loggers m) hs (eventServer m)
    (abnormalServer m) (dis m) (heap m) (chans m) (tasks m) (gc_started m).
Definition set_eventServer (es : list string) (m : manager) : manager :=
  mkManager (ctx_done m) (config m) (qos m) (loggers m) (handles m) es
    (abnormalServer m) (dis m) (heap m) (chans m) (tasks m) (gc_started m).
Definition set_abnormalServer (ab : gmap string string) (m : manager) : manager :=
  mkManager (ctx_done m) (config m) (qos m) (loggers m) (handles m) (eventServer m)
    ab (dis m) (heap m) (chans m) (tasks m) (gc_started m).
Definition set_dis (d : option Discover) (m : manager) : manager :=
  mkManager (ctx_done m) (config m) (qos m) (loggers m) (handles m) (eventServer m)
    (abnormalServer m) d (heap m) (chans m) (tasks m) (gc_started m).
Definition set_heap (hp : gmap ptr logger) (m : manager) : manager :=
  mkManager (ctx_done m) (config m) (qos m) (loggers m) (handles m) (eventServer m)
    (abnormalServer m) (dis m) hp (chans m) (tasks m) (gc_started m).
Definition set_chans (cs : gmap chan channel) (m : manager) : manager :=
  mkManager (ctx_done m) (config m) (qos m) (loggers m) (handles m) (eventServer m)
    (abnormalServer m) (dis m) (heap m) cs (tasks m) (gc_started m).
Definition set_tasks (ts : list handle) (m : manager) : manager :=
  mkManager (ctx_done m) (config m) (qos m) (loggers m) (handles m) (eventServer m)
    (abnormalServer m) (dis m) (heap m) (chans m) ts (gc_started m).
Definition set_gc_started (b : bool) (m : manager) : manager :=
  mkManager (ctx_done m) (config m) (qos m) (loggers m) (handles m) (eventServer m)
    (abnormalServer m) (dis m) (heap m) (chans m) (tasks m) b.

(** [make(chan T, n)]: a channel that no value in the store names yet. *)
Definition make_chan (n : nat) (m : manager) : chan * manager :=
  let c := fresh (dom (chans m)) in
  (c, set_chans (<[c := mkChannel [] n false]> (chans m)) m).

(** The composite literal
    [handle{cacheChan: make(chan []byte, 100), stop: make(chan struct{}), server: s, ...}]. *)
Definition make_handle (s : string) (m : manager) : handle * manager :=
  let '(cc, m1) := make_chan 100 m in
  let '(st, m2) := make_chan 0 m1 in
  (mkHandle s st cc, m2).
Arguments make_handle : simpl never.

(** [go h.HandleLog()] *)
Definition go_HandleLog (h : handle) (m : manager) : manager :=
  set_tasks (tasks m ++ [h]) m.

(** handle.Stop: [close(m.stop)], which panics on a channel closed before. *)
Definition Stop (h : handle) (m : manager) : result manager :=
  match chans m !! stop h with
  | Some c =>
      if closed c then Panic CloseOfClosedChannel
      else Ok (set_chans (<[stop h := mkChannel (buf c) (cap c) true]> (chans m)) m)
  | None => Panic NilDereference
  end.

(** logger.GetChan and logger.SetChan, on the logger object at [l]. *)
Definition GetChan (l : ptr) (m : manager) : result (option chan) :=
  match heap m !! l with
  | Some lg => Ok (sendChan lg)
  | None => Panic NilDereference
  end.

Definition SetChan (l : ptr) (ch : option chan) (m : manager) : result manager :=
  match heap m !! l with
  | Some lg => Ok (set_heap (<[l := mkLogger (event lg) ch (createTime lg)]> (heap m)) m)
  | None => Panic NilDereference
  end.

(** ** What a drain task meets *)

(** What went over the connection of a handle: the calls of
    eventclient.NewEventClient and client.Log with whether they succeeded,
    the messages given to logClient.Send, and logClient.CloseSend. *)
Inductive wire_op :=
  | Dial (s : string) (ok : bool)
  | OpenLog (ok : bool)
  | Send (me : bytes) (ok : bool)
  | CloseSend.

(** The case a [select] of the drain loop takes; for a received message,
    whether logClient.Send succeeds on it. *)
Inductive select_case :=
  | CtxDone
  | StopClosed
  | Recv (send_ok : bool).

(** Modelled from the spec: the client of the event-log server
    (eventclient, eventpb) is not among the sources.  The spec has opening a
    connection, opening a log stream on it and sending a message on the
    stream each fallible.  So what one run of the function HandleLog hands
    to util.Exec meets is: the connection fails, the connection succeeds and
    the log stream fails to open, or both succeed and the loop takes the
    cases. *)
Inductive attempt :=
  | ConnectFails
  | LogFails
  | Streams (cases : list select_case).

Inductive outcome :=
  | Returned (err : option error)
  | Waiting.

Abbreviation run := (outcome * list wire_op * manager)%type.

(** ** The manager *)

Section Manager.

(** A [range] over a Go map visits the entries in an order the language
    leaves open: [range_order] is that order, any rearrangement of the
    entries. *)
Variable range_order : ∀ A : Type, list (string * A) → list (string * A).

Definition range {A : Type} (mp : gmap string A) : list (string * A) :=
  range_order A (map_to_list mp).

(** The second loop of getLBChan: the first handle a range over the
    registry gives, nil when the registry is empty. *)
Definition any_handle (m : manager) : option chan :=
  match range (handles m) with
  | (_, v) :: _ => Some (cacheChan v)
  | [] => None
  end.

(** The first loop of getLBChan, [n] iterations left.  [qos] is an int32:
    the remainder is Go's, with the sign of the cursor, the increment wraps
    round, and an index below zero is out of range. *)
Fixpoint getLBChan_loop (n : nat) (m : manager) : result (option chan * manager) :=
  match n with
  | O => Ok (any_handle m, m)
  | S n' =>
      let len := wrap32 (Z.of_nat (length (eventServer m))) in
      if decide (len = 0%Z) then Panic DivideByZero else
      let index := Z.rem (qos m) len in
      let m1 := set_qos (wrap32 (qos m + 1)) m in
      if decide (index < 0)%Z then Panic IndexOutOfRange else
      match eventServer m1 !! Z.to_nat index with
      | None => Panic IndexOutOfRange
      | Some s =>
          match abnormalServer m1 !! s with
          | Some _ => getLBChan_loop n' m1
          | None =>
              match handles m1 !! s with
              | Some h => Ok (Some (cacheChan h), m1)
              | None =>
                  let '(h, m2) := make_handle s m1 in
                  let m3 := set_handles (<[s := h]> (handles m2)) m2 in
                  Ok (Some (cacheChan h), go_HandleLog h m3)
              end
          end
      end
  end.

Definition getLBChan (m : manager) : result (option chan * manager) :=
  getLBChan_loop (length (eventServer m)) m.

(** Start: a handle and its task for every configured server (a server
    listed twice gets its handle replaced), the callback registered with
    discovery if there is a client, and the GC loop. *)
Definition Start (m : manager) : manager * option error :=
  let m1 :=
    foldl (fun m s =>
             let '(h, m') := make_handle s m in
             go_HandleLog h (set_handles (<[s := h]> (handles m')) m'))
          m (eventServer m) in
  let m2 :=
    match dis m1 with
    | Some d => set_dis (Some (AddProject "event_log_event_grpc" d)) m1
    | None => m1
    end in
  (set_gc_started true m2, None).

(** NewManager, given what discover.GetDiscover returned.  The result is
    the new value of [defaultManager] (if it was assigned) and the error. *)
Definition NewManager (got : option Discover * option error) (conf : EventConfig)
  : option manager * option error :=
  let '(d, err) := got in
  match err with
  | Some e =>
      if decide (length (EventLogServers conf) < 1) then (None, Some e)
      else
        let '(m, r) := Start (mkManager false conf 0 ∅ ∅ (EventLogServers conf) ∅ d ∅ ∅ [] false) in
        (Some m, r)
  | None =>
      let '(m, r) := Start (mkManager false conf 0 ∅ ∅ (EventLogServers conf) ∅ d ∅ ∅ [] false) in
      (Some m, r)
  end.

(** UpdateEndpoints.  An endpoint is a pointer, [None] the nil pointer.
    [add_endpoint] is the body of the first loop and [drop_old] the body of
    the second, which deletes from the map it ranges over. *)
Definition add_endpoint (e : option Endpoint) (st : gmap string string * manager)
  : result (gmap string string * manager) :=
  let '(new, m) := st in
  match e with
  | None => Panic NilDereference
  | Some e =>
      let new := <[URL e := URL e]> new in
      match handles m !! URL e with
      | Some _ => Ok (new, m)
      | None =>
          let '(h, m1) := make_handle (URL e) m in
          let m2 := set_handles (<[URL e := h]> (handles m1)) m1 in
          Ok (new, go_HandleLog h m2)
      end
  end.

Definition drop_old (new : gmap string string) (m : manager) (kv : string * handle) : manager :=
  match new !! kv.1 with
  | Some _ => m
  | None => set_handles (delete kv.1 (handles m)) m
  end.

Definition UpdateEndpoints (endpoints : list (option Endpoint)) (m : manager) : result manager :=
  if decide (length endpoints < 1) then Ok m else
  let m0 := set_abnormalServer ∅ m in
  '(new, m1) ← foldM add_endpoint endpoints (∅, m0);
  let m2 := foldl (drop_old new) m1 (range (handles m1)) in
  let es := foldl (fun es (kv : string * string) => es ++ [kv.1]) [] (range new) in
  Ok (set_eventServer es m2).

(** Close: [m.cancel()], then [m.dis.Stop()] on whatever [dis] holds. *)
Definition Close (m : manager) : result (manager * option error) :=
  let m1 := set_ctx_done true m in
  match dis m1 with
  | None => Panic NilDereference
  | Some d => Ok (set_dis (Some (Stop_discover d)) m1, None)
  end.

(** One run of the function GC hands to util.IntermittentExec, at time
    [now]: the loggers older than a minute are collected, then deleted. *)
Definition GC_collect (now : Z) (m : manager) (kl : string * ptr) (acc : list string)
  : result (list string) :=
  match heap m !! kl.2 with
  | None => Panic NilDereference
  | Some lg => Ok (if decide (createTime lg + Minute < now)%Z then acc ++ [kl.1] else acc)
  end.

Definition GC_sweep (now : Z) (m : manager) : result manager :=
  needRelease ← foldM (GC_collect now m) (range (loggers m)) [];
  if decide (0 < length needRelease)
  then Ok (foldl (fun m ev => set_loggers (delete ev (loggers m)) m) m needRelease)
  else Ok m.

(** GetLogger at time [now]; the result is the pointer to the logger. *)
Definition GetLogger (now : Z) (eventID : string) (m : manager) : result (ptr * manager) :=
  let eventID :=
    if decide (eventID = " " ∨ String.length eventID = 0) then "system" else eventID in
  match loggers m !! eventID with
  | Some l => Ok (l, m)
  | None =>
      '(ch, m1) ← getLBChan m;
      let l := fresh (dom (heap m1)) in
      let m2 := set_heap (<[l := mkLogger eventID ch now]> (heap m1)) m1 in
      Ok (l, set_loggers (<[eventID := l]> (loggers m2)) m2)
  end.

(** ReleaseLogger: the logger found under the event id shadows [l] and is
    not compared with it. *)
Definition ReleaseLogger (l : ptr) (m : manager) : result manager :=
  match heap m !! l with
  | None => Panic NilDereference
  | Some lg =>
      match loggers m !! event lg with
      | Some _ => Ok (set_loggers (delete (event lg) (loggers m)) m)
      | None => Ok m
      end
  end.

(** DiscardedLoggerChan: [mark_abnormal] is the body of its first loop,
    [rebind] the body of its second. *)
Definition mark_abnormal (cc : chan) (m : manager) (kv : string * handle) : manager :=
  if decide (cacheChan kv.2 = cc)
  then set_abnormalServer (<[kv.1 := kv.1]> (abnormalServer m)) m
  else m.

Definition rebind (cc : chan) (kl : string * ptr) (m : manager) : result manager :=
  ch ← GetChan kl.2 m;
  if decide (ch = Some cc)
  then '(ch', m1) ← getLBChan m; SetChan kl.2 ch' m1
  else Ok m.

Definition DiscardedLoggerChan (cc : chan) (m : manager) : result manager :=
  let m1 := foldl (mark_abnormal cc) m (range (handles m)) in
  foldM (rebind cc) (range (loggers m1)) m1.

Definition RemoveHandle (s : string) (m : manager) : manager :=
  match handles m !! s with
  | Some _ => set_handles (delete s (handles m)) m
  | None => m
  end.

(** ** The handle: one drain task per server *)

(** The [for { select { ... } }] loop.  A case that is not ready (the
    context is not cancelled, the stop channel is not closed, no message is
    queued) is not taken; when the cases run out the task waits in the
    select. *)
Fixpoint drain (h : handle) (cases : list select_case) (tr : list wire_op) (m : manager)
  : result run :=
  match cases with
  | [] => Ok (Waiting, tr, m)
  | CtxDone :: cases' =>
      if ctx_done m then Ok (Returned None, tr ++ [CloseSend], m)
      else drain h cases' tr m
  | StopClosed :: cases' =>
      match chans m !! stop h with
      | Some c =>
          if closed c then Ok (Returned None, tr ++ [CloseSend], m)
          else drain h cases' tr m
      | None => drain h cases' tr m
      end
  | Recv send_ok :: cases' =>
      match chans m !! cacheChan h with
      | Some c =>
          match buf c with
          | me :: q =>
              let m1 := set_chans (<[cacheChan h := mkChannel q (cap c) (closed c)]> (chans m)) m in
              if send_ok then drain h cases' (tr ++ [Send me true]) m1
              else
                m2 ← DiscardedLoggerChan (cacheChan h) m1;
                Ok (Returned None, tr ++ [Send me false; CloseSend], m2)
          | [] => drain h cases' tr m
          end
      | None => drain h cases' tr m
      end
  end.

(** The function literal in HandleLog. *)
Definition HandleLog_body (h : handle) (a : attempt) (tr : list wire_op) (m : manager)
  : result run :=
  match a with
  | ConnectFails => Ok (Returned (Some ErrConnect), tr ++ [Dial (server h) false], m)
  | LogFails =>
      m1 ← DiscardedLoggerChan (cacheChan h) m;
      Ok (Returned (Some ErrLogStream), tr ++ [Dial (server h) true; OpenLog false], m1)
  | Streams cases => drain h cases (tr ++ [Dial (server h) true; OpenLog true]) m
  end.

(** Modelled from the spec: util.Exec is not among the sources.  The spec
    has a failed connection establishment retried forever at a fixed
    interval of three seconds, the retrying stopped by the cancellation of
    the root context, and a task that returns without an error terminated
    for good.  So [Exec] runs [f] again as long as it returns an error and
    the context is not cancelled; [script] is what happens to each run, and
    when it is used up the task is waiting. *)
Fixpoint Exec (f : attempt → list wire_op → manager → result run)
    (script : list attempt) (tr : list wire_op) (m : manager) : result run :=
  match script with
  | [] => Ok (Waiting, tr, m)
  | a :: rest =>
      r ← f a tr m;
      match r with
      | (Returned (Some e), tr1, m1) =>
          if ctx_done m1 then Ok (Returned (Some e), tr1, m1)
          else Exec f rest tr1 m1
      | _ => Ok r
      end
  end.

(** HandleLog: the deferred RemoveHandle runs when util.Exec returns. *)
Definition HandleLog (h : handle) (script : list attempt) (m : manager) : result run :=
  r ← Exec (HandleLog_body h) script [] m;
  match r with
  | (Returned e, tr, m1) => Ok (Returned e, tr, RemoveHandle (server h) m1)
  | (Waiting, tr, m1) => Ok (Waiting, tr, m1)
  end.

(** The number of times the task dialled its server. *)
Definition is_dial (op : wire_op) : bool :=
  match op with
  | Dial _ _ => true
  | _ => false
  end.

Definition dials (tr : list wire_op) : nat :=
  length (filter (fun op => is_dial op = true) tr).

End Manager.

(** ** The logger *)

(** The caller's maps: a [map[string]string] is a reference into the store. *)
Abbreviation map_store := (gmap ptr (gmap string string)).

Section Logger.

(** ffjson.Marshal ([None] for an error) and the layout time.RFC3339 of
    [time.Time.Format]. *)
Variable Marshal : gmap string string → option bytes.
Variable FormatRFC3339 : Z → string.

(** [info[k] = v] *)
Definition map_assign (info : ptr) (k v : string) (maps : map_store) : result map_store :=
  match maps !! info with
  | Some mp => Ok (<[info := <[k := v]> mp]> maps)
  | None => Panic NilMapWrite
  end.

(** Modelled from the spec: util.SendNoBlocking is not among the sources.
    The spec has the push non-blocking: the record is put on the queue
    when the queue has room and is dropped when the queue is full. *)
Definition SendNoBlocking (log : bytes) (ch : chan) (m : manager) : manager :=
  match chans m !! ch with
  | Some c =>
      if decide (length (buf c) < cap c)
      then set_chans (<[ch := mkChannel (buf c ++ [log]) (cap c) (closed c)]> (chans m)) m
      else m
  | None => m
  end.

Definition send (now : Z) (l : ptr) (message : string) (info : ptr)
    (maps : map_store) (m : manager) : result (map_store * manager) :=
  match heap m !! l with
  | None => Panic NilDereference
  | Some lg =>
      maps ← map_assign info "event_id" (event lg) maps;
      maps ← map_assign info "message" message maps;
      maps ← map_assign info "time" (FormatRFC3339 now) maps;
      match maps !! info with
      | None => Panic NilDereference
      | Some mp =>
          match Marshal mp, sendChan lg with
          | Some log, Some ch => Ok (maps, SendNoBlocking log ch m)
          | _, _ => Ok (maps, m)
          end
      end
  end.

(** The three emit methods differ in the level only.  [info = None] is the
    nil map, for which the method makes a map of its own. *)
Definition emit (level : string) (now : Z) (l : ptr) (message : string)
    (info : option ptr) (maps : map_store) (m : manager) : result (map_store * manager) :=
  let '(info, maps) :=
    match info with
    | None => let r := fresh (dom maps) in (r, <[r := ∅]> maps)
    | Some r => (r, maps)
    end in
  maps ← map_assign info "level" level maps;
  send now l message info maps m.

Definition Info := emit "info".
Definition Error := emit "error".
Definition Debug := emit "debug".

End Logger.

(** ** Auxiliary definitions for the properties *)

(** The map an emit call leaves at [info], from the map [mp] it found there. *)
Definition record_of (level : string) (lg : logger) (message : string) (t : string)
    (mp : gmap string string) : gmap string string :=
  <["time" := t]> (<["message" := message]> (<["event_id" := event lg]> (<["level" := level]> mp))).

(** The order of a range that visits the entries as [map_to_list] has
    them, and stand-ins for the serializer and the time layout, to run the
    model on examples. *)
Definition range_id : ∀ A : Type, list (string * A) → list (string * A) := fun A l => l.
Definition Marshal_keys (mp : gmap string string) : option bytes :=
  Some (concat ((fun kv : string * string => list_byte_of_string kv.1) <$> map_to_list mp)).
Definition Format_fixed (t : Z) : string := "2017-11-01T10:00:00+08:00".

(** A manager without servers whose only logger, for the event "e", has
    no queue; and a store with one map of the caller, at reference 7. *)
Definition lone_manager : manager :=
  mkManager false (mkEventConfig [] []) 0 {["e" := 0]} ∅ [] ∅ None
    {[0 := mkLogger "e" None 0]} ∅ [] false.
Definition caller_maps : map_store := {[7 := {["k" := "v"]}]}.

(** What a selection of the load balancer may change: it moves the cursor,
    and it may add handles (with their channels and tasks); the rest of the
    manager stays. *)
Definition lb_step (m m' : manager) : Prop :=
  ctx_done m' = ctx_done m ∧ config m' = config m ∧ loggers m' = loggers m ∧
  eventServer m' = eventServer m ∧ abnormalServer m' = abnormalServer m ∧
  dis m' = dis m ∧ heap m' = heap m ∧ gc_started m' = gc_started m ∧
  handles m ⊆ handles m' ∧ chans m ⊆ chans m'.

(** The channels of the registered handles exist, and no two servers share
    a queue. *)
Definition chans_wf (m : manager) : Prop :=
  map_Forall (fun _ h => cacheChan h ∈ dom (chans m)) (handles m) ∧
  map_Forall (fun s1 h1 =>
                map_Forall (fun s2 h2 => cacheChan h1 = cacheChan h2 → s1 = s2) (handles m))
             (handles m).

#[global] Instance chans_wf_dec (m : manager) : Decision (chans_wf m).
Proof. unfold chans_wf. apply _. Defined.

(** The queue reference [ch] is nil or the queue of a registered handle. *)
Definition registered_queue (m : manager) (ch : option chan) : Prop :=
  ch = None ∨ ∃ s h, handles m !! s = Some h ∧ ch = Some (cacheChan h).

(** Every registered logger exists and refers to nil or to the queue of a
    registered handle. *)
Definition loggers_bound (m : manager) : Prop :=
  ∀ e l, loggers m !! e = Some l →
    ∃ lg, heap m !! l = Some lg ∧ registered_queue m (sendChan lg).

(** Every registered logger exists as an object. *)
Definition loggers_alloc (m : manager) : Prop :=
  map_Forall (fun _ l => is_Some (heap m !! l)) (loggers m).

#[global] Instance loggers_alloc_dec (m : manager) : Decision (loggers_alloc m).
Proof. unfold loggers_alloc. apply _. Defined.

(** Every handle is registered under its own server. *)
Definition handles_keyed (m : manager) : Prop :=
  map_Forall (fun s h => server h = s) (handles m).

(** The three together: what the manager relies on between its methods. *)
Definition manager_wf (m : manager) : Prop :=
  chans_wf m ∧ loggers_alloc m ∧ handles_keyed m.

#[global] Instance manager_wf_dec (m : manager) : Decision (manager_wf m).
Proof. unfold manager_wf, handles_keyed. apply _. Defined.

#[global] Instance registered_queue_dec (m : manager) (ch : option chan) :
  Decision (registered_queue m ch).
Proof.
  destruct ch as [c|]; [|left; by left].
  destruct (decide (map_Exists (fun _ h => cacheChan h = c) (handles m))) as [Hex|Hnex].
  - left. right. destruct Hex as (s & h & Hs & Hc). exists s, h. by rewrite <- Hc.
  - right. intros [Hnil|(s & h & Hs & Hc)]; [done|].
    apply Hnex. exists s, h. split; [done|]. by injection Hc as ->.
Defined.

#[global] Instance loggers_bound_dec (m : manager) : Decision (loggers_bound m).
Proof.
  assert (Hdec : ∀ (e : string) (l : ptr),
    Decision (∃ lg, heap m !! l = Some lg ∧ registered_queue m (sendChan lg))).
  { intros e l. destruct (heap m !! l) as [lg|].
    - destruct (decide (registered_queue m (sendChan lg))) as [Hq|Hq].
      + left. by exists lg.
      + right. intros (lg' & Heq & Hq'). by injection Heq as <-.
    - right. by intros (lg' & Heq & _). }
  exact (map_Forall_dec _ (loggers m)).
Defined.

(** The manager NewManager makes and starts for the servers [servers]
    when discovery is available. *)
Definition started (servers : list string) : manager :=
  (Start (mkManager false (mkEventConfig servers []) 0 ∅ ∅ servers ∅
            (Some (mkDiscover [] false)) ∅ ∅ [] false)).1.

(** The manager started for [servers] with one logger, for the event "e",
    and the two bytes of an empty record in the queue 0 of the first
    server, to which the logger refers. *)
Definition queued (servers : list string) : manager :=
  match GetLogger range_id 0 "e" (started servers) with
  | Ok (_, m) => SendNoBlocking [Byte.x7b; Byte.x7d] 0 m
  | Panic _ => started servers
  end.

(** The server [i] places after the one under the cursor, going round. *)
Definition server_after (m : manager) (i : nat) : option string :=
  eventServer m !! Z.to_nat ((qos m + Z.of_nat i) `mod` Z.of_nat (length (eventServer m))).

(** The cursor is not negative and [k] more steps do not overflow it; the
    number of servers fits an int32. *)
Definition lb_bounds (m : manager) (k : nat) : Prop :=
  (0 ≤ qos m)%Z ∧ (qos m + Z.of_nat k < 2 ^ 31)%Z ∧
  (Z.of_nat (length (eventServer m)) < 2 ^ 31)%Z.

(** No message of the trace was refused by logClient.Send. *)
Definition clean (tr : list wire_op) : Prop := ∀ me, Send me false ∉ tr.

(** The queue reference [ch] is the queue, other than [cc], of the handle of
    a server that is not abnormal. *)
Definition good_queue (cc : chan) (m : manager) (ch : option chan) : Prop :=
  ∃ s h, s ∈ eventServer m ∧ abnormalServer m !! s = None ∧
         handles m !! s = Some h ∧ ch = Some (cacheChan h) ∧ cacheChan h ≠ cc.

(** What a failover may change between [m] and [m']: the cursor, the
    handles (more of them), the tasks and the logger objects; [lb_step]
    without the store of loggers. *)
Definition failover_step (m m' : manager) : Prop :=
  ctx_done m' = ctx_done m ∧ config m' = config m ∧ loggers m' = loggers m ∧
  eventServer m' = eventServer m ∧ abnormalServer m' = abnormalServer m ∧
  dis m' = dis m ∧ gc_started m' = gc_started m ∧
  handles m ⊆ handles m' ∧ chans m ⊆ chans m'.

(** ** The rest of the file: accessors and the process-wide manager *)

(** logger.Event and logger.CreateTime, on the logger object at [l]. *)
Definition Event (l : ptr) (m : manager) : result string :=
  match heap m !! l with
  | Some lg => Ok (event lg)
  | None => Panic NilDereference
  end.

Definition CreateTime (l : ptr) (m : manager) : result Z :=
  match heap m !! l with
  | Some lg => Ok (createTime lg)
  | None => Panic NilDereference
  end.

(** GetManager and CloseManager, on the value of the variable
    [defaultManager] ([None] is nil); CloseManager drops what Close
    returns. *)
Definition GetManager (dm : option manager) : option manager := dm.

Definition CloseManager (dm : option manager) : result (option manager) :=
  match dm with
  | None => Ok None
  | Some m => r ← Close m; Ok (Some r.1)
  end.

(** The event id GetLogger works with for the id it is given. *)
Definition event_id_of (eventID : string) : string :=
  if decide (eventID = " " ∨ String.length eventID = 0) then "system" else eventID.

(** Every registered logger is registered under its own event id, and no
    logger has the empty or the blank event id. *)
Definition loggers_keyed (m : manager) : Prop :=
  map_Forall (fun e l => event <$> heap m !! l = Some e) (loggers m).

Definition heap_normal (m : manager) : Prop :=
  map_Forall (fun _ lg => event lg ≠ "" ∧ event lg ≠ " ") (heap m).

Definition loggers_ok (m : manager) : Prop := loggers_keyed m ∧ heap_normal m.

#[global] Instance loggers_ok_dec (m : manager) : Decision (loggers_ok m).
Proof. unfold loggers_ok, loggers_keyed, heap_normal. apply _. Defined.

(** The operation is a message given to logClient.Send. *)
Definition is_send (op : wire_op) : bool :=
  match op with
  | Send _ _ => true
  | _ => false
  end.

(** The value a call returned, [d] if it failed: to name the states of
    the examples. *)
Definition ok_or {A : Type} (r : result A) (d : A) : A :=
  match r with
  | Ok a => a
  | Panic _ => d
  end.

(** The messages of a trace that were given to logClient.Send, in order. *)
Definition sends (tr : list wire_op) : list bytes :=
  omap (fun op => match op with Send me _ => Some me | _ => None end) tr.

(** The logger objects of [m] are there in [m'], with their event ids and
    creation times. *)
Definition loggers_kept (m m' : manager) : Prop :=
  ∀ p lg, heap m !! p = Some lg →
    ∃ lg', heap m' !! p = Some lg' ∧ event lg' = event lg ∧ createTime lg' = createTime lg.

(** What a step does to the loggers: it keeps the objects, and it keeps
    the record of loggers in order. *)
Definition loggers_step (m m' : manager) : Prop :=
  loggers_kept m m' ∧ (loggers_ok m → loggers_ok m').

(** One step of the manager: a call of one of its methods under the lock,
    one run of the function literal of a drain task, the stop of a handle,
    or a producer putting a record on a queue. *)
Inductive manager_step (range_order : ∀ A : Type, list (string * A) → list (string * A))
  : manager → manager → Prop :=
  | step_Start m :
      manager_step range_order m (Start m).1
  | step_GetLogger now e l m m' :
      GetLogger range_order now e m = Ok (l, m') → manager_step range_order m m'
  | step_ReleaseLogger l m m' :
      ReleaseLogger l m = Ok m' → manager_step range_order m m'
  | step_GC_sweep now m m' :
      GC_sweep range_order now m = Ok m' → manager_step range_order m m'
  | step_UpdateEndpoints endpoints m m' :
      UpdateEndpoints range_order endpoints m = Ok m' → manager_step range_order m m'
  | step_DiscardedLoggerChan cc m m' :
      DiscardedLoggerChan range_order cc m = Ok m' → manager_step range_order m m'
  | step_RemoveHandle s m :
      manager_step range_order m (RemoveHandle s m)
  | step_Close m m' err :
      Close m = Ok (m', err) → manager_step range_order m m'
  | step_Stop h m m' :
      Stop h m = Ok m' → manager_step range_order m m'
  | step_body h a tr m o tr' m' :
      HandleLog_body range_order h a tr m = Ok (o, tr', m') → manager_step range_order m m'
  | step_push ch c log m :
      chans m !! ch = Some c →
      manager_step range_order m
        (set_chans (<[ch := mkChannel (buf c ++ [log]) (cap c) (closed c)]> (chans m)) m).

(** * Properties *)

(** ** The logger: what an emit call does to the caller's map and to the queue *)

Section LoggerFacts.

Variable Marshal : gmap string string → option bytes.
Variable FormatRFC3339 : Z → string.

Lemma map_assign_ok (info : ptr) (k v : string) (maps : map_store) (mp : gmap string string) :
  maps !! info = Some mp →
  map_assign info k v maps = Ok (<[info := <[k := v]> mp]> maps).
Proof. intros Hmp. unfold map_assign. by rewrite Hmp. Qed.

(** [emit] on a map of the caller, step by step. *)
Lemma emit_some (level : string) (now : Z) (l : ptr) (message : string) (r : ptr)
    (maps : map_store) (m : manager) (lg : logger) (mp : gmap string string) :
  heap m !! l = Some lg →
  maps !! r = Some mp →
  let rec := record_of level lg message (FormatRFC3339 now) mp in
  emit Marshal FormatRFC3339 level now l message (Some r) maps m =
    Ok (<[r := rec]> maps,
        match Marshal rec, sendChan lg with
        | Some log, Some ch => SendNoBlocking log ch m
        | _, _ => m
        end).
Proof.
  intros Hl Hmp rec. unfold emit, send.
  rewrite (map_assign_ok _ _ _ _ _ Hmp). cbn. rewrite Hl.
  erewrite map_assign_ok by apply lookup_insert_eq. cbn.
  erewrite map_assign_ok by apply lookup_insert_eq. cbn.
  erewrite map_assign_ok by apply lookup_insert_eq. cbn.
  rewrite lookup_insert_eq, !insert_insert_eq. subst rec. unfold record_of.
  by destruct (Marshal _), (sendChan lg).
Qed.

(** [emit] on the nil map: the method works on a map of its own. *)
Lemma emit_nil (level : string) (now : Z) (l : ptr) (message : string)
    (maps : map_store) (m : manager) (lg : logger) :
  heap m !! l = Some lg →
  let r := fresh (dom maps) in
  let rec := record_of level lg message (FormatRFC3339 now) ∅ in
  emit Marshal FormatRFC3339 level now l message None maps m =
    Ok (<[r := rec]> maps,
        match Marshal rec, sendChan lg with
        | Some log, Some ch => SendNoBlocking log ch m
        | _, _ => m
        end).
Proof.
  intros Hl r rec.
  assert (Hfresh : emit Marshal FormatRFC3339 level now l message None maps m =
    emit Marshal FormatRFC3339 level now l message (Some r) (<[r := ∅]> maps) m) by done.
  rewrite Hfresh. erewrite emit_some; [|done|apply lookup_insert_eq].
  by rewrite insert_insert_eq.
Qed.

Lemma SendNoBlocking_nil_or_full (log : bytes) (ch : chan) (m : manager) :
  (∀ c, chans m !! ch = Some c → (cap c ≤ length (buf c))%nat) →
  SendNoBlocking log ch m = m.
Proof.
  intros Hfull. unfold SendNoBlocking.
  destruct (chans m !! ch) as [c|] eqn:Hc; [|done].
  specialize (Hfull c eq_refl). case_decide; [lia|done].
Qed.

Lemma SendNoBlocking_frame (log : bytes) (ch : chan) (m : manager) :
  SendNoBlocking log ch m = set_chans (chans (SendNoBlocking log ch m)) m.
Proof.
  unfold SendNoBlocking. destruct (chans m !! ch); [|by destruct m].
  case_decide; by destruct m.
Qed.

End LoggerFacts.

Section EmitFacts.

Variable Marshal : gmap string string → option bytes.
Variable FormatRFC3339 : Z → string.

(** C9: for a logger with event id [id], [Info("msg", {"k": "v"})] hands to
    the serializer a record whose keys are exactly level, event_id, message,
    time and k, with level = "info", event_id = id, message = "msg", time the
    RFC3339 layout of the current time and k = "v"; these serialized bytes
    are what goes to the queue. *)
Theorem Info_record_fields (now : Z) (l r : ptr) (maps : map_store) (m : manager)
    (lg : logger) :
  heap m !! l = Some lg →
  maps !! r = Some {["k" := "v"]} →
  ∃ rec m',
    Info Marshal FormatRFC3339 now l "msg" (Some r) maps m = Ok (<[r := rec]> maps, m') ∧
    dom rec = {["level"; "event_id"; "message"; "time"; "k"]} ∧
    rec !! "level" = Some "info" ∧
    rec !! "event_id" = Some (event lg) ∧
    rec !! "message" = Some "msg" ∧
    rec !! "time" = Some (FormatRFC3339 now) ∧
    rec !! "k" = Some "v" ∧
    m' = match Marshal rec, sendChan lg with
         | Some log, Some ch => SendNoBlocking log ch m
         | _, _ => m
         end.
Proof.
  intros Hl Hmp. unfold Info. erewrite emit_some by done.
  eexists _, _. split; [done|]. unfold record_of.
  split; [rewrite !dom_insert_L, dom_singleton_L; set_solver|].
  by simplify_map_eq.
Qed.

(** C10: an emit call (Info, Error, Debug) on a non-nil map of the caller
    writes into that very map: afterwards the caller's map holds level,
    event_id, message and time with the values of the call, whatever it
    held under these keys before, and its other keys as they were. *)
Theorem emit_mutates_caller_map
    (meth : Z → ptr → string → option ptr → map_store → manager → result (map_store * manager))
    (level : string) (now : Z) (l r : ptr) (message : string) (maps : map_store)
    (m : manager) (lg : logger) (mp : gmap string string) :
  (meth, level) ∈ [(Info Marshal FormatRFC3339, "info");
                   (Error Marshal FormatRFC3339, "error");
                   (Debug Marshal FormatRFC3339, "debug")] →
  heap m !! l = Some lg →
  maps !! r = Some mp →
  ∃ mp' m',
    meth now l message (Some r) maps m = Ok (<[r := mp']> maps, m') ∧
    mp' !! "level" = Some level ∧
    mp' !! "event_id" = Some (event lg) ∧
    mp' !! "message" = Some message ∧
    mp' !! "time" = Some (FormatRFC3339 now) ∧
    ∀ k, k ∉ ["level"; "event_id"; "message"; "time"] → mp' !! k = mp !! k.
Proof.
  intros Hmeth Hl Hmp.
  assert (Hemit : meth = emit Marshal FormatRFC3339 level).
  { rewrite !elem_of_cons, elem_of_nil in Hmeth.
    destruct Hmeth as [[= -> ->]|[[= -> ->]|[[= -> ->]|[]]]]; done. }
  subst meth. erewrite emit_some by done.
  eexists _, _. split; [done|]. unfold record_of.
  repeat split; try by simplify_map_eq.
  intros k Hk. rewrite !elem_of_cons, elem_of_nil in Hk.
  rewrite !lookup_insert_ne; [done|naive_solver..].
Qed.

(** C7 (as amended): an emit call always returns, without an error and
    without a panic; it changes nothing of the manager but the buffers of
    the queues, and when the logger has no queue or its queue is full it
    changes nothing of the manager at all, the record being dropped.  Of
    the caller's maps only the one handed to the call is written. *)
Theorem emit_never_blocks_or_fails
    (meth : Z → ptr → string → option ptr → map_store → manager → result (map_store * manager))
    (now : Z) (l : ptr) (message : string) (info : option ptr) (maps : map_store)
    (m : manager) (lg : logger) :
  meth ∈ [Info Marshal FormatRFC3339; Error Marshal FormatRFC3339;
          Debug Marshal FormatRFC3339] →
  heap m !! l = Some lg →
  (∀ r, info = Some r → is_Some (maps !! r)) →
  ∃ maps' m',
    meth now l message info maps m = Ok (maps', m') ∧
    m' = set_chans (chans m') m ∧
    (sendChan lg = None → m' = m) ∧
    (∀ ch c, sendChan lg = Some ch → chans m !! ch = Some c →
             (cap c ≤ length (buf c))%nat → m' = m) ∧
    (∀ r, info ≠ Some r → is_Some (maps !! r) → maps' !! r = maps !! r).
Proof.
  intros Hmeth Hl Hinfo.
  assert (Hemit : ∃ level, meth = emit Marshal FormatRFC3339 level).
  { rewrite !elem_of_cons, elem_of_nil in Hmeth.
    destruct Hmeth as [->|[->|[->|[]]]]; eexists; done. }
  destruct Hemit as [level ->].
  assert (Hq : ∀ rec, let m' := match Marshal rec, sendChan lg with
                                | Some log, Some ch => SendNoBlocking log ch m
                                | _, _ => m
                                end in
      m' = set_chans (chans m') m ∧
      (sendChan lg = None → m' = m) ∧
      (∀ ch c, sendChan lg = Some ch → chans m !! ch = Some c →
               (cap c ≤ length (buf c))%nat → m' = m)).
  { intros rec. destruct (Marshal rec) as [log|], (sendChan lg) as [ch|]; cbn;
      try (split; [by destruct m|done]).
    split; [apply SendNoBlocking_frame|]. split; [done|].
    intros ch' c [= <-] Hc Hfull. apply SendNoBlocking_nil_or_full.
    intros c' Hc'. congruence. }
  destruct info as [r|].
  - destruct (Hinfo r eq_refl) as [mp Hmp]. erewrite emit_some by done.
    eexists _, _. split; [done|]. destruct (Hq (record_of level lg message (FormatRFC3339 now) mp)) as (?&?&?).
    repeat split; try done.
    intros r' Hne _. rewrite lookup_insert_ne; [done|congruence].
  - erewrite emit_nil by done.
    eexists _, _. split; [done|]. destruct (Hq (record_of level lg message (FormatRFC3339 now) ∅)) as (?&?&?).
    repeat split; try done.
    intros r' _ Hin. rewrite lookup_insert_ne; [done|].
    intros <-. apply elem_of_dom in Hin. by apply is_fresh in Hin.
Qed.

End EmitFacts.

(** C9 on the logger of [lone_manager] and the caller's map at 7. *)
Lemma Info_record_fields_witness :
  ∃ rec m',
    Info Marshal_keys Format_fixed 1 0 "msg" (Some 7) caller_maps lone_manager
      = Ok (<[7 := rec]> caller_maps, m') ∧
    dom rec = {["level"; "event_id"; "message"; "time"; "k"]} ∧
    rec !! "level" = Some "info" ∧
    rec !! "event_id" = Some "e" ∧
    rec !! "message" = Some "msg" ∧
    rec !! "time" = Some (Format_fixed 1) ∧
    rec !! "k" = Some "v".
Proof.
  destruct (Info_record_fields Marshal_keys Format_fixed 1 0 7 caller_maps lone_manager
              (mkLogger "e" None 0)) as (rec & m' & H1 & H2 & H3 & H4 & H5 & H6 & H7 & _);
    [reflexivity|reflexivity|].
  exists rec, m'. repeat split; assumption.
Defined.

(** C10 on the same logger, for Error. *)
Lemma emit_mutates_caller_map_witness :
  ∃ mp' m',
    Error Marshal_keys Format_fixed 1 0 "msg" (Some 7) caller_maps lone_manager
      = Ok (<[7 := mp']> caller_maps, m') ∧
    mp' !! "level" = Some "error" ∧
    mp' !! "event_id" = Some "e" ∧
    mp' !! "message" = Some "msg" ∧
    mp' !! "time" = Some (Format_fixed 1) ∧
    mp' !! "k" = Some "v".
Proof.
  destruct (emit_mutates_caller_map Marshal_keys Format_fixed
              (Error Marshal_keys Format_fixed) "error" 1 0 7 "msg" caller_maps lone_manager
              (mkLogger "e" None 0) {["k" := "v"]})
    as (mp' & m' & H1 & H2 & H3 & H4 & H5 & H6);
    [apply list_elem_of_further, list_elem_of_here|reflexivity|reflexivity|].
  exists mp', m'. repeat split; try assumption.
  rewrite H6; [reflexivity|]. rewrite !elem_of_cons, elem_of_nil. intros [|[|[|[|[]]]]]; discriminate.
Defined.

(** C7 on the same logger, whose queue is nil: Debug returns and leaves
    the manager as it was. *)
Lemma emit_never_blocks_or_fails_witness :
  ∃ maps',
    Debug Marshal_keys Format_fixed 1 0 "msg" None caller_maps lone_manager
      = Ok (maps', lone_manager) ∧
    maps' !! 7 = caller_maps !! 7.
Proof.
  destruct (emit_never_blocks_or_fails Marshal_keys Format_fixed
              (Debug Marshal_keys Format_fixed) 1 0 "msg" None caller_maps lone_manager
              (mkLogger "e" None 0))
    as (maps' & m' & H1 & _ & H3 & _ & H5);
    [do 2 apply list_elem_of_further; apply list_elem_of_here|reflexivity|discriminate|].
  exists maps'. rewrite <- (H3 eq_refl) at 2. split; [assumption|].
  apply H5; [discriminate|]. eexists; reflexivity.
Defined.

(** C7 as stated fails: a logger without a queue (no server is configured)
    drops the record, and still the call is not without effect for the
    caller, whose map at 7 has four more keys afterwards. *)
Lemma Info_without_queue_writes_map :
  ∃ m0 l m1 maps' mp',
    NewManager (Some (mkDiscover [] false), None) (mkEventConfig [] []) = (Some m0, None) ∧
    GetLogger range_id 0 "e" m0 = Ok (l, m1) ∧
    GetChan l m1 = Ok None ∧
    caller_maps !! 7 = Some {["k" := "v"]} ∧
    Info Marshal_keys Format_fixed 1 l "msg" (Some 7) caller_maps m1 = Ok (maps', m1) ∧
    maps' !! 7 = Some mp' ∧
    dom mp' = {["level"; "event_id"; "message"; "time"; "k"]} ∧
    mp' ≠ {["k" := "v"]}.
Proof.
  do 5 eexists. do 7 (split; [reflexivity|]).
  intros Heq. apply (f_equal (lookup "level")) in Heq. vm_compute in Heq. discriminate.
Qed.

(** ** The load balancer *)

Lemma range_id_perm (A : Type) (l : list (string * A)) : range_id A l ≡ₚ l.
Proof. reflexivity. Defined.

Lemma wrap32_small (z : Z) : (- 2 ^ 31 ≤ z < 2 ^ 31)%Z → wrap32 z = z.
Proof. intros Hz. unfold wrap32. rewrite Z.mod_small; lia. Qed.

Lemma lb_step_refl (m : manager) : lb_step m m.
Proof. by repeat split. Qed.

Lemma lb_step_trans (m1 m2 m3 : manager) : lb_step m1 m2 → lb_step m2 m3 → lb_step m1 m3.
Proof.
  intros (?&?&?&?&?&?&?&?&?&?) (?&?&?&?&?&?&?&?&?&?).
  repeat split; try congruence; by etrans.
Qed.

Lemma lb_step_set_qos (q : Z) (m : manager) : lb_step m (set_qos q m).
Proof. by repeat split. Qed.

(** A handle made for [s] and put in the registry. *)
Lemma make_handle_spec (s : string) (m : manager) :
  ∃ h m1,
    make_handle s m = (h, m1) ∧ server h = s ∧
    (cacheChan h ∉ dom (chans m)) ∧ cacheChan h ∈ dom (chans m1) ∧
    handles m1 = handles m ∧ qos m1 = qos m ∧ tasks m1 = tasks m ∧ lb_step m m1.
Proof.
  unfold make_handle, make_chan. eexists _, _. split; [done|]. cbn.
  pose proof (is_fresh (dom (chans m))) as Hfresh.
  set (c := fresh (dom (chans m))) in *.
  set (cs := <[c := mkChannel [] 100 false]> (chans m)).
  pose proof (is_fresh (dom cs)) as Hfresh2.
  set (c2 := fresh (dom cs)) in *.
  assert (Hc2 : c2 ∉ dom (chans m)).
  { intros Hin. apply Hfresh2. subst cs. rewrite dom_insert_L. set_solver. }
  repeat split; try done.
  - rewrite !dom_insert_L. set_solver.
  - etrans; [apply (insert_subseteq (chans m) c)|]; [by apply not_elem_of_dom|].
    apply insert_subseteq. by apply not_elem_of_dom.
Qed.

Lemma chans_wf_insert (s : string) (h : handle) (m m1 : manager) :
  chans_wf m →
  cacheChan h ∉ dom (chans m) → cacheChan h ∈ dom (chans m1) →
  chans m ⊆ chans m1 →
  handles m1 = <[s := h]> (handles m) →
  chans_wf m1.
Proof.
  intros [Hdom Hinj] Hfresh Hin Hsub Hh. split.
  - intros s' h'. rewrite Hh. intros [[-> ->]|[Hne Hlk]]%lookup_insert_Some; [done|].
    eapply subseteq_dom; [done|]. by eapply Hdom.
  - intros s1 h1 Hs1 s2 h2 Hs2 Heq. rewrite Hh in Hs1, Hs2.
    apply lookup_insert_Some in Hs1 as [[-> ->]|[Hne1 Hlk1]];
      apply lookup_insert_Some in Hs2 as [[-> ->]|[Hne2 Hlk2]]; try done.
    + exfalso. apply Hfresh. rewrite Heq. by eapply Hdom.
    + exfalso. apply Hfresh. rewrite <- Heq. by eapply Hdom.
    + by eapply Hinj.
Qed.

Section ManagerFacts.

Variable range_order : ∀ A : Type, list (string * A) → list (string * A).
Hypothesis range_perm : ∀ (A : Type) (l : list (string * A)), range_order A l ≡ₚ l.

Lemma elem_of_range {A : Type} (mp : gmap string A) (k : string) (v : A) :
  (k, v) ∈ range range_order mp ↔ mp !! k = Some v.
Proof. unfold range. rewrite range_perm. apply elem_of_map_to_list. Qed.

Lemma any_handle_registered (m : manager) :
  registered_queue m (any_handle range_order m).
Proof.
  unfold any_handle.
  destruct (range range_order (handles m)) as [|[k v] l] eqn:Hr; [by left|].
  right. exists k, v. split; [|done].
  apply elem_of_range. rewrite Hr. apply list_elem_of_here.
Qed.

Lemma any_handle_Some (m : manager) (s : string) (h : handle) :
  handles m !! s = Some h → is_Some (any_handle range_order m).
Proof.
  intros Hs. unfold any_handle.
  destruct (range range_order (handles m)) as [|[k v] l] eqn:Hr; [|done].
  apply elem_of_range in Hs. rewrite Hr in Hs. by apply elem_of_nil in Hs.
Qed.

Lemma registered_queue_mono (m m' : manager) (ch : option chan) :
  handles m ⊆ handles m' → registered_queue m ch → registered_queue m' ch.
Proof.
  intros Hsub [->|(s & h & Hs & ->)]; [by left|].
  right. exists s, h. split; [|done]. by eapply lookup_weaken.
Qed.

(** The handle a selection registers when the server it picked has none. *)
Lemma lazy_handle (s : string) (m : manager) :
  handles m !! s = None →
  ∃ h m1 m2,
    make_handle s m = (h, m1) ∧
    m2 = go_HandleLog h (set_handles (<[s := h]> (handles m1)) m1) ∧
    server h = s ∧
    handles m2 = <[s := h]> (handles m) ∧ qos m2 = qos m ∧
    tasks m2 = tasks m ++ [h] ∧ lb_step m m2 ∧ (chans_wf m → chans_wf m2).
Proof.
  intros Hs. destruct (make_handle_spec s m) as (h & m1 & Hmk & Hsrv & Hfr & Hin & Hh & Hq & Ht & Hstep).
  eexists h, m1, _. split; [done|]. split; [done|]. split; [done|]. cbn. rewrite Hh, Ht.
  assert (Hstep2 : lb_step m (go_HandleLog h (set_handles (<[s := h]> (handles m)) m1))).
  { destruct Hstep as (?&?&?&?&?&?&?&?&?&?). repeat split; try done.
    cbn. by apply insert_subseteq. }
  split_and!; try done.
  intros Hwf. eapply (chans_wf_insert s h m); try done; apply Hstep.
Qed.

(** One iteration of the first loop of getLBChan. *)
Lemma getLBChan_loop_S (n : nat) (m : manager) :
  getLBChan_loop range_order (S n) m =
    let len := wrap32 (Z.of_nat (length (eventServer m))) in
    if decide (len = 0%Z) then Panic DivideByZero else
    if decide (Z.rem (qos m) len < 0)%Z then Panic IndexOutOfRange else
    match eventServer m !! Z.to_nat (Z.rem (qos m) len) with
    | None => Panic IndexOutOfRange
    | Some s =>
        let m1 := set_qos (wrap32 (qos m + 1)) m in
        match abnormalServer m !! s with
        | Some _ => getLBChan_loop range_order n m1
        | None =>
            match handles m !! s with
            | Some h => Ok (Some (cacheChan h), m1)
            | None =>
                let '(h, m2) := make_handle s m1 in
                Ok (Some (cacheChan h),
                    go_HandleLog h (set_handles (<[s := h]> (handles m2)) m2))
            end
        end
    end.
Proof. reflexivity. Qed.

(** Whatever a selection returns, it leaves the manager as [lb_step] says,
    its result is nil or the queue of a handle that is registered then, and
    it keeps the channels of the registry apart. *)
Lemma getLBChan_loop_frame (n : nat) (m m' : manager) (ch : option chan) :
  getLBChan_loop range_order n m = Ok (ch, m') →
  lb_step m m' ∧ registered_queue m' ch ∧ (chans_wf m → chans_wf m').
Proof.
  revert m. induction n as [|n IH]; intros m.
  - intros [= <- <-]. split; [apply lb_step_refl|]. split; [apply any_handle_registered|done].
  - rewrite getLBChan_loop_S. cbv zeta.
    case_decide; [done|]. case_decide; [done|].
    destruct (eventServer m !! _) as [s|]; [|done].
    destruct (abnormalServer m !! s).
    { intros Hrec. apply IH in Hrec as (Hstep & Hreg & Hwf).
      split; [|done]. eapply lb_step_trans; [apply lb_step_set_qos|done]. }
    destruct (handles m !! s) as [h|] eqn:Hs.
    { intros [= <- <-]. split; [apply lb_step_set_qos|]. split; [|done].
      right. by exists s, h. }
    destruct (lazy_handle s (set_qos (wrap32 (qos m + 1)) m) Hs)
      as (h & m1 & m2 & Hmk & -> & _ & Hh & Hq & Ht & Hstep & Hwf).
    rewrite Hmk. intros [= <- <-].
    split; [eapply lb_step_trans; [apply lb_step_set_qos|done]|].
    split; [|done]. right. exists s, h. split; [|done].
    rewrite Hh. apply lookup_insert_eq.
Qed.

Lemma set_qos_set_qos (q q' : Z) (m : manager) : set_qos q (set_qos q' m) = set_qos q m.
Proof. done. Qed.

Lemma server_after_set_qos (m : manager) (i : nat) :
  server_after (set_qos (qos m + 1) m) i = server_after m (S i).
Proof. unfold server_after. cbn. do 3 f_equal. lia. Qed.

(** The iteration of the loop at a cursor within bounds looks at the server
    under the cursor. *)
Lemma getLBChan_loop_at (n : nat) (m : manager) (s : string) :
  lb_bounds m 1 → server_after m 0 = Some s →
  getLBChan_loop range_order (S n) m =
    let m1 := set_qos (qos m + 1) m in
    match abnormalServer m !! s with
    | Some _ => getLBChan_loop range_order n m1
    | None =>
        match handles m !! s with
        | Some h => Ok (Some (cacheChan h), m1)
        | None =>
            let '(h, m2) := make_handle s m1 in
            Ok (Some (cacheChan h),
                go_HandleLog h (set_handles (<[s := h]> (handles m2)) m2))
        end
    end.
Proof.
  intros (Hq0 & Hq1 & Hlen) Hs. unfold server_after in Hs.
  assert (Hpos : (0 < Z.of_nat (length (eventServer m)))%Z).
  { apply lookup_lt_Some in Hs. lia. }
  rewrite getLBChan_loop_S. cbv zeta.
  rewrite !wrap32_small by lia.
  rewrite Z.rem_mod_nonneg by lia.
  rewrite Z.add_0_r in Hs. rewrite Hs.
  case_decide; [lia|]. case_decide; [|done].
  pose proof (Z.mod_pos_bound (qos m) (Z.of_nat (length (eventServer m)))). lia.
Qed.

(** The loop passes [k] abnormal servers, moving the cursor by [k]. *)
Lemma getLBChan_loop_skip (k j : nat) (m : manager) :
  lb_bounds m k →
  (∀ i, i < k → ∃ s, server_after m i = Some s ∧ is_Some (abnormalServer m !! s)) →
  getLBChan_loop range_order (k + j) m =
    getLBChan_loop range_order j (set_qos (qos m + Z.of_nat k) m).
Proof.
  revert m. induction k as [|k IH]; intros m (Hq0 & Hq1 & Hlen) Habn.
  - cbn. rewrite Z.add_0_r. by destruct m.
  - destruct (Habn 0) as (s & Hs & [a Ha]); [lia|].
    change (S k + j) with (S (k + j)).
    rewrite (getLBChan_loop_at _ _ s); [|unfold lb_bounds; lia|done].
    cbv zeta. rewrite Ha. rewrite IH.
    + cbn. f_equal. rewrite set_qos_set_qos. f_equal. lia.
    + unfold lb_bounds. cbn. lia.
    + intros i Hi. rewrite server_after_set_qos. apply Habn. lia.
Qed.

(** A selection that finds [k] abnormal servers from the cursor on and then
    the server [s], which is not abnormal: it returns the queue of the
    handle of [s], which it registers if there is none, and the cursor has
    moved by [k + 1]. *)
Lemma getLBChan_healthy (m : manager) (k : nat) (s : string) :
  lb_bounds m (S k) →
  k < length (eventServer m) →
  (∀ i, i < k → ∃ s', server_after m i = Some s' ∧ is_Some (abnormalServer m !! s')) →
  server_after m k = Some s →
  abnormalServer m !! s = None →
  ∃ h m',
    getLBChan range_order m = Ok (Some (cacheChan h), m') ∧
    handles m' !! s = Some h ∧
    qos m' = (qos m + Z.of_nat k + 1)%Z ∧
    (∀ h0, handles m !! s = Some h0 → h0 = h ∧ handles m' = handles m ∧ tasks m' = tasks m) ∧
    (handles m !! s = None → handles m' = <[s := h]> (handles m) ∧ tasks m' = tasks m ++ [h]) ∧
    lb_step m m' ∧ (chans_wf m → chans_wf m').
Proof.
  intros (Hq0 & Hq1 & Hlen) Hk Habn Hs Hok. unfold getLBChan.
  assert (Hn : ∃ j, length (eventServer m) = k + S j)
    by (exists (length (eventServer m) - S k); lia).
  destruct Hn as [j ->].
  rewrite getLBChan_loop_skip; [|unfold lb_bounds; lia|done].
  set (m0 := set_qos (qos m + Z.of_nat k) m).
  assert (Hs0 : server_after m0 0 = Some s).
  { rewrite <- Hs. unfold server_after. cbn. do 3 f_equal. lia. }
  rewrite (getLBChan_loop_at _ _ s); [|unfold lb_bounds; cbn; lia|done].
  cbv zeta. change (abnormalServer m0) with (abnormalServer m). rewrite Hok.
  change (handles m0) with (handles m).
  change (set_qos (qos m0 + 1) m0) with (set_qos (qos m0 + 1) m).
  destruct (handles m !! s) as [h|] eqn:Hh.
  - exists h, (set_qos (qos m0 + 1) m). split; [done|]. cbn.
    split_and!; try done; try lia; try apply lb_step_set_qos.
    by intros h0 [= ->].
  - destruct (lazy_handle s (set_qos (qos m0 + 1) m) Hh)
      as (h & m1 & m2 & Hmk & -> & _ & Hh2 & Hq2 & Ht & Hstep & Hwf).
    rewrite Hmk. eexists h, _. split; [done|].
    split_and!; try done.
    rewrite Hh2. apply lookup_insert_eq.
Qed.

(** When every server is abnormal the loop goes once round and the second
    loop answers. *)
Lemma getLBChan_all_abnormal (m : manager) :
  lb_bounds m (length (eventServer m)) →
  (∀ i, i < length (eventServer m) →
        ∃ s, server_after m i = Some s ∧ is_Some (abnormalServer m !! s)) →
  getLBChan range_order m =
    Ok (any_handle range_order m, set_qos (qos m + Z.of_nat (length (eventServer m))) m).
Proof.
  intros Hb Habn. unfold getLBChan.
  rewrite <- (Nat.add_0_r (length (eventServer m))) at 1.
  by rewrite getLBChan_loop_skip.
Qed.

Lemma getLBChan_frame (m m' : manager) (ch : option chan) :
  getLBChan range_order m = Ok (ch, m') →
  lb_step m m' ∧ registered_queue m' ch ∧ (chans_wf m → chans_wf m').
Proof. apply getLBChan_loop_frame. Qed.

(** C4 (as amended): a selection goes round the servers from the one at
    [qos mod len(servers)] on and moves the shared cursor by one for every
    server it looks at: after passing [k] abnormal servers it returns the
    queue of the next server, whose handle it registers if need be, and the
    cursor has moved by [k + 1] (by one when the server under the cursor is
    not abnormal); when all servers are abnormal the cursor has moved by
    their number.  With the servers [a, b], none abnormal, and the cursor at
    0, four selections in a row give the queues of a, b, a, b. *)
Theorem getLBChan_round_robin (m : manager) :
  (∀ k s,
     lb_bounds m (S k) →
     k < length (eventServer m) →
     (∀ i, i < k → ∃ s', server_after m i = Some s' ∧ is_Some (abnormalServer m !! s')) →
     server_after m k = Some s →
     abnormalServer m !! s = None →
     ∃ h m',
       getLBChan range_order m = Ok (Some (cacheChan h), m') ∧
       handles m' !! s = Some h ∧
       (∀ h0, handles m !! s = Some h0 → h0 = h) ∧
       qos m' = (qos m + Z.of_nat k + 1)%Z) ∧
  (lb_bounds m (length (eventServer m)) →
   (∀ i, i < length (eventServer m) →
         ∃ s, server_after m i = Some s ∧ is_Some (abnormalServer m !! s)) →
   getLBChan range_order m =
     Ok (any_handle range_order m, set_qos (qos m + Z.of_nat (length (eventServer m))) m)) ∧
  (∀ a b,
     eventServer m = [a; b] → abnormalServer m = ∅ → qos m = 0%Z →
     ∃ ha hb m1 m2 m3 m4,
       getLBChan range_order m = Ok (Some (cacheChan ha), m1) ∧
       getLBChan range_order m1 = Ok (Some (cacheChan hb), m2) ∧
       getLBChan range_order m2 = Ok (Some (cacheChan ha), m3) ∧
       getLBChan range_order m3 = Ok (Some (cacheChan hb), m4) ∧
       handles m4 !! a = Some ha ∧ handles m4 !! b = Some hb ∧
       qos m4 = 4%Z).
Proof.
  split_and!.
  - intros k s Hb Hk Habn Hs Hok.
    destruct (getLBChan_healthy m k s Hb Hk Habn Hs Hok) as (h & m' & Hget & Hh & Hq & Hold & _).
    exists h, m'. split_and!; try done. intros h0 Hh0. by apply Hold.
  - apply getLBChan_all_abnormal.
  - intros a b Hes Hab Hq.
    assert (Hpick : ∀ m0 s,
      eventServer m0 = [a; b] → abnormalServer m0 = ∅ → (0 ≤ qos m0 < 4)%Z →
      server_after m0 0 = Some s →
      ∃ h m',
        getLBChan range_order m0 = Ok (Some (cacheChan h), m') ∧
        handles m' !! s = Some h ∧ (∀ h0, handles m0 !! s = Some h0 → h0 = h) ∧
        qos m' = (qos m0 + 1)%Z ∧ eventServer m' = [a; b] ∧ abnormalServer m' = ∅ ∧
        handles m0 ⊆ handles m').
    { intros m0 s Hes0 Hab0 Hq0 Hs0.
      destruct (getLBChan_healthy m0 0 s) as (h & m' & Hget & Hh & Hq' & Hold & _ & Hstep & _);
        try done.
      - unfold lb_bounds. rewrite Hes0. cbn. lia.
      - rewrite Hes0. cbn. lia.
      - lia.
      - by rewrite Hab0.
      - destruct Hstep as (_&_&_&Hes'&Hab'&_&_&_&Hsub&_).
        exists h, m'. split_and!; try done; try congruence; try lia.
        intros h0 Hh0. by apply Hold. }
    destruct (Hpick m a) as (ha & m1 & Hg1 & Hh1 & _ & Hq1 & Hes1 & Hab1 & Hsub1);
      [done|done|lia|by unfold server_after; rewrite Hes, Hq|].
    destruct (Hpick m1 b) as (hb & m2 & Hg2 & Hh2 & _ & Hq2 & Hes2 & Hab2 & Hsub2);
      [done|done|lia|by unfold server_after; rewrite Hes1, Hq1, Hq|].
    destruct (Hpick m2 a) as (ha' & m3 & Hg3 & Hh3 & Hold3 & Hq3 & Hes3 & Hab3 & Hsub3);
      [done|done|lia|by unfold server_after; rewrite Hes2, Hq2, Hq1, Hq|].
    destruct (Hpick m3 b) as (hb' & m4 & Hg4 & Hh4 & Hold4 & Hq4 & Hes4 & Hab4 & Hsub4);
      [done|done|lia|by unfold server_after; rewrite Hes3, Hq3, Hq2, Hq1, Hq|].
    assert (ha = ha') as <-.
    { apply Hold3. by eapply lookup_weaken. }
    assert (hb = hb') as <-.
    { apply Hold4. eapply lookup_weaken; [|done]. done. }
    exists ha, hb, m1, m2, m3, m4. split_and!; try done.
    + by eapply lookup_weaken.
    + lia.
Qed.

End ManagerFacts.

(** Why the cursor has to be within bounds: atomic.AddInt32 wraps the
    cursor round to the negative numbers, where the remainder of Go is
    negative, and indexing the list of servers with it panics. *)
Lemma getLBChan_negative_cursor_panics :
  ('(ch1, m1) ← getLBChan range_id (set_qos (2 ^ 31 - 1) (started ["a"; "b"]));
   '(ch2, m2) ← getLBChan range_id m1;
   Ok (ch1, qos m1, ch2, qos m2, getLBChan range_id m2))
  = Ok (Some 2, (- 2 ^ 31)%Z, Some 0, (- 2 ^ 31 + 1)%Z, Panic IndexOutOfRange).
Proof. vm_compute. reflexivity. Qed.

(** C4 on a manager started with the servers a and b. *)
Lemma getLBChan_round_robin_witness :
  ∃ m ha hb m1 m2 m3 m4,
    NewManager (Some (mkDiscover [] false), None) (mkEventConfig ["a"; "b"] []) = (Some m, None) ∧
    getLBChan range_id m = Ok (Some (cacheChan ha), m1) ∧
    getLBChan range_id m1 = Ok (Some (cacheChan hb), m2) ∧
    getLBChan range_id m2 = Ok (Some (cacheChan ha), m3) ∧
    getLBChan range_id m3 = Ok (Some (cacheChan hb), m4) ∧
    handles m4 !! "a" = Some ha ∧ handles m4 !! "b" = Some hb ∧
    qos m4 = 4%Z.
Proof.
  destruct (getLBChan_round_robin range_id (started ["a"; "b"]))
    as (_ & _ & Hab).
  destruct (Hab "a" "b") as (ha & hb & m1 & m2 & m3 & m4 & H);
    [vm_compute; reflexivity..|].
  exists (started ["a"; "b"]), ha, hb, m1, m2, m3, m4.
  split; [vm_compute; reflexivity|]. exact H.
Defined.

(** C4 as stated fails: with the servers a and b, a abnormal and the cursor
    at 0, one selection passes a, returns the queue of b and leaves the
    cursor at 2.  (The manager is the one started for a and b after the
    queue 0 of a was discarded.) *)
Lemma getLBChan_skip_moves_cursor_twice :
  (m1 ← DiscardedLoggerChan range_id 0 (started ["a"; "b"]);
   '(ch, m2) ← getLBChan range_id m1;
   Ok (eventServer m1, map_to_list (abnormalServer m1), qos m1,
       ch, cacheChan <$> handles m2 !! "b", qos m2))
  = Ok (["a"; "b"], [("a", "a")], 0%Z, Some 2, Some 2, 2%Z).
Proof. vm_compute. reflexivity. Qed.

(** ** Releasing a logger *)

(** C6 (as amended): ReleaseLogger looks at the event id of the logger it
    is given, not at the logger: it removes the entry of that event id
    whichever logger is on record there, and leaves the other entries and
    the rest of the manager; it is without effect exactly when no logger is
    on record for the event id. *)
Theorem ReleaseLogger_by_event_id (l : ptr) (m : manager) (lg : logger) :
  heap m !! l = Some lg →
  ∃ m',
    ReleaseLogger l m = Ok m' ∧
    m' = set_loggers (delete (event lg) (loggers m)) m ∧
    loggers m' !! event lg = None ∧
    (∀ e, e ≠ event lg → loggers m' !! e = loggers m !! e) ∧
    (m' = m ↔ loggers m !! event lg = None).
Proof.
  intros Hl. unfold ReleaseLogger. rewrite Hl.
  destruct (loggers m !! event lg) as [l'|] eqn:Hrec.
  - eexists. split; [done|]. cbn. split; [done|].
    split; [apply lookup_delete_eq|].
    split; [intros e He; by apply lookup_delete_ne|].
    split; [|done].
    intros Heq. apply (f_equal (fun m => loggers m !! event lg)) in Heq.
    cbn in Heq. rewrite lookup_delete_eq in Heq. congruence.
  - exists m. split; [done|].
    assert (Hdel : delete (event lg) (loggers m) = loggers m) by by apply delete_id.
    rewrite Hdel. split; [by destruct m|]. done.
Qed.

(** C6 on the manager started for the server a, after its first logger
    for "e" was released and a second one was made. *)
Lemma ReleaseLogger_by_event_id_witness :
  ∃ m',
    ReleaseLogger 0
      (set_loggers {["e" := 1]}
         (set_heap {[0 := mkLogger "e" None 0; 1 := mkLogger "e" None 1]} (started ["a"]))) = Ok m' ∧
    loggers m' !! "e" = None.
Proof.
  destruct (ReleaseLogger_by_event_id 0
              (set_loggers {["e" := 1]}
                 (set_heap {[0 := mkLogger "e" None 0; 1 := mkLogger "e" None 1]} (started ["a"])))
              (mkLogger "e" None 0)) as (m' & H1 & _ & H3 & _);
    [vm_compute; reflexivity|].
  exists m'. split; assumption.
Defined.

(** C6 as stated fails: the logger 0 made for "e" is released, a second
    logger 1 is made for "e" and is the one on record; releasing logger 0
    once more removes the entry of logger 1. *)
Lemma ReleaseLogger_removes_other_instance :
  ('(l1, m1) ← GetLogger range_id 0 "e" (started ["a"]);
   m2 ← ReleaseLogger l1 m1;
   '(l2, m3) ← GetLogger range_id 1 "e" m2;
   m4 ← ReleaseLogger l1 m3;
   Ok (l1, l2, loggers m3 !! "e", event <$> heap m3 !! l1, loggers m4 !! "e"))
  = Ok (0, 1, Some 1, Some "e", None).
Proof. vm_compute. reflexivity. Qed.

(** ** Start and Close *)

Lemma Start_dis_None (m : manager) : dis m = None → dis (Start m).1 = None.
Proof.
  intros Hd. unfold Start. cbn.
  assert (Hfold : ∀ l m0, dis m0 = None →
    dis (foldl (fun m s => let '(h, m') := make_handle s m in
                           go_HandleLog h (set_handles (<[s := h]> (handles m')) m')) m0 l) = None).
  { induction l as [|s l IH]; intros m0 Hm0; [done|]. cbn. apply IH.
    destruct (make_handle_spec s m0) as (h & m1 & -> & _ & _ & _ & _ & _ & _ & Hstep).
    cbn. destruct Hstep as (_&_&_&_&_&->&_). done. }
  specialize (Hfold (eventServer m) m Hd).
  destruct (dis (foldl _ m (eventServer m))) eqn:Hdis; [done|]. by rewrite Hdis.
Qed.

Lemma Close_with_discover (m : manager) (d : Discover) :
  dis m = Some d →
  Close m = Ok (set_dis (Some (Stop_discover d)) (set_ctx_done true m), None).
Proof. intros Hd. unfold Close. cbn. by rewrite Hd. Qed.

(** C8, where the code departs from it: a manager that NewManager made
    after discover.GetDiscover returned no client (and an error) has a nil
    [dis]; Close cancels the context and then calls Stop on the nil
    interface, which panics. *)
Theorem Close_without_discover_panics (e : error) (conf : EventConfig) (m : manager) :
  NewManager (None, Some e) conf = (Some m, None) →
  Close m = Panic NilDereference.
Proof.
  unfold NewManager. case_decide; [done|].
  set (m0 := mkManager _ _ _ _ _ _ _ _ _ _ _ _).
  pose proof (Start_dis_None m0 eq_refl) as Hd.
  destruct (Start m0) as [m1 r]. intros [= <- _]. unfold Close. cbn in *. by rewrite Hd.
Qed.

(** C8 for the configuration with the one server a. *)
Lemma Close_without_discover_panics_witness :
  ∃ m,
    NewManager (None, Some ErrDiscover) (mkEventConfig ["a"] []) = (Some m, None) ∧
    Close m = Panic NilDereference.
Proof.
  eexists. split; [vm_compute; reflexivity|].
  apply (Close_without_discover_panics ErrDiscover (mkEventConfig ["a"] [])).
  vm_compute. reflexivity.
Defined.

(** ** Reconciling the handles with the discovered endpoints *)

Section UpdateEndpointsFacts.

Variable range_order : ∀ A : Type, list (string * A) → list (string * A).
Hypothesis range_perm : ∀ (A : Type) (l : list (string * A)), range_order A l ≡ₚ l.

Lemma filter_no_handle_insert (s : string) (h : handle) (hs : gmap string handle)
    (urls : list string) :
  s ∉ urls →
  filter (fun u => <[s := h]> hs !! u = None) urls = filter (fun u => hs !! u = None) urls.
Proof.
  induction urls as [|u urls IH]; [done|].
  intros Hs. apply not_elem_of_cons in Hs as [Hne Hs].
  rewrite !filter_cons, IH by done. rewrite lookup_insert_ne by done. done.
Qed.

(** The first loop of UpdateEndpoints over endpoints with distinct
    addresses: it registers a new handle for every address that has none,
    in the order of the endpoints. *)
Lemma foldM_add_endpoint (es : list Endpoint) :
  NoDup (URL <$> es) →
  ∀ new m,
  ∃ new' m' created,
    foldM add_endpoint (Some <$> es) (new, m) = Ok (new', m') ∧
    dom new' = dom new ∪ list_to_set (URL <$> es) ∧
    dom (handles m') = dom (handles m) ∪ list_to_set (URL <$> es) ∧
    tasks m' = tasks m ++ created ∧
    server <$> created = filter (fun u => handles m !! u = None) (URL <$> es) ∧
    Forall (fun h => handles m' !! server h = Some h) created ∧
    qos m' = qos m ∧ lb_step m m'.
Proof.
  induction es as [|e es IH]; intros Hnd new m.
  - exists new, m, []. cbn. rewrite app_nil_r.
    split_and!; try done; set_solver.
  - rewrite fmap_cons in Hnd. apply NoDup_cons in Hnd as [Hnotin Hnd].
    cbn [fmap list_fmap foldM add_endpoint mbind result_bind].
    destruct (handles m !! URL e) as [h0|] eqn:Hh.
    + cbn [mbind result_bind].
      destruct (IH Hnd (<[URL e := URL e]> new) m)
        as (new' & m' & created & -> & Hnew & Hdom & Ht & Hsrv & Hall & Hq & Hstep).
      exists new', m', created. split; [done|].
      rewrite filter_cons_False by (by rewrite Hh).
      split_and!; try done.
      * rewrite Hnew, dom_insert_L. set_solver.
      * rewrite Hdom. apply elem_of_dom_2 in Hh. set_solver.
    + destruct (lazy_handle (URL e) m Hh)
        as (h & m1 & m2 & Hmk & -> & Hs & Hh2 & Hq2 & Ht2 & Hstep2 & _).
      rewrite Hmk. cbn [mbind result_bind].
      set (m2 := go_HandleLog h (set_handles (<[URL e := h]> (handles m1)) m1)) in *.
      destruct (IH Hnd (<[URL e := URL e]> new) m2)
        as (new' & m' & created & -> & Hnew & Hdom & Ht & Hsrv & Hall & Hq & Hstep).
      exists new', m', (h :: created). split; [done|].
      rewrite filter_cons_True by done.
      split_and!.
      * rewrite Hnew, dom_insert_L. set_solver.
      * rewrite Hdom, Hh2, dom_insert_L. set_solver.
      * rewrite Ht, Ht2. by rewrite <- app_assoc.
      * rewrite fmap_cons, Hs, Hsrv, Hh2. f_equal. by apply filter_no_handle_insert.
      * constructor; [|done]. rewrite Hs.
        destruct Hstep as (_&_&_&_&_&_&_&_&Hsub&_).
        eapply lookup_weaken; [|done]. rewrite Hh2. apply lookup_insert_eq.
      * congruence.
      * by eapply lb_step_trans.
Qed.

(** The second loop: the handles whose address is not in [new] go. *)
Lemma foldl_drop_old (new : gmap string string) (l : list (string * handle)) (m : manager) :
  let m' := foldl (drop_old new) m l in
  m' = set_handles (handles m') m ∧
  ∀ k, handles m' !! k =
       if decide (k ∈ l.*1 ∧ new !! k = None) then None else handles m !! k.
Proof.
  revert m. induction l as [|[k0 v0] l IH]; intros m; cbn zeta.
  - split; [by destruct m|]. intros k. case_decide as Hk; [|done].
    destruct Hk as [Hk _]. by apply elem_of_nil in Hk.
  - cbn [foldl]. destruct (IH (drop_old new m (k0, v0))) as [Hframe Hlk].
    split.
    + rewrite Hframe. unfold drop_old. cbn. by destruct (new !! k0), m.
    + intros k. rewrite Hlk. unfold drop_old. cbn [fst].
      rewrite fmap_cons. cbn [fst].
      destruct (new !! k0) eqn:Hn0; cbn.
      * repeat case_decide; try done.
        -- exfalso. destruct H as [Hin Hnone]. apply H0. split; [by right|done].
        -- exfalso. destruct H0 as [[->|Hin]%elem_of_cons Hnone]; [congruence|].
           apply H. done.
      * repeat case_decide; try done.
        -- exfalso. apply H0. destruct H as [Hin Hnone]. split; [by right|done].
        -- destruct (decide (k = k0)) as [->|Hne].
           ++ apply lookup_delete_eq.
           ++ exfalso. apply H. destruct H0 as [[->|Hin]%elem_of_cons Hnone]; done.
        -- destruct (decide (k = k0)) as [->|Hne].
           ++ exfalso. apply H0. split; [by left|done].
           ++ by apply lookup_delete_ne.
Qed.

Lemma foldl_keys {A : Type} (l : list (string * A)) (acc : list string) :
  foldl (fun es (kv : string * A) => es ++ [kv.1]) acc l = acc ++ l.*1.
Proof.
  revert acc. induction l as [|kv l IH]; intros acc; cbn.
  - by rewrite app_nil_r.
  - rewrite IH. by rewrite <- app_assoc.
Qed.

(** Of [urls], distinct, those without a handle are all but the ones the
    registry overlaps with. *)
Lemma length_filter_no_handle (hs : gmap string handle) (urls : list string) :
  NoDup urls →
  length (filter (fun u => hs !! u = None) urls) =
    length urls - size (dom hs ∩ list_to_set urls).
Proof.
  intros Hnd.
  assert (Hsum : length (filter (fun u => hs !! u = None) urls)
                 + size (dom hs ∩ list_to_set urls) = length urls); [|lia].
  induction Hnd as [|u urls Hu Hnd IH].
  { cbn. by rewrite intersection_empty_r_L, size_empty. }
  rewrite list_to_set_cons. destruct (hs !! u) as [h|] eqn:Hh.
  - rewrite filter_cons_False by (by rewrite Hh).
    assert (Heq : dom hs ∩ ({[u]} ∪ list_to_set urls)
                  = {[u]} ∪ (dom hs ∩ list_to_set urls)).
    { apply elem_of_dom_2 in Hh. set_solver. }
    rewrite Heq, size_union, size_singleton by set_solver. cbn. lia.
  - rewrite filter_cons_True by done.
    assert (Heq : dom hs ∩ ({[u]} ∪ list_to_set urls) = dom hs ∩ list_to_set urls).
    { apply not_elem_of_dom in Hh. set_solver. }
    rewrite Heq. cbn. lia.
Qed.

(** C3: UpdateEndpoints with no endpoint leaves the manager as it is.  With
    N >= 1 endpoints of distinct addresses, K of them the addresses of
    handles already registered, it starts exactly N - K new handles, one for
    each address that had none, keeps the handles of the K addresses,
    removes every other handle, empties the abnormal set and makes the new
    addresses the list of servers, in some order; loggers and cursor stay. *)
Theorem UpdateEndpoints_reconciles (es : list Endpoint) (m : manager) :
  NoDup (URL <$> es) →
  UpdateEndpoints range_order [] m = Ok m ∧
  (es ≠ [] →
   ∃ m' created,
     UpdateEndpoints range_order (Some <$> es) m = Ok m' ∧
     abnormalServer m' = ∅ ∧
     eventServer m' ≡ₚ URL <$> es ∧
     dom (handles m') = list_to_set (URL <$> es) ∧
     (∀ s h, handles m !! s = Some h → s ∈ URL <$> es → handles m' !! s = Some h) ∧
     (∀ s, s ∉ URL <$> es → handles m' !! s = None) ∧
     tasks m' = tasks m ++ created ∧
     length created = length es - size (dom (handles m) ∩ list_to_set (URL <$> es)) ∧
     Forall (fun h => handles m !! server h = None ∧ handles m' !! server h = Some h) created ∧
     loggers m' = loggers m ∧ heap m' = heap m ∧ qos m' = qos m).
Proof.
  intros Hnd. split; [done|]. intros Hne. unfold UpdateEndpoints.
  case_decide as Hlen.
  { rewrite length_fmap in Hlen. destruct es; [done|]. cbn in Hlen. lia. }
  destruct (foldM_add_endpoint es Hnd ∅ (set_abnormalServer ∅ m))
    as (new & m1 & created & -> & Hnew & Hdom & Ht & Hsrv & Hall & Hq & Hstep).
  cbn [mbind result_bind].
  destruct (foldl_drop_old new (range range_order (handles m1)) m1) as [Hframe Hlk].
  set (m2 := foldl (drop_old new) m1 (range range_order (handles m1))) in *.
  rewrite dom_empty_L, union_empty_l_L in Hnew.
  change (handles (set_abnormalServer ∅ m)) with (handles m) in *.
  change (tasks (set_abnormalServer ∅ m)) with (tasks m) in *.
  destruct Hstep as (_&_&Hlog&_&Hab&_&Hheap&_&Hsub&_). cbn in Hlog, Hab, Hheap, Hsub, Hq.
  assert (Hin_new : ∀ k, k ∈ URL <$> es → is_Some (new !! k)).
  { intros k Hk. apply elem_of_dom. rewrite Hnew. by apply elem_of_list_to_set. }
  assert (Hout_new : ∀ k, k ∉ URL <$> es → new !! k = None).
  { intros k Hk. apply not_elem_of_dom. rewrite Hnew. by rewrite elem_of_list_to_set. }
  assert (Hkeep : ∀ k, k ∈ URL <$> es → handles m2 !! k = handles m1 !! k).
  { intros k Hk. rewrite Hlk. case_decide as Hc; [|done].
    destruct Hc as [_ Hc]. destruct (Hin_new k Hk) as [? Hs]. congruence. }
  assert (Hgone : ∀ k, k ∉ URL <$> es → handles m2 !! k = None).
  { intros k Hk. rewrite Hlk. case_decide as Hc; [done|].
    destruct (handles m1 !! k) as [h|] eqn:Hh; [|done].
    exfalso. apply Hc. split; [|by apply Hout_new].
    apply list_elem_of_fmap. exists (k, h). split; [done|]. by apply elem_of_range. }
  exists (set_eventServer (foldl (fun es0 (kv : string * string) => es0 ++ [kv.1]) []
                                 (range range_order new)) m2), created.
  split; [done|]. rewrite Hframe. cbn.
  split_and!; try done.
  - rewrite foldl_keys. cbn. unfold range. rewrite range_perm.
    apply NoDup_Permutation; [apply NoDup_fst_map_to_list|done|].
    intros k. split.
    + intros ([k' v] & -> & Hkv)%list_elem_of_fmap. apply elem_of_map_to_list in Hkv.
      apply (elem_of_list_to_set (C := gset string)). rewrite <- Hnew.
      by apply elem_of_dom_2 in Hkv.
    + intros Hk. destruct (Hin_new k Hk) as [v Hv]. apply list_elem_of_fmap.
      exists (k, v). split; [done|]. by apply elem_of_map_to_list.
  - apply set_eq. intros k. rewrite elem_of_dom, elem_of_list_to_set.
    destruct (decide (k ∈ URL <$> es)) as [Hk|Hk].
    + rewrite Hkeep by done. split; [done|]. intros _.
      apply elem_of_dom. rewrite Hdom. set_solver.
    + rewrite Hgone by done. split; [by intros []|done].
  - intros k h Hh Hk. rewrite Hkeep by done. by eapply lookup_weaken.
  - rewrite <- (length_fmap URL es), <- length_filter_no_handle by done.
    by rewrite <- Hsrv, length_fmap.
  - apply Forall_forall. intros h Hh.
    assert (Hs : server h ∈ filter (fun u => handles m !! u = None) (URL <$> es)).
    { rewrite <- Hsrv. apply list_elem_of_fmap. by exists h. }
    apply list_elem_of_filter in Hs as [Hnone Hin]. split; [done|].
    rewrite Hkeep by done. by eapply Forall_forall in Hall.
Qed.

End UpdateEndpointsFacts.

(** C3 on the manager started for a and b, with the endpoints a and c: one
    address of two has a handle already, one handle is started, and the
    handle of b goes. *)
Lemma UpdateEndpoints_reconciles_witness :
  ∃ m' created,
    UpdateEndpoints range_id
      [Some (mkEndpoint "n1" "a" 1 0); Some (mkEndpoint "n2" "c" 1 0)] (started ["a"; "b"])
      = Ok m' ∧
    abnormalServer m' = ∅ ∧
    eventServer m' ≡ₚ ["a"; "c"] ∧
    dom (handles m') = {["a"; "c"]} ∧
    tasks m' = tasks (started ["a"; "b"]) ++ created ∧
    length created = 1.
Proof.
  destruct (UpdateEndpoints_reconciles range_id range_id_perm
              [mkEndpoint "n1" "a" 1 0; mkEndpoint "n2" "c" 1 0] (started ["a"; "b"]))
    as [_ H]; [compute_done|].
  destruct H as (m' & created & H1 & H2 & H3 & H4 & _ & _ & H7 & H8 & _); [discriminate|].
  exists m', created. split_and!; assumption.
Defined.

(** ** The queue a registered logger refers to *)

Lemma Start_loggers (m : manager) :
  loggers (Start m).1 = loggers m ∧ heap (Start m).1 = heap m.
Proof.
  unfold Start. cbn.
  assert (Hfold : ∀ l m0,
    let m1 := foldl (fun m s => let '(h, m') := make_handle s m in
                                go_HandleLog h (set_handles (<[s := h]> (handles m')) m')) m0 l in
    loggers m1 = loggers m0 ∧ heap m1 = heap m0).
  { induction l as [|s l IH]; intros m0; [done|]. cbn.
    destruct (make_handle_spec s m0) as (h & m1 & Hmk & _ & _ & _ & _ & _ & _ & Hstep).
    rewrite Hmk. destruct Hstep as (_&_&Hl&_&_&_&Hh&_).
    destruct (IH (go_HandleLog h (set_handles (<[s := h]> (handles m1)) m1))) as [-> ->].
    done. }
  destruct (Hfold (eventServer m) m) as [Hl Hh].
  by destruct (dis (foldl _ m (eventServer m))).
Qed.

Lemma NewManager_loggers_bound (got : option Discover * option error) (conf : EventConfig)
    (m : manager) (err : option error) :
  NewManager got conf = (Some m, err) → loggers_bound m.
Proof.
  intros Hnew.
  assert (Hl : loggers m = ∅).
  { unfold NewManager in Hnew. destruct got as [d [e|]].
    - case_decide; [done|].
      set (m0 := mkManager _ _ _ _ _ _ _ _ _ _ _ _) in *.
      destruct (Start_loggers m0) as [Hl _]. destruct (Start m0). by injection Hnew as <- _.
    - set (m0 := mkManager _ _ _ _ _ _ _ _ _ _ _ _) in *.
      destruct (Start_loggers m0) as [Hl _]. destruct (Start m0). by injection Hnew as <- _. }
  intros e l. by rewrite Hl, lookup_empty.
Qed.

Lemma loggers_bound_delete (e : string) (m : manager) :
  loggers_bound m → loggers_bound (set_loggers (delete e (loggers m)) m).
Proof.
  intros Hb e0 l0. cbn. intros [_ Hl]%lookup_delete_Some. exact (Hb e0 l0 Hl).
Qed.

Lemma ReleaseLogger_bound (l : ptr) (m m' : manager) :
  loggers_bound m → ReleaseLogger l m = Ok m' → loggers_bound m'.
Proof.
  intros Hb. unfold ReleaseLogger. destruct (heap m !! l) as [lg|]; [|done].
  destruct (loggers m !! event lg); intros [= <-]; [|done]. by apply loggers_bound_delete.
Qed.

Section BoundFacts.

Variable range_order : ∀ A : Type, list (string * A) → list (string * A).
Hypothesis range_perm : ∀ (A : Type) (l : list (string * A)), range_order A l ≡ₚ l.

Lemma GetLogger_bound (now : Z) (e : string) (l : ptr) (m m' : manager) :
  loggers_bound m → GetLogger range_order now e m = Ok (l, m') → loggers_bound m'.
Proof.
  intros Hb. unfold GetLogger.
  set (eid := if decide (e = " " ∨ String.length e = 0) then "system" else e).
  destruct (loggers m !! eid) as [l0|]; [by intros [= <- <-]|].
  destruct (getLBChan range_order m) as [[ch m1]|] eqn:Hget; [|done].
  cbn [mbind result_bind]. intros [= <- <-].
  apply (getLBChan_frame range_order range_perm) in Hget
    as ((_&_&Hl&_&_&_&Hh&_&Hsub&_) & Hreg & _).
  intros e0 l0. cbn. intros [[<- <-]|[Hne Hl0]]%lookup_insert_Some.
  - eexists. split; [apply lookup_insert_eq|]. done.
  - rewrite Hl in Hl0. destruct (Hb e0 l0 Hl0) as (lg & Hlg & Hq).
    exists lg. split.
    + rewrite lookup_insert_ne; [by rewrite Hh|].
      intros <-. rewrite <- Hh in Hlg. apply elem_of_dom_2 in Hlg. by apply is_fresh in Hlg.
    + by eapply (registered_queue_mono m).
Qed.

Lemma GC_sweep_bound (now : Z) (m m' : manager) :
  loggers_bound m → GC_sweep range_order now m = Ok m' → loggers_bound m'.
Proof.
  intros Hb. unfold GC_sweep.
  destruct (foldM _ _ _) as [needRelease|]; [|done]. cbn [mbind result_bind].
  assert (Hdel : ∀ evs m0, loggers_bound m0 →
    loggers_bound (foldl (fun m ev => set_loggers (delete ev (loggers m)) m) m0 evs)).
  { induction evs as [|ev evs IH]; intros m0 Hm0; [done|]. cbn. apply IH.
    by apply loggers_bound_delete. }
  case_decide; intros [= <-]; [by apply Hdel|done].
Qed.

Lemma foldl_mark_abnormal_frame (cc : chan) (l : list (string * handle)) (m : manager) :
  let m' := foldl (mark_abnormal cc) m l in
  m' = set_abnormalServer (abnormalServer m') m.
Proof.
  revert m. induction l as [|kv l IH]; intros m; cbn zeta; [by destruct m|].
  cbn [foldl]. set (m1 := mark_abnormal cc m kv). rewrite (IH m1).
  generalize (abnormalServer (foldl (mark_abnormal cc) m1 l)). intros ab.
  subst m1. unfold mark_abnormal. by case_decide; destruct m.
Qed.

Lemma rebind_bound (cc : chan) (kl : string * ptr) (m m' : manager) :
  loggers_bound m → rebind range_order cc kl m = Ok m' →
  loggers_bound m' ∧ loggers m' = loggers m.
Proof.
  intros Hb. unfold rebind, GetChan. destruct (heap m !! kl.2) as [lg|] eqn:Hlg; [|done].
  cbn [mbind result_bind]. case_decide; [|by intros [= <-]].
  destruct (getLBChan range_order m) as [[ch' m1]|] eqn:Hget; [|done].
  cbn [mbind result_bind].
  apply (getLBChan_frame range_order range_perm) in Hget
    as ((_&_&Hl&_&_&_&Hh&_&Hsub&_) & Hreg & _).
  unfold SetChan. destruct (heap m1 !! kl.2) as [lg1|]; [|done]. intros [= <-].
  split; [|done]. intros e0 l0. cbn. rewrite Hl. intros Hl0.
  destruct (Hb e0 l0 Hl0) as (lg0 & Hlg0 & Hq).
  destruct (decide (l0 = kl.2)) as [->|Hne].
  - eexists. split; [apply lookup_insert_eq|]. done.
  - exists lg0. split; [by rewrite lookup_insert_ne, Hh|].
    by eapply (registered_queue_mono m).
Qed.

Lemma foldM_rebind_bound (cc : chan) (l : list (string * ptr)) (m m' : manager) :
  loggers_bound m → foldM (rebind range_order cc) l m = Ok m' →
  loggers_bound m' ∧ loggers m' = loggers m.
Proof.
  revert m. induction l as [|kl l IH]; intros m Hb; [by intros [= <-]|].
  cbn [foldM]. destruct (rebind range_order cc kl m) as [m1|] eqn:Hre; [|done].
  cbn [mbind result_bind]. intros Hrest.
  destruct (rebind_bound _ _ _ _ Hb Hre) as [Hb1 Hl1].
  destruct (IH _ Hb1 Hrest) as [Hb' Hl']. split; [done|congruence].
Qed.

Lemma DiscardedLoggerChan_bound (cc : chan) (m m' : manager) :
  loggers_bound m → DiscardedLoggerChan range_order cc m = Ok m' → loggers_bound m'.
Proof.
  intros Hb. unfold DiscardedLoggerChan. intros Hfold.
  eapply foldM_rebind_bound; [|done].
  rewrite foldl_mark_abnormal_frame. exact Hb.
Qed.

(** C5 (as amended): a manager fresh from NewManager has every registered
    logger refer to nil or to the queue of a registered handle, and
    GetLogger, ReleaseLogger, the sweep of GC and DiscardedLoggerChan keep
    it so.  (UpdateEndpoints and RemoveHandle take handles out of the
    registry and leave the loggers as they are.) *)
Theorem loggers_bound_preserved :
  (∀ got conf m err, NewManager got conf = (Some m, err) → loggers_bound m) ∧
  (∀ m, loggers_bound m →
     (∀ now e l m', GetLogger range_order now e m = Ok (l, m') → loggers_bound m') ∧
     (∀ l m', ReleaseLogger l m = Ok m' → loggers_bound m') ∧
     (∀ now m', GC_sweep range_order now m = Ok m' → loggers_bound m') ∧
     (∀ cc m', DiscardedLoggerChan range_order cc m = Ok m' → loggers_bound m')).
Proof.
  split; [apply NewManager_loggers_bound|]. intros m Hb. split_and!.
  - intros now e l m'. by apply GetLogger_bound.
  - intros l m'. by apply ReleaseLogger_bound.
  - intros now m'. by apply GC_sweep_bound.
  - intros cc m'. by apply DiscardedLoggerChan_bound.
Qed.

End BoundFacts.

(** Runs a call on a concrete state and gives its result as the witness. *)
Ltac exists_result call :=
  let r := eval vm_compute in call in
  lazymatch r with
  | Ok (?a, ?b) => exists a, b
  | Ok ?a => exists a
  end.

(** C5 on the manager started for the server a: it satisfies the
    invariant, and so does the manager after GetLogger. *)
Lemma loggers_bound_preserved_witness :
  ∃ l m',
    GetLogger range_id 0 "e" (started ["a"]) = Ok (l, m') ∧
    loggers_bound (started ["a"]) ∧ loggers_bound m'.
Proof.
  destruct (loggers_bound_preserved range_id range_id_perm) as [Hnew Hstep].
  assert (H0 : loggers_bound (started ["a"])).
  { apply (Hnew (Some (mkDiscover [] false), None) (mkEventConfig ["a"] []) _ None).
    vm_compute. reflexivity. }
  exists_result (GetLogger range_id 0 "e" (started ["a"])).
  split; [vm_compute; reflexivity|]. split; [exact H0|].
  destruct (Hstep _ H0) as (Hget & _). eapply (Hget 0%Z "e"). vm_compute. reflexivity.
Defined.

(** C5 as stated fails: the logger for "e" of the manager started for a
    refers to the queue 0 of a; after UpdateEndpoints with the one endpoint
    b the registry holds the handle of b alone, with the queue 2, and the
    logger still refers to the queue 0. *)
Lemma UpdateEndpoints_leaves_dangling_queue :
  ∃ l m1 m2,
    GetLogger range_id 0 "e" (started ["a"]) = Ok (l, m1) ∧
    UpdateEndpoints range_id [Some (mkEndpoint "n" "b" 1 0)] m1 = Ok m2 ∧
    loggers_bound m1 ∧
    loggers m2 !! "e" = Some l ∧
    GetChan l m2 = Ok (Some 0) ∧
    handles m2 = {["b" := mkHandle "b" 3 2]} ∧
    ¬ loggers_bound m2.
Proof.
  exists_result (GetLogger range_id 0 "e" (started ["a"])).
  match goal with |- ∃ m2, _ ∧ UpdateEndpoints _ ?eps ?m1 = _ ∧ _ =>
    exists_result (UpdateEndpoints range_id eps m1) end.
  do 2 (split; [vm_compute; reflexivity|]).
  split; [apply (bool_decide_unpack _); vm_compute; exact I|].
  do 3 (split; [vm_compute; reflexivity|]).
  apply (bool_decide_eq_false_1 _). vm_compute. reflexivity.
Qed.

(** The removal of a handle does not keep the invariant either: the logger
    for "e" goes on referring to the queue 0 of the handle of a. *)
Lemma RemoveHandle_leaves_dangling_queue :
  ∃ l m1,
    GetLogger range_id 0 "e" (started ["a"]) = Ok (l, m1) ∧
    loggers_bound m1 ∧ ¬ loggers_bound (RemoveHandle "a" m1).
Proof.
  exists_result (GetLogger range_id 0 "e" (started ["a"])).
  split; [vm_compute; reflexivity|].
  split; [apply (bool_decide_unpack _); vm_compute; exact I|].
  apply (bool_decide_eq_false_1 _). vm_compute. reflexivity.
Qed.

(** ** The drain task *)

Lemma clean_nil : clean [].
Proof. intros me Hin. by apply elem_of_nil in Hin. Qed.


Lemma clean_cons (op : wire_op) (tr : list wire_op) :
  (∀ me, op ≠ Send me false) → clean tr → clean (op :: tr).
Proof. intros Hop Htr me [Heq|Hin]%elem_of_cons; [by eapply Hop|by eapply Htr]. Qed.



Section HandleFacts.

Variable range_order : ∀ A : Type, list (string * A) → list (string * A).

(** How the loop of a task ends: waiting or returned nil with no message
    refused since [tr], or returned nil right after a refused message, the
    stream closed and the queue of the handle discarded. *)
Lemma drain_inv (h : handle) (cases : list select_case) (tr tr' : list wire_op)
    (m m' : manager) (o : outcome) :
  drain range_order h cases tr m = Ok (o, tr', m') →
  ((∀ e, o ≠ Returned (Some e)) ∧ ∃ sent, tr' = tr ++ sent ∧ clean sent) ∨
  (o = Returned None ∧
   ∃ sent me m1, tr' = tr ++ sent ++ [Send me false; CloseSend] ∧ clean sent ∧
                 DiscardedLoggerChan range_order (cacheChan h) m1 = Ok m').
Proof.
  revert tr m. induction cases as [|c cases IH]; intros tr m.
  - intros [= <- <- <-]. left. split; [done|]. exists [].
    split; [by rewrite app_nil_r|apply clean_nil].
  - assert (Hclose : clean [CloseSend]) by (apply clean_cons; [done|apply clean_nil]).
    destruct c as [| |send_ok]; cbn [drain].
    + destruct (ctx_done m); [|apply IH].
      intros [= <- <- <-]. left. split; [done|]. by exists [CloseSend].
    + destruct (chans m !! stop h) as [c|]; [|apply IH].
      destruct (closed c); [|apply IH].
      intros [= <- <- <-]. left. split; [done|]. by exists [CloseSend].
    + destruct (chans m !! cacheChan h) as [c|]; [|apply IH].
      destruct (buf c) as [|me q]; [apply IH|].
      set (m1 := set_chans _ m). destruct send_ok.
      * intros Hrest. apply IH in Hrest
          as [(?&sent&->&Hsent)|(->&sent&me'&m2&->&Hsent&Hdisc)].
        -- left. split; [done|]. exists (Send me true :: sent).
           split; [by rewrite <- app_assoc|]. by apply clean_cons.
        -- right. split; [done|]. exists (Send me true :: sent), me', m2.
           split; [by rewrite <- !app_assoc|]. split; [by apply clean_cons|done].
      * destruct (DiscardedLoggerChan range_order (cacheChan h) m1) as [m2|] eqn:Hdisc; [|done].
        cbn [mbind result_bind]. intros [= <- <- <-]. right. split; [done|].
        exists [], me, m1. split_and!; [done|apply clean_nil|done].
Qed.


(** What util.Exec gets to see: the function literal returns an error
    exactly when the connection or the opening of the log stream failed; a
    failed send returns nil, as the cancelled context and the stop do. *)
Lemma HandleLog_body_error_iff (h : handle) (a : attempt) (tr tr' : list wire_op)
    (m m' : manager) (o : outcome) :
  HandleLog_body range_order h a tr m = Ok (o, tr', m') →
  (∃ e, o = Returned (Some e)) ↔ (a = ConnectFails ∨ a = LogFails).
Proof.
  destruct a as [| |cases]; cbn [HandleLog_body].
  - intros [= <- <- <-]. split; [by left|by eexists].
  - destruct (DiscardedLoggerChan _ _ _); [|done]. cbn [mbind result_bind].
    intros [= <- <- <-]. split; [by right|by eexists].
  - intros [(Hne&_)|(->&_)]%drain_inv.
    + split; [intros [e ->]; by destruct (Hne e)|by intros [|]].
    + split; [by intros [e [=]]|by intros [|]].
Qed.


End HandleFacts.

(** ** Failover *)

Lemma least_nat (P : nat → Prop) (dec : ∀ i, Decision (P i)) (n : nat) :
  P n → ∃ k, k ≤ n ∧ P k ∧ ∀ i, i < k → ¬ P i.
Proof.
  intros Hn.
  assert (Hall : ∀ j, (∃ k, k < j ∧ P k ∧ ∀ i, i < k → ¬ P i) ∨ (∀ i, i < j → ¬ P i)).
  { induction j as [|j [(k & Hk & HP & Hmin)|Hnone]].
    - right. intros i Hi. lia.
    - left. exists k. split; [lia|done].
    - destruct (dec j) as [Hj|Hj].
      + left. exists j. split; [lia|done].
      + right. intros i Hi. destruct (decide (i = j)) as [->|]; [done|]. apply Hnone. lia. }
  destruct (Hall (S n)) as [(k & Hk & HP & Hmin)|Hnone].
  - exists k. split; [lia|done].
  - exfalso. by apply (Hnone n); [lia|].
Qed.

Lemma server_after_is_Some (m : manager) (i : nat) :
  eventServer m ≠ [] → is_Some (server_after m i).
Proof.
  intros Hne. unfold server_after. apply lookup_lt_is_Some.
  assert (0 < length (eventServer m)) by (destruct (eventServer m); [done|cbn; lia]).
  pose proof (Z.mod_pos_bound (qos m + Z.of_nat i) (Z.of_nat (length (eventServer m)))). lia.
Qed.

(** Going round from the cursor, a server that is not abnormal is met
    within one turn if there is any. *)
Lemma first_healthy (m : manager) (s : string) :
  s ∈ eventServer m → abnormalServer m !! s = None →
  ∃ k s',
    k < length (eventServer m) ∧ server_after m k = Some s' ∧
    abnormalServer m !! s' = None ∧
    ∀ i, i < k → ∃ s'', server_after m i = Some s'' ∧ is_Some (abnormalServer m !! s'').
Proof.
  intros [j Hj]%list_elem_of_lookup Hs.
  pose proof (lookup_lt_Some _ _ _ Hj) as Hlt.
  set (n := Z.of_nat (length (eventServer m))).
  set (P := fun i => ∃ s', server_after m i = Some s' ∧ abnormalServer m !! s' = None).
  assert (Hdec : ∀ i, Decision (P i)).
  { intros i. unfold P. destruct (server_after m i) as [s'|].
    - destruct (abnormalServer m !! s') eqn:Hab.
      + right. intros (s'' & [= <-] & ?). congruence.
      + left. by exists s'.
    - right. by intros (s'' & [=] & _). }
  assert (Hne : eventServer m ≠ []) by (intros Heq; rewrite Heq in Hj; done).
  set (i0 := Z.to_nat ((Z.of_nat j - qos m) `mod` n)).
  assert (Hi0 : P i0).
  { exists s. split; [|done]. unfold server_after. fold n. rewrite <- Hj. f_equal.
    subst i0. pose proof (Z.mod_pos_bound (Z.of_nat j - qos m) n).
    rewrite Z2Nat.id by lia. rewrite Zplus_mod_idemp_r.
    replace (qos m + (Z.of_nat j - qos m))%Z with (Z.of_nat j) by lia.
    rewrite Z.mod_small by lia. lia. }
  destruct (least_nat P Hdec i0 Hi0) as (k & Hk & (s' & Hs' & Hab') & Hmin).
  exists k, s'. split_and!; try done.
  - subst i0. pose proof (Z.mod_pos_bound (Z.of_nat j - qos m) n). lia.
  - intros i Hi. destruct (server_after_is_Some m i Hne) as [s'' Hs''].
    exists s''. split; [done|].
    destruct (abnormalServer m !! s'') eqn:Hab; [done|].
    exfalso. apply (Hmin i Hi). by exists s''.
Qed.

Lemma failover_step_refl (m : manager) : failover_step m m.
Proof. by repeat split. Qed.

Lemma failover_step_trans (m1 m2 m3 : manager) :
  failover_step m1 m2 → failover_step m2 m3 → failover_step m1 m3.
Proof.
  intros (?&?&?&?&?&?&?&?&?) (?&?&?&?&?&?&?&?&?).
  repeat split; try congruence; by etrans.
Qed.

Lemma lb_step_failover (m m' : manager) : lb_step m m' → failover_step m m'.
Proof. intros (?&?&?&?&?&?&?&?&?&?). by repeat split. Qed.

Lemma good_queue_mono (cc : chan) (m m' : manager) (ch : option chan) :
  failover_step m m' → good_queue cc m ch → good_queue cc m' ch.
Proof.
  intros (_&_&_&Hes&Hab&_&_&Hsub&_) (s & h & Hs & Hok & Hh & -> & Hne).
  exists s, h. rewrite Hes, Hab. split_and!; try done. by eapply lookup_weaken.
Qed.

Lemma good_queue_ne (cc : chan) (m : manager) (ch : option chan) :
  good_queue cc m ch → ch ≠ Some cc.
Proof. intros (s & h & _ & _ & _ & -> & Hne) [= Heq]. done. Qed.

Section FailoverFacts.

Variable range_order : ∀ A : Type, list (string * A) → list (string * A).
Hypothesis range_perm : ∀ (A : Type) (l : list (string * A)), range_order A l ≡ₚ l.

(** A selection whose cursor and server list are within bounds returns; if
    some server is not abnormal, it returns a queue of such a server, which
    is not the queue [cc] of a handle registered for an abnormal server. *)
Lemma getLBChan_total (m : manager) :
  lb_bounds m (length (eventServer m)) →
  ∃ ch m',
    getLBChan range_order m = Ok (ch, m') ∧ lb_step m m' ∧ (chans_wf m → chans_wf m') ∧
    (qos m ≤ qos m' ≤ qos m + Z.of_nat (length (eventServer m)))%Z ∧
    (∀ cc a h,
       chans_wf m → handles m !! a = Some h → cacheChan h = cc →
       is_Some (abnormalServer m !! a) →
       (∃ s, s ∈ eventServer m ∧ abnormalServer m !! s = None) →
       good_queue cc m' ch).
Proof.
  intros Hb.
  destruct (decide (Exists (fun s => abnormalServer m !! s = None) (eventServer m)))
    as [Hex|Hnex].
  - apply Exists_exists in Hex as (s & Hs & Hok).
    destruct (first_healthy m s Hs Hok) as (k & s' & Hk & Hs' & Hok' & Habn).
    destruct (getLBChan_healthy range_order m k s')
      as (h' & m' & Hget & Hh' & Hq & _ & _ & Hstep & Hwf); try done.
    { unfold lb_bounds in *. lia. }
    exists (Some (cacheChan h')), m'. split_and!; try done; try lia.
    intros cc a h Hwf0 Ha Hcc Haabn _.
    exists s', h'. destruct Hstep as (_&_&_&Hes&Hab&_&_&_&Hsub&_). rewrite Hes, Hab.
    split_and!; try done.
    + unfold server_after in Hs'. by eapply list_elem_of_lookup_2.
    + intros Heq. destruct (Hwf Hwf0) as [_ Hinj].
      assert (s' = a) as ->.
      { eapply Hinj; [done|by eapply lookup_weaken|congruence]. }
      destruct Haabn as [? Haabn]. congruence.
  - assert (Hall : ∀ i, i < length (eventServer m) →
        ∃ s, server_after m i = Some s ∧ is_Some (abnormalServer m !! s)).
    { intros i Hi. destruct (server_after_is_Some m i) as [s Hs].
      { intros Heq. rewrite Heq in Hi. cbn in Hi. lia. }
      exists s. split; [done|]. destruct (abnormalServer m !! s) eqn:Hab; [done|].
      exfalso. apply Hnex. apply Exists_exists. exists s. split; [|done].
      unfold server_after in Hs. by eapply list_elem_of_lookup_2. }
    rewrite (getLBChan_all_abnormal range_order m Hb Hall).
    eexists _, _. split; [done|]. split; [apply lb_step_set_qos|]. split; [done|].
    split; [cbn; lia|].
    intros cc a h _ _ _ _ (s & Hs & Hok). exfalso. apply Hnex.
    apply Exists_exists. by exists s.
Qed.

(** One turn of the second loop of DiscardedLoggerChan. *)
Lemma rebind_step (cc : chan) (a : string) (h : handle) (e : string) (p : ptr)
    (lg : logger) (m : manager) :
  chans_wf m → handles m !! a = Some h → cacheChan h = cc →
  is_Some (abnormalServer m !! a) →
  lb_bounds m (length (eventServer m)) →
  heap m !! p = Some lg →
  ∃ m',
    rebind range_order cc (e, p) m = Ok m' ∧ failover_step m m' ∧ chans_wf m' ∧
    (qos m ≤ qos m' ≤ qos m + Z.of_nat (length (eventServer m)))%Z ∧
    ((sendChan lg ≠ Some cc ∧ heap m' = heap m) ∨
     (sendChan lg = Some cc ∧
      ∃ ch', heap m' = <[p := mkLogger (event lg) ch' (createTime lg)]> (heap m) ∧
             ((∃ s, s ∈ eventServer m ∧ abnormalServer m !! s = None) →
              good_queue cc m' ch'))).
Proof.
  intros Hwf Ha Hcc Habn Hb Hp. unfold rebind, GetChan. cbn [snd]. rewrite Hp.
  cbn [mbind result_bind]. case_decide as Hch.
  - destruct (getLBChan_total m Hb) as (ch' & m1 & -> & Hstep & Hwf1 & Hq & Hgood).
    cbn [mbind result_bind]. unfold SetChan.
    assert (Hheap : heap m1 = heap m) by apply Hstep. rewrite Hheap, Hp.
    eexists. split; [done|]. split_and!.
    + apply lb_step_failover in Hstep. exact Hstep.
    + exact (Hwf1 Hwf).
    + cbn. lia.
    + cbn. lia.
    + right. split; [done|]. exists ch'. split; [done|].
      intros Hex. exact (Hgood cc a h Hwf Ha Hcc Habn Hex).
  - exists m. split; [done|]. split; [apply failover_step_refl|]. split; [done|].
    split; [lia|]. by left.
Qed.

(** The second loop of DiscardedLoggerChan over the entries [l]: every
    logger keeps its event id; if some server is not abnormal, a logger
    keeps its queue or gets the queue of such a server, and the loggers of
    [l] no longer refer to [cc]. *)
Lemma foldM_rebind_spec (cc : chan) (a : string) (h : handle) (l : list (string * ptr)) :
  ∀ m,
  chans_wf m → handles m !! a = Some h → cacheChan h = cc →
  is_Some (abnormalServer m !! a) →
  (0 ≤ qos m)%Z →
  (qos m + Z.of_nat (length l * length (eventServer m)) < 2 ^ 31)%Z →
  (Z.of_nat (length (eventServer m)) < 2 ^ 31)%Z →
  (∀ e p, (e, p) ∈ l → is_Some (heap m !! p)) →
  ∃ m',
    foldM (rebind range_order cc) l m = Ok m' ∧ failover_step m m' ∧ chans_wf m' ∧
    ∀ p lg, heap m !! p = Some lg →
      ∃ lg', heap m' !! p = Some lg' ∧ event lg' = event lg ∧
        ((∃ s, s ∈ eventServer m ∧ abnormalServer m !! s = None) →
         (sendChan lg' = sendChan lg ∨ good_queue cc m' (sendChan lg')) ∧
         ((∃ e, (e, p) ∈ l) → sendChan lg' ≠ Some cc)).
Proof.
  induction l as [|[e0 p0] l IH]; intros m Hwf Ha Hcc Habn Hq0 Hq1 Hlen Hptr.
  - exists m. split; [done|]. split; [apply failover_step_refl|]. split; [done|].
    intros p lg Hp. exists lg. split_and!; try done. intros _. split; [by left|].
    intros [e He]. by apply elem_of_nil in He.
  - destruct (Hptr e0 p0) as [lg0 Hp0]; [apply list_elem_of_here|].
    destruct (rebind_step cc a h e0 p0 lg0 m) as (m1 & Hre & Hstep1 & Hwf1 & Hq & Hcase);
      try done.
    { unfold lb_bounds. cbn [length] in Hq1. lia. }
    cbn [foldM]. rewrite Hre. cbn [mbind result_bind].
    pose proof Hstep1 as (_&_&_&Hes1&Hab1&_&_&Hsub1&_).
    assert (Hdom : ∀ p, is_Some (heap m !! p) → is_Some (heap m1 !! p)).
    { intros p Hp. destruct Hcase as [[_ ->]|(_ & ch' & -> & _)]; [done|].
      rewrite lookup_insert_is_Some. destruct (decide (p0 = p)); [by left|by right]. }
    destruct (IH m1) as (m' & Hfold & Hstep & Hwf' & Hlog); try done.
    { by eapply lookup_weaken. }
    { by rewrite Hab1. }
    { lia. }
    { rewrite Hes1. cbn [length] in Hq1. lia. }
    { by rewrite Hes1. }
    { intros e p Hin. apply Hdom. apply (Hptr e p). by apply list_elem_of_further. }
    exists m'. split; [done|]. split; [by eapply failover_step_trans|]. split; [done|].
    intros p lg Hp. rewrite Hes1, Hab1 in Hlog.
    destruct Hcase as [[Hne Hheap]|(Heq & ch' & Hheap & Hgood)].
    + rewrite Hheap in Hlog. destruct (Hlog p lg Hp) as (lg' & Hp' & Hev & Hrest).
      exists lg'. split_and!; try done. intros Hex.
      destruct (Hrest Hex) as [Hsame Hnot]. split; [done|].
      intros [e [[= -> ->]|Hin]%elem_of_cons]; [|by apply Hnot; exists e].
      assert (lg = lg0) as -> by congruence.
      destruct Hsame as [->|Hg]; [done|by eapply good_queue_ne].
    + destruct (decide (p = p0)) as [->|Hpne].
      * assert (lg = lg0) as -> by congruence.
        destruct (Hlog p0 (mkLogger (event lg0) ch' (createTime lg0))) as (lg' & Hp' & Hev & Hrest).
        { rewrite Hheap. apply lookup_insert_eq. }
        exists lg'. split_and!; try done. intros Hex.
        destruct (Hrest Hex) as [Hsame _].
        assert (Hg : good_queue cc m' (sendChan lg')).
        { destruct Hsame as [Hsame|Hg]; [|done]. rewrite Hsame. cbn.
          eapply good_queue_mono; [done|]. by apply Hgood. }
        split; [by right|]. intros _. by eapply good_queue_ne.
      * destruct (Hlog p lg) as (lg' & Hp' & Hev & Hrest).
        { rewrite Hheap. by rewrite lookup_insert_ne. }
        exists lg'. split_and!; try done. intros Hex.
        destruct (Hrest Hex) as [Hsame Hnot]. split; [done|].
        intros [e [[= -> ->]|Hin]%elem_of_cons]; [done|]. apply Hnot. by exists e.
Qed.

(** The first loop of DiscardedLoggerChan. *)
Lemma foldl_mark_abnormal_lookup (cc : chan) (l : list (string * handle)) (k : string) :
  ∀ m,
  let m' := foldl (mark_abnormal cc) m l in
  (abnormalServer m !! k = Some k → abnormalServer m' !! k = Some k) ∧
  (∀ v, (k, v) ∈ l → cacheChan v = cc → abnormalServer m' !! k = Some k) ∧
  ((∀ v, (k, v) ∈ l → cacheChan v ≠ cc) → abnormalServer m' !! k = abnormalServer m !! k).
Proof.
  induction l as [|[k0 v0] l IH]; intros m; cbn zeta.
  - split; [done|]. split; [|done]. intros v Hin. by apply elem_of_nil in Hin.
  - cbn [foldl]. destruct (IH (mark_abnormal cc m (k0, v0))) as (Hkeep & Hmark & Hsame).
    assert (Hstep : abnormalServer m !! k = Some k →
                    abnormalServer (mark_abnormal cc m (k0, v0)) !! k = Some k).
    { intros Hk. unfold mark_abnormal. cbn. case_decide; [|done]. cbn.
      destruct (decide (k0 = k)) as [->|]; [apply lookup_insert_eq|].
      by rewrite lookup_insert_ne. }
    split_and!.
    + intros Hk. by apply Hkeep, Hstep.
    + intros v [[= <- <-]|Hin]%elem_of_cons Hv; [|by eapply Hmark].
      apply Hkeep. unfold mark_abnormal. cbn. rewrite decide_True by done. cbn.
      apply lookup_insert_eq.
    + intros Hne. rewrite Hsame.
      * unfold mark_abnormal. cbn. case_decide as Hc; [|done]. cbn.
        rewrite lookup_insert_ne; [done|]. intros ->.
        by eapply (Hne v0); [apply list_elem_of_here|].
      * intros v Hin. apply Hne. by apply list_elem_of_further.
Qed.

(** DiscardedLoggerChan on the queue of the handle [h] registered for [a]:
    it returns, [a] is abnormal afterwards and no other server has become
    so, and every registered logger that referred to the queue of [h] refers
    to the queue of a server that is not abnormal, if there is one. *)
Lemma DiscardedLoggerChan_spec (a : string) (h : handle) (m : manager) :
  chans_wf m → loggers_alloc m → handles m !! a = Some h →
  lb_bounds m (size (loggers m) * length (eventServer m)) →
  ∃ m',
    DiscardedLoggerChan range_order (cacheChan h) m = Ok m' ∧
    ctx_done m' = ctx_done m ∧ loggers m' = loggers m ∧ eventServer m' = eventServer m ∧
    handles m ⊆ handles m' ∧ chans_wf m' ∧
    abnormalServer m' !! a = Some a ∧
    (∀ s, s ≠ a → abnormalServer m' !! s = abnormalServer m !! s) ∧
    ∀ e p lg, loggers m !! e = Some p → heap m !! p = Some lg →
      ∃ lg', heap m' !! p = Some lg' ∧ event lg' = event lg ∧
        ((∃ s, s ∈ eventServer m ∧ s ≠ a ∧ abnormalServer m !! s = None) →
         sendChan lg = Some (cacheChan h) →
         good_queue (cacheChan h) m' (sendChan lg')).
Proof.
  intros Hwf Hb Ha (Hq0 & Hq1 & Hlen). unfold DiscardedLoggerChan.
  pose proof (foldl_mark_abnormal_frame (cacheChan h)
                (range range_order (handles m)) m) as Hframe.
  set (m1 := foldl (mark_abnormal (cacheChan h)) m (range range_order (handles m))) in *.
  cbv zeta in Hframe.
  assert (Ha1 : abnormalServer m1 !! a = Some a).
  { destruct (foldl_mark_abnormal_lookup (cacheChan h) (range range_order (handles m)) a m)
      as (_ & Hmark & _). apply (Hmark h); [|done]. by apply (elem_of_range range_order range_perm). }
  assert (Hs1 : ∀ s, s ≠ a → abnormalServer m1 !! s = abnormalServer m !! s).
  { intros s Hne.
    destruct (foldl_mark_abnormal_lookup (cacheChan h) (range range_order (handles m)) s m)
      as (_ & _ & Hsame). apply Hsame. intros v Hin Heq. apply (elem_of_range range_order range_perm) in Hin.
    apply Hne. destruct Hwf as [_ Hinj]. by eapply Hinj. }
  assert (Hl1 : loggers m1 = loggers m) by by rewrite Hframe.
  assert (He1 : eventServer m1 = eventServer m) by by rewrite Hframe.
  assert (Hlenl : length (range range_order (loggers m1)) = size (loggers m)).
  { unfold range. rewrite range_perm, Hl1. apply length_map_to_list. }
  assert (Hwf1 : chans_wf m1) by by rewrite Hframe.
  assert (Hh1 : handles m1 !! a = Some h) by by rewrite Hframe.
  assert (Hq01 : (0 ≤ qos m1)%Z) by by rewrite Hframe.
  assert (Hq11 : (qos m1 + Z.of_nat (length (range range_order (loggers m1))
                                     * length (eventServer m1)) < 2 ^ 31)%Z).
  { rewrite Hlenl, He1. by rewrite Hframe. }
  assert (Hlen1 : (Z.of_nat (length (eventServer m1)) < 2 ^ 31)%Z) by by rewrite He1.
  assert (Hptr1 : ∀ e p, (e, p) ∈ range range_order (loggers m1) → is_Some (heap m1 !! p)).
  { intros e p Hin. apply (elem_of_range range_order range_perm) in Hin. rewrite Hl1 in Hin.
    destruct (Hb e p Hin) as [lg Hlg]. exists lg. by rewrite Hframe. }
  destruct (foldM_rebind_spec (cacheChan h) a h (range range_order (loggers m1)) m1
              Hwf1 Hh1 eq_refl (mk_is_Some _ _ Ha1) Hq01 Hq11 Hlen1 Hptr1)
    as (m' & Hfold & Hstep & Hwf' & Hlog).
  exists m'. split; [done|].
  destruct Hstep as (Hctx&_&Hl'&Hes'&Hab'&_&_&Hsub'&_).
  split_and!.
  - rewrite Hctx. by rewrite Hframe.
  - congruence.
  - congruence.
  - etrans; [|done]. by rewrite Hframe.
  - done.
  - by rewrite Hab'.
  - intros s Hne. rewrite Hab'. by apply Hs1.
  - intros e p lg He Hp.
    destruct (Hlog p lg) as (lg' & Hp' & Hev & Hrest); [by rewrite Hframe|].
    exists lg'. split_and!; try done. intros (s & Hs & Hne & Hok) Hcc.
    destruct Hrest as [Hsame Hnot].
    { exists s. rewrite He1. split; [done|]. by rewrite Hs1. }
    destruct Hsame as [Hsame|Hg]; [|done].
    exfalso. apply Hnot; [|congruence].
    exists e. apply (elem_of_range range_order range_perm). by rewrite Hl1.
Qed.

End FailoverFacts.

(** ** Well-formed managers

    The conditions the failover theorem asks of the manager, apart from the
    bound on the cursor, hold of every manager NewManager makes and are kept
    by every method. *)

Lemma RemoveHandle_eq (s : string) (m : manager) :
  RemoveHandle s m = set_handles (delete s (handles m)) m.
Proof.
  unfold RemoveHandle. destruct (handles m !! s) eqn:Hs; [done|].
  rewrite delete_id by done. by destruct m.
Qed.

Lemma manager_wf_shrink (m m' : manager) :
  handles m' ⊆ handles m → loggers m' ⊆ loggers m →
  dom (chans m) ⊆ dom (chans m') → dom (heap m) ⊆ dom (heap m') →
  manager_wf m → manager_wf m'.
Proof.
  intros Hh Hl Hc Hp ((Hdom & Hinj) & Halloc & Hkey). split; [split|split].
  - intros s h Hs. apply Hc. eapply Hdom. by eapply lookup_weaken.
  - intros s1 h1 Hs1 s2 h2 Hs2. eapply Hinj; by eapply lookup_weaken.
  - intros e l He. apply elem_of_dom, Hp, elem_of_dom. eapply Halloc. by eapply lookup_weaken.
  - intros s h Hs. eapply Hkey. by eapply lookup_weaken.
Qed.

(** A handle made for [s] and registered, whether or not [s] had one. *)
Lemma register_handle_wf (s : string) (m : manager) :
  manager_wf m →
  ∃ h m1,
    make_handle s m = (h, m1) ∧
    manager_wf (go_HandleLog h (set_handles (<[s := h]> (handles m1)) m1)).
Proof.
  intros (Hwf & Halloc & Hkey).
  destruct (make_handle_spec s m) as (h & m1 & Hmk & Hsrv & Hfr & Hin & Hh & _ & _ & Hstep).
  exists h, m1. split; [done|].
  destruct Hstep as (_&_&Hl&_&_&_&Hp&_&_&Hsub). split; [|split].
  - eapply (chans_wf_insert s h m); try done. cbn. by rewrite Hh.
  - intros e l He. cbn in *. rewrite Hp. apply (Halloc e l). by rewrite <- Hl.
  - intros s' h'. cbn. rewrite Hh.
    intros [[<- <-]|[_ Hs']]%lookup_insert_Some; [done|]. by eapply Hkey.
Qed.

Lemma Start_wf (m : manager) : manager_wf m → manager_wf (Start m).1.
Proof.
  intros Hwf. unfold Start. cbn.
  assert (Hfold : ∀ l m0, manager_wf m0 →
    manager_wf (foldl (fun m s => let '(h, m') := make_handle s m in
                                  go_HandleLog h (set_handles (<[s := h]> (handles m')) m')) m0 l)).
  { induction l as [|s l IH]; intros m0 Hm0; [done|]. cbn. apply IH.
    destruct (register_handle_wf s m0 Hm0) as (h & m1 & -> & Hwf1). done. }
  specialize (Hfold (eventServer m) m Hwf).
  by destruct (dis (foldl _ m (eventServer m))).
Qed.

Lemma NewManager_wf (got : option Discover * option error) (conf : EventConfig)
    (m : manager) (err : option error) :
  NewManager got conf = (Some m, err) → manager_wf m.
Proof.
  assert (Hinit : ∀ d, manager_wf (mkManager false conf 0 ∅ ∅ (EventLogServers conf) ∅ d ∅ ∅ [] false)).
  { intros d. split; [split|split]; intros k x; cbn; by rewrite lookup_empty. }
  unfold NewManager. destruct got as [d [e|]].
  - case_decide; [done|]. pose proof (Start_wf _ (Hinit d)) as Hwf.
    destruct (Start _). by intros [= <- _].
  - pose proof (Start_wf _ (Hinit d)) as Hwf. destruct (Start _). by intros [= <- _].
Qed.

Lemma RemoveHandle_wf (s : string) (m : manager) : manager_wf m → manager_wf (RemoveHandle s m).
Proof.
  rewrite RemoveHandle_eq. apply manager_wf_shrink; cbn; try done. apply delete_subseteq.
Qed.

Lemma ReleaseLogger_wf (l : ptr) (m m' : manager) :
  manager_wf m → ReleaseLogger l m = Ok m' → manager_wf m'.
Proof.
  intros Hwf. unfold ReleaseLogger. destruct (heap m !! l) as [lg|]; [|done].
  destruct (loggers m !! event lg); intros [= <-]; [|done].
  revert Hwf. apply manager_wf_shrink; cbn; try done. apply delete_subseteq.
Qed.

Lemma SendNoBlocking_wf (log : bytes) (ch : chan) (m : manager) :
  manager_wf m → manager_wf (SendNoBlocking log ch m).
Proof.
  unfold SendNoBlocking. destruct (chans m !! ch) as [c|] eqn:Hc; [|done].
  case_decide; [|done]. apply manager_wf_shrink; cbn; try done.
  rewrite dom_insert_L. set_solver.
Qed.

Section WfFacts.

Variable range_order : ∀ A : Type, list (string * A) → list (string * A).
Hypothesis range_perm : ∀ (A : Type) (l : list (string * A)), range_order A l ≡ₚ l.

Lemma getLBChan_loop_wf (n : nat) (m m' : manager) (ch : option chan) :
  manager_wf m → getLBChan_loop range_order n m = Ok (ch, m') → manager_wf m'.
Proof.
  revert m. induction n as [|n IH]; intros m Hwf; [by intros [= _ <-]|].
  rewrite getLBChan_loop_S. cbv zeta.
  case_decide; [done|]. case_decide; [done|].
  destruct (eventServer m !! _) as [s|]; [|done].
  destruct (abnormalServer m !! s); [by apply IH|].
  destruct (handles m !! s) as [h|]; [by intros [= _ <-]|].
  destruct (register_handle_wf s (set_qos (wrap32 (qos m + 1)) m) Hwf) as (h & m1 & -> & Hwf1).
  by intros [= _ <-].
Qed.

Lemma GetLogger_wf (now : Z) (e : string) (l : ptr) (m m' : manager) :
  manager_wf m → GetLogger range_order now e m = Ok (l, m') → manager_wf m'.
Proof.
  intros Hwf. unfold GetLogger.
  destruct (loggers m !! _) as [l0|]; [by intros [= _ <-]|].
  destruct (getLBChan range_order m) as [[ch m1]|] eqn:Hget; [|done].
  cbn [mbind result_bind]. intros [= _ <-].
  apply getLBChan_loop_wf in Hget as (Hc & Halloc & Hkey); [|done].
  split; [done|]. split; [|done]. intros e0 l0. cbn.
  intros [[_ <-]|[_ Hl0]]%lookup_insert_Some.
  - rewrite lookup_insert_eq. by eexists.
  - rewrite lookup_insert_is_Some. destruct (decide (fresh (dom (heap m1)) = l0)); [by left|].
    right. split; [done|]. by eapply Halloc.
Qed.

Lemma GC_sweep_wf (now : Z) (m m' : manager) :
  manager_wf m → GC_sweep range_order now m = Ok m' → manager_wf m'.
Proof.
  intros Hwf. unfold GC_sweep.
  destruct (foldM _ _ _) as [needRelease|]; [|done]. cbn [mbind result_bind].
  assert (Hdel : ∀ evs m0, manager_wf m0 →
    manager_wf (foldl (fun m ev => set_loggers (delete ev (loggers m)) m) m0 evs)).
  { induction evs as [|ev evs IH]; intros m0 Hm0; [done|]. cbn. apply IH.
    revert Hm0. apply manager_wf_shrink; cbn; try done. apply delete_subseteq. }
  case_decide; intros [= <-]; [by apply Hdel|done].
Qed.

Lemma UpdateEndpoints_wf (endpoints : list (option Endpoint)) (m m' : manager) :
  manager_wf m → UpdateEndpoints range_order endpoints m = Ok m' → manager_wf m'.
Proof.
  intros Hwf. unfold UpdateEndpoints. case_decide; [by intros [= <-]|].
  assert (Hadd : ∀ eps new m0 new' m1, manager_wf m0 →
    foldM add_endpoint eps (new, m0) = Ok (new', m1) → manager_wf m1).
  { induction eps as [|ep eps IH]; intros new m0 new' m1 Hm0; [by intros [= _ <-]|].
    cbn [foldM add_endpoint]. destruct ep as [ep|]; [|done].
    destruct (handles m0 !! URL ep).
    - cbn [mbind result_bind]. by apply IH.
    - destruct (register_handle_wf (URL ep) m0 Hm0) as (h & m2 & -> & Hwf2).
      cbn [mbind result_bind]. by apply IH. }
  destruct (foldM add_endpoint endpoints _) as [[new m1]|] eqn:Hfold; [|done].
  cbn [mbind result_bind]. intros [= <-].
  apply Hadd in Hfold; [|done].
  destruct (foldl_drop_old new (range range_order (handles m1)) m1) as [Hframe Hlk].
  rewrite Hframe. revert Hfold. apply manager_wf_shrink; cbn; try done.
  apply map_subseteq_spec. intros k h. rewrite Hlk. by case_decide.
Qed.

Lemma rebind_wf (cc : chan) (kl : string * ptr) (m m' : manager) :
  manager_wf m → rebind range_order cc kl m = Ok m' → manager_wf m'.
Proof.
  intros Hwf. unfold rebind, GetChan. destruct (heap m !! kl.2) as [lg|]; [|done].
  cbn [mbind result_bind]. case_decide; [|by intros [= <-]].
  destruct (getLBChan range_order m) as [[ch' m1]|] eqn:Hget; [|done].
  cbn [mbind result_bind]. apply getLBChan_loop_wf in Hget; [|done].
  unfold SetChan. destruct (heap m1 !! kl.2) as [lg1|] eqn:Hp; [|done]. intros [= <-].
  revert Hget. apply manager_wf_shrink; cbn; try done.
  rewrite dom_insert_L. set_solver.
Qed.

Lemma DiscardedLoggerChan_wf (cc : chan) (m m' : manager) :
  manager_wf m → DiscardedLoggerChan range_order cc m = Ok m' → manager_wf m'.
Proof.
  intros Hwf. unfold DiscardedLoggerChan.
  assert (Hfold : ∀ l m0 m1, manager_wf m0 →
    foldM (rebind range_order cc) l m0 = Ok m1 → manager_wf m1).
  { induction l as [|kl l IH]; intros m0 m1 Hm0; [by intros [= <-]|].
    cbn [foldM]. destruct (rebind range_order cc kl m0) as [m2|] eqn:Hre; [|done].
    cbn [mbind result_bind]. apply IH. by eapply rebind_wf. }
  apply Hfold. by rewrite foldl_mark_abnormal_frame.
Qed.

Lemma drain_wf (h : handle) (cases : list select_case) (tr tr' : list wire_op)
    (m m' : manager) (o : outcome) :
  manager_wf m → drain range_order h cases tr m = Ok (o, tr', m') → manager_wf m'.
Proof.
  revert tr m. induction cases as [|c cases IH]; intros tr m Hwf; [by intros [= _ _ <-]|].
  destruct c as [| |send_ok]; cbn [drain].
  - destruct (ctx_done m); [by intros [= _ _ <-]|by apply IH].
  - destruct (chans m !! stop h) as [c|]; [|by apply IH].
    destruct (closed c); [by intros [= _ _ <-]|by apply IH].
  - destruct (chans m !! cacheChan h) as [c|] eqn:Hc; [|by apply IH].
    destruct (buf c) as [|me q]; [by apply IH|].
    assert (Hwf1 : manager_wf
      (set_chans (<[cacheChan h := mkChannel q (cap c) (closed c)]> (chans m)) m)).
    { revert Hwf. apply manager_wf_shrink; cbn; try done. rewrite dom_insert_L. set_solver. }
    destruct send_ok; [by apply IH|].
    destruct (DiscardedLoggerChan _ _ _) as [m2|] eqn:Hdisc; [|done].
    cbn [mbind result_bind]. intros [= _ _ <-]. by eapply DiscardedLoggerChan_wf.
Qed.

Lemma HandleLog_wf (h : handle) (script : list attempt) (m m' : manager)
    (o : outcome) (tr : list wire_op) :
  manager_wf m → HandleLog range_order h script m = Ok (o, tr, m') → manager_wf m'.
Proof.
  intros Hwf. unfold HandleLog.
  assert (Hexec : ∀ scr tr0 m0 o1 tr1 m1, manager_wf m0 →
    Exec (HandleLog_body range_order h) scr tr0 m0 = Ok (o1, tr1, m1) → manager_wf m1).
  { induction scr as [|a scr IH]; intros tr0 m0 o1 tr1 m1 Hm0; [by intros [= _ _ <-]|].
    cbn [Exec].
    destruct (HandleLog_body range_order h a tr0 m0) as [[[o2 tr2] m2]|] eqn:Hbody; [|done].
    cbn [mbind result_bind].
    assert (Hwf2 : manager_wf m2).
    { destruct a as [| |cases]; cbn [HandleLog_body] in Hbody.
      - by injection Hbody as _ _ <-.
      - destruct (DiscardedLoggerChan _ _ _) as [m3|] eqn:Hdisc; [|done].
        cbn [mbind result_bind] in Hbody. injection Hbody as _ _ <-.
        by eapply DiscardedLoggerChan_wf.
      - by eapply drain_wf. }
    destruct o2 as [[e|]|]; try by intros [= _ _ <-].
    destruct (ctx_done m2); [by intros [= _ _ <-]|by apply IH]. }
  destruct (Exec _ script [] m) as [[[o1 tr1] m1]|] eqn:Hrun; [|done].
  cbn [mbind result_bind]. apply Hexec in Hrun; [|done].
  destruct o1; intros [= _ _ <-]; [by apply RemoveHandle_wf|done].
Qed.

End WfFacts.

(** ** What a failed send and a failed stream opening lead to *)

Section TaskFacts.

Variable range_order : ∀ A : Type, list (string * A) → list (string * A).
Hypothesis range_perm : ∀ (A : Type) (l : list (string * A)), range_order A l ≡ₚ l.

Lemma foldM_rebind_ctx_done (cc : chan) (l : list (string * ptr)) (m m' : manager) :
  foldM (rebind range_order cc) l m = Ok m' → ctx_done m' = ctx_done m.
Proof.
  revert m. induction l as [|kl l IH]; intros m; [by intros [= <-]|].
  cbn [foldM]. destruct (rebind range_order cc kl m) as [m1|] eqn:Hre; [|done].
  cbn [mbind result_bind]. intros Hrest. rewrite (IH _ Hrest).
  unfold rebind, GetChan in Hre. destruct (heap m !! kl.2); [|done].
  cbn [mbind result_bind] in Hre. case_decide; [|by injection Hre as <-].
  destruct (getLBChan range_order m) as [[ch' m2]|] eqn:Hget; [|done].
  cbn [mbind result_bind] in Hre.
  apply (getLBChan_frame range_order range_perm) in Hget as ((Hctx&_) & _).
  unfold SetChan in Hre. destruct (heap m2 !! kl.2); [|done]. by injection Hre as <-.
Qed.

Lemma DiscardedLoggerChan_ctx_done (cc : chan) (m m' : manager) :
  DiscardedLoggerChan range_order cc m = Ok m' → ctx_done m' = ctx_done m.
Proof.
  unfold DiscardedLoggerChan. intros Hfold%foldM_rebind_ctx_done.
  rewrite Hfold. by rewrite foldl_mark_abnormal_frame.
Qed.


(** C2 (as amended): in a well-formed manager whose cursor is within
    bounds, a record is queued for the handle [h] registered for [a], and
    the send of it fails.  Then the task returns after closing the stream;
    [a] is abnormal; the handle of [a] is out of the registry; and every
    registered logger that referred to the queue of [h] has been given, by a
    selection of the load balancer, the queue of a server that is not
    abnormal, a queue other than that of [h], provided the list of servers
    has a server other than [a] that is not abnormal. *)
Theorem send_failure_failover (a : string) (h : handle) (m : manager) (c : channel)
    (me : bytes) (q : list bytes) (more : list select_case) (rest : list attempt) :
  manager_wf m →
  handles m !! a = Some h →
  chans m !! cacheChan h = Some c → buf c = me :: q →
  lb_bounds m (size (loggers m) * length (eventServer m)) →
  ∃ m',
    HandleLog range_order h (Streams (Recv false :: more) :: rest) m
      = Ok (Returned None, [Dial a true; OpenLog true; Send me false; CloseSend], m') ∧
    abnormalServer m' !! a = Some a ∧
    handles m' !! a = None ∧
    ∀ e p lg,
      loggers m !! e = Some p → heap m !! p = Some lg →
      sendChan lg = Some (cacheChan h) →
      ∃ lg',
        loggers m' !! e = Some p ∧ heap m' !! p = Some lg' ∧ event lg' = event lg ∧
        ((∃ s, s ∈ eventServer m ∧ s ≠ a ∧ abnormalServer m !! s = None) →
         ∃ s h',
           s ∈ eventServer m' ∧ s ≠ a ∧ abnormalServer m' !! s = None ∧
           handles m' !! s = Some h' ∧ sendChan lg' = Some (cacheChan h') ∧
           cacheChan h' ≠ cacheChan h).
Proof.
  intros (Hwf & Hb & Hkey) Ha Hc Hbuf Hbounds.
  pose proof (Hkey a h Ha) as Hsrv. cbn in Hsrv.
  set (m1 := set_chans (<[cacheChan h := mkChannel q (cap c) (closed c)]> (chans m)) m).
  assert (Hwf1 : chans_wf m1).
  { destruct Hwf as [Hdom Hinj]. split; [|done]. intros s h0 Hs. cbn.
    rewrite dom_insert_lookup_L by done. by eapply Hdom. }
  destruct (DiscardedLoggerChan_spec range_order range_perm a h m1 Hwf1 Hb Ha Hbounds)
    as (m2 & Hdisc & Hctx & Hl & Hes & Hsub & Hwf2 & Hab & Hother & Hlog).
  exists (RemoveHandle (server h) m2). split.
  { unfold HandleLog. cbn [Exec HandleLog_body drain]. rewrite Hc, Hbuf. fold m1.
    rewrite Hdisc. cbn [mbind result_bind]. by rewrite Hsrv. }
  rewrite Hsrv, RemoveHandle_eq. cbn. split; [done|]. split; [apply lookup_delete_eq|].
  intros e p lg He Hp Hcc.
  destruct (Hlog e p lg He Hp) as (lg' & Hp' & Hev & Hgood).
  exists lg'. split_and!; try done; [by rewrite Hl|].
  intros Hex. destruct (Hgood Hex Hcc) as (s & h' & Hs & Hok & Hh' & Hch & Hne).
  assert (Hsa : s ≠ a) by (intros ->; congruence).
  exists s, h'. split_and!; try done. by rewrite lookup_delete_ne.
Qed.

End TaskFacts.



(** C2 on [queued ["a"; "b"]]: the send of the handle of a fails, and the
    logger for "e", which referred to the queue 0 of a, refers to the queue
    2 of b. *)
Lemma send_failure_failover_witness :
  ∃ m' lg' hb,
    HandleLog range_id (mkHandle "a" 1 0) [Streams [Recv false]] (queued ["a"; "b"])
      = Ok (Returned None,
            [Dial "a" true; OpenLog true; Send [Byte.x7b; Byte.x7d] false; CloseSend], m') ∧
    abnormalServer m' !! "a" = Some "a" ∧
    handles m' !! "a" = None ∧
    heap m' !! 0 = Some lg' ∧
    handles m' !! "b" = Some hb ∧
    sendChan lg' = Some (cacheChan hb) ∧ cacheChan hb ≠ 0.
Proof.
  destruct (send_failure_failover range_id range_id_perm "a" (mkHandle "a" 1 0)
              (queued ["a"; "b"]) (mkChannel [[Byte.x7b; Byte.x7d]] 100 false)
              [Byte.x7b; Byte.x7d] [] [] [])
    as (m' & Hrun & Hab & Hh & Hlog).
  - apply (bool_decide_unpack _). vm_compute. exact I.
  - vm_compute. reflexivity.
  - vm_compute. reflexivity.
  - reflexivity.
  - unfold lb_bounds. vm_compute. repeat split; discriminate.
  - destruct (Hlog "e" 0 (mkLogger "e" (Some 0) 0)) as (lg' & _ & Hp & _ & Hgood);
      [vm_compute; reflexivity..|].
    destruct Hgood as (s & hb & Hs & Hne & Hok & Hhb & Hch & Hcc).
    { exists "b". split; [|split; [discriminate|vm_compute; reflexivity]].
      apply list_elem_of_further, list_elem_of_here. }
    assert (Hes : eventServer m' = ["a"; "b"]).
    { apply (f_equal (fun r => match r with Ok (_, _, m) => eventServer m | _ => [] end)) in Hrun.
      vm_compute in Hrun. symmetry. exact Hrun. }
    rewrite Hes in Hs. apply elem_of_cons in Hs as [->|Hs]; [done|].
    apply elem_of_cons in Hs as [->|Hs]; [|by apply elem_of_nil in Hs].
    exists m', lg', hb. split_and!; assumption.
Defined.

(** C2 as stated fails: a is the only server.  After the failed send the
    logger for "e" refers to the queue 0 as before, the queue of the handle
    of a, which is abnormal and out of the registry. *)
Lemma send_failure_single_server :
  (r ← HandleLog range_id (mkHandle "a" 1 0) [Streams [Recv false]] (queued ["a"]);
   ch0 ← GetChan 0 (queued ["a"]);
   ch ← GetChan 0 r.2;
   Ok (handles (queued ["a"]) !! "a", loggers (queued ["a"]) !! "e", ch0,
       r.1.1, map_to_list (abnormalServer r.2), loggers r.2 !! "e", ch,
       map_to_list (handles r.2)))
  = Ok (Some (mkHandle "a" 1 0), Some 0, Some 0,
        Returned None, [("a", "a")], Some 0, Some 0, []).
Proof. vm_compute. reflexivity. Qed.

(** * Further properties of the code *)

(** ** Acquiring and releasing loggers *)

Lemma GetLogger_unfold (range_order : ∀ A : Type, list (string * A) → list (string * A))
    (now : Z) (e : string) (m : manager) :
  GetLogger range_order now e m =
    match loggers m !! event_id_of e with
    | Some l => Ok (l, m)
    | None =>
        r ← getLBChan range_order m;
        let l := fresh (dom (heap r.2)) in
        Ok (l, set_loggers (<[event_id_of e := l]> (loggers r.2))
                 (set_heap (<[l := mkLogger (event_id_of e) r.1 now]> (heap r.2)) r.2))
    end.
Proof.
  unfold GetLogger, event_id_of. destruct (loggers m !! _); [done|].
  by destruct (getLBChan range_order m) as [[ch m1]|].
Qed.

Section LoggerRegistryFacts.

Variable range_order : ∀ A : Type, list (string * A) → list (string * A).

Lemma getLBChan_loop_frame_heap (n : nat) (m m' : manager) (ch : option chan) :
  getLBChan_loop range_order n m = Ok (ch, m') →
  heap m' = heap m ∧ loggers m' = loggers m.
Proof.
  revert m. induction n as [|n IH]; intros m; [by intros [= _ <-]|].
  rewrite getLBChan_loop_S. cbv zeta.
  case_decide; [done|]. case_decide; [done|].
  destruct (eventServer m !! _) as [s|]; [|done].
  destruct (abnormalServer m !! s); [by intros Hrec%IH|].
  destruct (handles m !! s) as [h|]; [by intros [= _ <-]|].
  destruct (make_handle_spec s (set_qos (wrap32 (qos m + 1)) m))
    as (h & m1 & -> & _ & _ & _ & _ & _ & _ & Hstep).
  intros [= _ <-]. destruct Hstep as (_&_&Hl&_&_&_&Hh&_). done.
Qed.

(** X1: the logger GetLogger returns is on record for the event id, and
    every later GetLogger for an id that stands for the same event id (the
    empty id, the blank and "system" are one) returns that very logger and
    leaves the manager as it is, whatever the time. *)
Theorem GetLogger_same_instance (now : Z) (e : string) (l : ptr) (m m' : manager) :
  GetLogger range_order now e m = Ok (l, m') →
  loggers m' !! event_id_of e = Some l ∧
  ∀ now' e', event_id_of e' = event_id_of e →
             GetLogger range_order now' e' m' = Ok (l, m').
Proof.
  rewrite GetLogger_unfold. intros Hget.
  assert (Hrec : loggers m' !! event_id_of e = Some l).
  { destruct (loggers m !! event_id_of e) as [l0|] eqn:Hl0.
    - by injection Hget as <- <-.
    - destruct (getLBChan range_order m) as [[ch m1]|]; [|done].
      cbn in Hget. injection Hget as <- <-. cbn. apply lookup_insert_eq. }
  split; [done|]. intros now' e' He'. by rewrite GetLogger_unfold, He', Hrec.
Qed.

(** X2: a logger released and acquired again, its event id being one
    GetLogger works with as it is (not the empty and not the blank id): the
    second GetLogger makes a new logger object, at an address no logger
    had, with the time of the call as its creation time, and puts it on
    record; the released logger object stays as it was, its queue
    included. *)
Theorem GetLogger_after_release (now : Z) (l l2 : ptr) (lg : logger) (m m1 m2 : manager) :
  heap m !! l = Some lg →
  event_id_of (event lg) = event lg →
  ReleaseLogger l m = Ok m1 →
  GetLogger range_order now (event lg) m1 = Ok (l2, m2) →
  l2 ≠ l ∧ heap m !! l2 = None ∧
  loggers m2 !! event lg = Some l2 ∧
  Event l2 m2 = Ok (event lg) ∧ CreateTime l2 m2 = Ok now ∧
  heap m2 !! l = Some lg.
Proof.
  intros Hl Hid Hrel. rewrite GetLogger_unfold, Hid.
  assert (loggers m1 !! event lg = None ∧ heap m1 = heap m) as [Hnone Hm1].
  { unfold ReleaseLogger in Hrel. rewrite Hl in Hrel.
    destruct (loggers m !! event lg) eqn:Hreg; injection Hrel as <-; [|done].
    split; [apply lookup_delete_eq|done]. }
  rewrite Hnone.
  destruct (getLBChan range_order m1) as [[ch m3]|] eqn:Hget; [|done].
  cbn. intros [= <- <-].
  assert (Hheap : heap m3 = heap m).
  { apply getLBChan_loop_frame_heap in Hget as [-> _]. by rewrite Hm1. }
  assert (Hfresh : heap m !! fresh (dom (heap m3)) = None).
  { rewrite Hheap. apply not_elem_of_dom, is_fresh. }
  unfold Event, CreateTime. cbn. rewrite !lookup_insert_eq. split_and!; try done.
  - intros Heq. rewrite Heq in Hfresh. congruence.
  - rewrite lookup_insert_ne; [by rewrite Hheap|]. intros Heq. rewrite Heq in Hfresh. congruence.
Qed.

End LoggerRegistryFacts.

Ltac run_first :=
  match goal with
  | |- ?P ∧ _ => let H := fresh "Hrun" in assert (H : P) by (vm_compute; reflexivity)
  end.

(** X1 on the manager started for the server a: the logger asked for with
    the empty id is on record as "system", and asking with the blank id
    later returns it. *)
Lemma GetLogger_same_instance_witness :
  ∃ l m',
    GetLogger range_id 5 "" (started ["a"]) = Ok (l, m') ∧
    loggers m' !! "system" = Some l ∧
    GetLogger range_id 9 " " m' = Ok (l, m').
Proof.
  exists_result (GetLogger range_id 5 "" (started ["a"])).
  run_first. split; [exact Hrun|].
  destruct (GetLogger_same_instance range_id _ _ _ _ _ Hrun) as [Hrec Hagain].
  split; [exact Hrec|]. apply Hagain. reflexivity.
Defined.

(** X2 on the manager with the logger 0 for the event "e": released and
    acquired again at time 7, the event has the new logger 1. *)
Lemma GetLogger_after_release_witness :
  ∃ lg m1 l2 m2,
    heap (queued ["a"]) !! 0 = Some lg ∧
    ReleaseLogger 0 (queued ["a"]) = Ok m1 ∧
    GetLogger range_id 7 (event lg) m1 = Ok (l2, m2) ∧
    l2 ≠ 0 ∧ loggers m2 !! event lg = Some l2 ∧
    CreateTime l2 m2 = Ok 7%Z ∧ heap m2 !! 0 = Some lg.
Proof.
  exists (mkLogger "e" (Some 0) 0).
  exists_result (ReleaseLogger 0 (queued ["a"])).
  exists_result (r ← ReleaseLogger 0 (queued ["a"]); GetLogger range_id 7 "e" r).
  run_first. split; [exact Hrun|]. run_first. split; [exact Hrun0|].
  run_first. split; [exact Hrun1|].
  destruct (GetLogger_after_release range_id _ _ _ _ _ _ _ Hrun eq_refl Hrun0 Hrun1)
    as (Hne & _ & Hrec & _ & Htime & Hold).
  done.
Defined.

(** ** The collector *)

Lemma foldM_GC_collect (now : Z) (m : manager) (l : list (string * ptr)) :
  (∀ e p, (e, p) ∈ l → is_Some (heap m !! p)) →
  ∀ acc, ∃ old,
    foldM (GC_collect now m) l acc = Ok (acc ++ old) ∧
    ∀ e, e ∈ old ↔
         ∃ p lg, (e, p) ∈ l ∧ heap m !! p = Some lg ∧ (createTime lg + Minute < now)%Z.
Proof.
  induction l as [|[e p] l IH]; intros Hall acc.
  - exists []. split; [by rewrite app_nil_r|].
    intros e. split; [by intros ?%elem_of_nil|]. by intros (p & lg & ?%elem_of_nil & _).
  - destruct (Hall e p) as [lg Hlg]; [apply list_elem_of_here|].
    assert (Hstep : foldM (GC_collect now m) ((e, p) :: l) acc =
      foldM (GC_collect now m) l
        (if decide (createTime lg + Minute < now)%Z then acc ++ [e] else acc)).
    { cbn [foldM].
      assert (GC_collect now m (e, p) acc =
        Ok (if decide (createTime lg + Minute < now)%Z then acc ++ [e] else acc)) as ->; [|done].
      unfold GC_collect. cbn [fst snd]. by rewrite Hlg. }
    rewrite Hstep. clear Hstep.
    destruct (IH (fun e' p' Hin => Hall e' p' (list_elem_of_further _ _ _ Hin))
                 (if decide (createTime lg + Minute < now)%Z then acc ++ [e] else acc))
      as (old & -> & Hold).
    case_decide as Hage.
    + exists (e :: old). split; [by rewrite <- app_assoc|].
      intros e'. rewrite elem_of_cons, Hold. split.
      * intros [->|(p' & lg' & Hin & Hrest)].
        -- exists p, lg. split; [apply list_elem_of_here|done].
        -- exists p', lg'. split; [by apply list_elem_of_further|done].
      * intros (p' & lg' & [[= -> ->]|Hin]%elem_of_cons & Hrest); [by left|].
        right. by exists p', lg'.
    + exists old. split; [done|].
      intros e'. rewrite Hold. split.
      * intros (p' & lg' & Hin & Hrest). exists p', lg'. split; [by apply list_elem_of_further|done].
      * intros (p' & lg' & [[= -> ->]|Hin]%elem_of_cons & Hlg' & Hage').
        -- rewrite Hlg in Hlg'. injection Hlg' as <-. done.
        -- by exists p', lg'.
Qed.

Lemma foldl_delete_loggers (old : list string) (m : manager) :
  let m' := foldl (fun m ev => set_loggers (delete ev (loggers m)) m) m old in
  m' = set_loggers (loggers m') m ∧
  ∀ e, loggers m' !! e = if decide (e ∈ old) then None else loggers m !! e.
Proof.
  revert m. induction old as [|ev old IH]; intros m; cbn [foldl].
  - split; [by destruct m|]. intros e. by rewrite decide_False by apply not_elem_of_nil.
  - destruct (IH (set_loggers (delete ev (loggers m)) m)) as [Hfr Hlk].
    split; [by rewrite Hfr at 1|].
    intros e. rewrite Hlk. cbn. destruct (decide (e = ev)) as [->|Hne].
    + rewrite (decide_True (P := ev ∈ ev :: old)) by apply list_elem_of_here.
      case_decide; [done|apply lookup_delete_eq].
    + rewrite lookup_delete_ne by done.
      case_decide as Hin.
      * by rewrite decide_True by by apply list_elem_of_further.
      * rewrite decide_False; [done|]. by intros [?|?]%elem_of_cons.
Qed.

Section CollectorFacts.

Variable range_order : ∀ A : Type, list (string * A) → list (string * A).
Hypothesis range_perm : ∀ (A : Type) (l : list (string * A)), range_order A l ≡ₚ l.

Lemma GC_sweep_lookup (now : Z) (m : manager) :
  loggers_alloc m →
  ∃ m',
    GC_sweep range_order now m = Ok m' ∧
    m' = set_loggers (loggers m') m ∧
    ∀ e l, loggers m' !! e = Some l ↔
           loggers m !! e = Some l ∧
           ∃ lg, heap m !! l = Some lg ∧ (now ≤ createTime lg + Minute)%Z.
Proof.
  intros Halloc. unfold GC_sweep.
  destruct (foldM_GC_collect now m (range range_order (loggers m))) with (acc := @nil string)
    as (old & -> & Hold).
  { intros e p Hin%(elem_of_range range_order range_perm). by apply (Halloc e p). }
  cbn [mbind result_bind app].
  pose proof (foldl_delete_loggers old m) as [Hfr Hlk]. cbv zeta in Hfr, Hlk.
  assert (Hchar : ∀ e l,
    (if decide (e ∈ old) then None else loggers m !! e) = Some l ↔
    loggers m !! e = Some l ∧ ∃ lg, heap m !! l = Some lg ∧ (now ≤ createTime lg + Minute)%Z).
  { intros e l. case_decide as Hin.
    - split; [done|]. intros (Hreg & lg & Hlg & Hage).
      apply Hold in Hin as (p & lg' & Hin%(elem_of_range range_order range_perm) & Hlg' & Hage').
      rewrite Hreg in Hin. injection Hin as <-. rewrite Hlg in Hlg'. injection Hlg' as <-. lia.
    - split; [|by intros [? _]]. intros Hreg. split; [done|].
      destruct (Halloc e l Hreg) as [lg Hlg]. exists lg. split; [done|].
      destruct (decide (createTime lg + Minute < now)%Z) as [Hage|Hage]; [|lia].
      exfalso. apply Hin, Hold. exists l, lg.
      by rewrite (elem_of_range range_order range_perm). }
  case_decide as Hlen.
  - eexists. split; [done|]. split; [done|]. intros e l. by rewrite Hlk.
  - exists m. split; [done|]. split; [by destruct m|].
    destruct old; [|cbn in Hlen; lia]. intros e l. rewrite <- Hchar.
    by rewrite decide_False by apply not_elem_of_nil.
Qed.

(** X3: one run of the collector on a manager whose registered loggers
    all exist does not fail and changes the record of loggers alone; a
    logger stays on record exactly when the time of the run is not after
    its creation time plus one minute (a logger one minute old to the
    nanosecond stays), and the logger objects themselves are kept. *)
Theorem GC_sweep_removes_old (now : Z) (m : manager) :
  loggers_alloc m →
  ∃ m',
    GC_sweep range_order now m = Ok m' ∧
    m' = set_loggers (loggers m') m ∧
    ∀ e l, loggers m' !! e = Some l ↔
           loggers m !! e = Some l ∧
           ∃ lg, heap m !! l = Some lg ∧ (now ≤ createTime lg + Minute)%Z.
Proof. apply GC_sweep_lookup. Qed.

End CollectorFacts.

(** X3 on the manager with the logger for "e" created at time 0: a run at
    one minute keeps it, a run a nanosecond later removes it. *)
Lemma GC_sweep_removes_old_witness :
  ∃ m1 m2,
    GC_sweep range_id Minute (queued ["a"]) = Ok m1 ∧
    GC_sweep range_id (Minute + 1) (queued ["a"]) = Ok m2 ∧
    loggers_alloc (queued ["a"]) ∧
    loggers m1 !! "e" = Some 0 ∧ loggers m2 !! "e" = None ∧ heap m2 = heap (queued ["a"]).
Proof.
  assert (Halloc : loggers_alloc (queued ["a"])).
  { apply (bool_decide_unpack _). vm_compute. exact I. }
  destruct (GC_sweep_removes_old range_id range_id_perm Minute _ Halloc) as (m1 & H1 & _ & Hk1).
  destruct (GC_sweep_removes_old range_id range_id_perm (Minute + 1) _ Halloc)
    as (m2 & H2 & Hfr & Hk2).
  exists m1, m2. split; [exact H1|]. split; [exact H2|]. split; [exact Halloc|].
  split; [|split].
  - apply Hk1. split; [vm_compute; reflexivity|].
    exists (mkLogger "e" (Some 0) 0). split; [vm_compute; reflexivity|]. vm_compute. discriminate.
  - destruct (loggers m2 !! "e") as [l|] eqn:Hl; [|reflexivity].
    apply Hk2 in Hl as (Hreg & lg & Hlg & Hage).
    vm_compute in Hreg. injection Hreg as <-. vm_compute in Hlg. injection Hlg as <-.
    vm_compute in Hage. exfalso. apply Hage. reflexivity.
  - rewrite Hfr. reflexivity.
Defined.

(** ** The load balancer: nil results and handles made on demand *)

Lemma make_handle_chans (s : string) (m : manager) :
  ∃ cc st,
    make_handle s m =
      (mkHandle s st cc,
       set_chans (<[st := mkChannel [] 0 false]> (<[cc := mkChannel [] 100 false]> (chans m))) m) ∧
    chans m !! cc = None ∧ chans m !! st = None ∧ cc ≠ st.
Proof.
  unfold make_handle, make_chan. cbn.
  pose proof (is_fresh (dom (chans m))) as Hfresh.
  set (c := fresh (dom (chans m))) in *.
  set (cs := <[c := mkChannel [] 100 false]> (chans m)).
  pose proof (is_fresh (dom cs)) as Hfresh2.
  set (c2 := fresh (dom cs)) in *.
  assert ((c2 ∉ dom (chans m)) ∧ c ≠ c2) as [Hc2 Hne].
  { subst cs. rewrite dom_insert_L in Hfresh2. set_solver. }
  exists c, c2. split; [done|]. split_and!; [by apply not_elem_of_dom|by apply not_elem_of_dom|done].
Qed.

Section BalancerFacts.

Variable range_order : ∀ A : Type, list (string * A) → list (string * A).
Hypothesis range_perm : ∀ (A : Type) (l : list (string * A)), range_order A l ≡ₚ l.

Lemma any_handle_None (m : manager) : any_handle range_order m = None ↔ handles m = ∅.
Proof.
  split.
  - intros Hnone. apply map_empty. intros s.
    destruct (handles m !! s) as [h|] eqn:Hs; [|done].
    destruct (any_handle_Some range_order range_perm m s h Hs) as [c Hc]. congruence.
  - intros Hemp. pose proof (any_handle_registered range_order range_perm m) as [Hn|(s & h & Hs & _)].
    + done.
    + rewrite Hemp in Hs. done.
Qed.

(** X4: with the cursor and the server list within the bounds of an
    int32, a selection returns, and it returns nil exactly when no handle
    is registered and every listed server is abnormal (an empty list of
    servers included). *)
Theorem getLBChan_nil_iff (m : manager) :
  lb_bounds m (length (eventServer m)) →
  ∃ ch m',
    getLBChan range_order m = Ok (ch, m') ∧
    (ch = None ↔
     handles m = ∅ ∧ ∀ s, s ∈ eventServer m → is_Some (abnormalServer m !! s)).
Proof.
  intros Hb.
  destruct (decide (Exists (fun s => abnormalServer m !! s = None) (eventServer m)))
    as [Hex|Hnex].
  - apply Exists_exists in Hex as (s & Hs & Hok).
    destruct (first_healthy m s Hs Hok) as (k & s' & Hk & Hs' & Hok' & Habn).
    destruct (getLBChan_healthy range_order m k s')
      as (h' & m' & Hget & _); try done.
    { unfold lb_bounds in *. lia. }
    exists (Some (cacheChan h')), m'. split; [done|]. split; [done|].
    intros [_ Hall]. destruct (Hall s Hs) as [? Hab]. congruence.
  - assert (Hall : ∀ s, s ∈ eventServer m → is_Some (abnormalServer m !! s)).
    { intros s Hs. destruct (abnormalServer m !! s) eqn:Hab; [done|].
      exfalso. apply Hnex, Exists_exists. by exists s. }
    rewrite (getLBChan_all_abnormal range_order m Hb).
    + eexists _, _. split; [done|]. rewrite any_handle_None. by split; [|intros [? _]].
    + intros i Hi. destruct (server_after_is_Some m i) as [s Hs].
      { intros Heq. rewrite Heq in Hi. cbn in Hi. lia. }
      exists s. split; [done|]. apply Hall.
      unfold server_after in Hs. by eapply list_elem_of_lookup_2.
Qed.

Lemma getLBChan_loop_creates (n : nat) (m m' : manager) (ch : option chan) :
  getLBChan_loop range_order n m = Ok (ch, m') →
  (handles m' = handles m ∧ tasks m' = tasks m ∧ chans m' = chans m ∧
   registered_queue m ch) ∨
  (∃ s h,
     s ∈ eventServer m ∧ abnormalServer m !! s = None ∧ handles m !! s = None ∧
     ch = Some (cacheChan h) ∧ server h = s ∧
     handles m' = <[s := h]> (handles m) ∧ tasks m' = tasks m ++ [h] ∧
     chans m !! cacheChan h = None ∧ chans m !! stop h = None ∧ cacheChan h ≠ stop h ∧
     chans m' = <[stop h := mkChannel [] 0 false]>
                  (<[cacheChan h := mkChannel [] 100 false]> (chans m))).
Proof.
  revert m. induction n as [|n IH]; intros m.
  - intros [= <- <-]. left. split_and!; try done. apply any_handle_registered, range_perm.
  - rewrite getLBChan_loop_S. cbv zeta.
    case_decide; [done|]. case_decide; [done|].
    destruct (eventServer m !! _) as [s|] eqn:Hs; [|done].
    destruct (abnormalServer m !! s) eqn:Hab; [by intros Hrec%IH|].
    destruct (handles m !! s) as [h|] eqn:Hh.
    { intros [= <- <-]. left. split_and!; try done. right. by exists s, h. }
    destruct (make_handle_chans s (set_qos (wrap32 (qos m + 1)) m))
      as (cc & st & -> & Hcc & Hst & Hne).
    intros [= <- <-]. right. exists s, (mkHandle s st cc).
    split_and!; try done. by eapply list_elem_of_lookup_2.
Qed.

Lemma getLBChan_creates_tasks (m m' : manager) (ch : option chan) :
  getLBChan range_order m = Ok (ch, m') → tasks m `prefix_of` tasks m'.
Proof.
  intros [(_ & -> & _)|(s & h & Hrest)]%getLBChan_loop_creates; [done|].
  destruct Hrest as (_&_&_&_&_&_&->&_). by apply prefix_app_r.
Qed.

(** X5: a selection leaves the registry of handles, the tasks and the
    channels as they are and returns nil or the queue of a registered
    handle, or it makes one handle: for a listed server that is not
    abnormal and had no handle, with a new empty queue of capacity 100 and
    a new open stop channel, registered under the server, with one new
    task, and its queue is what the selection returns. *)
Theorem getLBChan_creates_lazily (m m' : manager) (ch : option chan) :
  getLBChan range_order m = Ok (ch, m') →
  (handles m' = handles m ∧ tasks m' = tasks m ∧ chans m' = chans m ∧
   registered_queue m ch) ∨
  (∃ s h,
     s ∈ eventServer m ∧ abnormalServer m !! s = None ∧ handles m !! s = None ∧
     ch = Some (cacheChan h) ∧ server h = s ∧
     handles m' = <[s := h]> (handles m) ∧ tasks m' = tasks m ++ [h] ∧
     chans m !! cacheChan h = None ∧ chans m !! stop h = None ∧ cacheChan h ≠ stop h ∧
     chans m' = <[stop h := mkChannel [] 0 false]>
                  (<[cacheChan h := mkChannel [] 100 false]> (chans m))).
Proof. apply getLBChan_loop_creates. Qed.

End BalancerFacts.

(** X4 on the manager started without servers, which has no handle: the
    selection returns nil. *)
Lemma getLBChan_nil_iff_witness :
  ∃ ch m',
    lb_bounds (started []) 0 ∧
    getLBChan range_id (started []) = Ok (ch, m') ∧ ch = None.
Proof.
  assert (Hb : lb_bounds (started []) (length (eventServer (started [])))).
  { vm_compute. split_and!; [discriminate|reflexivity|reflexivity]. }
  destruct (getLBChan_nil_iff range_id range_id_perm _ Hb) as (ch & m' & Hget & Hnil).
  exists ch, m'. split; [exact Hb|]. split; [exact Hget|].
  apply Hnil. split; [reflexivity|]. intros s Hs. vm_compute in Hs. by apply elem_of_nil in Hs.
Defined.

(** X5 on the manager started for a whose handle was removed: the
    selection makes the handle of a again, with the new queue 2. *)
Lemma getLBChan_creates_lazily_witness :
  ∃ ch m',
    getLBChan range_id (RemoveHandle "a" (started ["a"])) = Ok (ch, m') ∧
    ch = Some 2 ∧ handles m' !! "a" = Some (mkHandle "a" 3 2) ∧
    length (tasks m') = 2.
Proof.
  exists_result (getLBChan range_id (RemoveHandle "a" (started ["a"]))).
  run_first. split; [exact Hrun|].
  destruct (getLBChan_creates_lazily range_id range_id_perm _ _ _ Hrun)
    as [(Hh & _)|(s & h & _ & _ & _ & Hch & _ & Hh & Ht & _)].
  - vm_compute in Hh. discriminate.
  - split; [reflexivity|]. split; [reflexivity|]. reflexivity.
Defined.

(** ** UpdateEndpoints: nil endpoints, repeated addresses, repeated calls *)

(** The map [new] of UpdateEndpoints after its first loop. *)
Lemma foldM_add_endpoint_new (es : list Endpoint) :
  ∀ new m new' m',
    foldM add_endpoint (Some <$> es) (new, m) = Ok (new', m') →
    new' = foldl (fun acc e => <[URL e := URL e]> acc) new es.
Proof.
  induction es as [|e es IH]; intros new m new' m'; [by intros [= <- <-]|].
  cbn [fmap list_fmap foldM add_endpoint mbind result_bind foldl].
  destruct (handles m !! URL e).
  - cbn [mbind result_bind]. apply IH.
  - destruct (make_handle (URL e) m) as [h m1]. cbn [mbind result_bind]. apply IH.
Qed.

Lemma dom_foldl_insert_URL (es : list Endpoint) (new : gmap string string) :
  dom (foldl (fun acc e => <[URL e := URL e]> acc) new es) = dom new ∪ list_to_set (URL <$> es).
Proof.
  revert new. induction es as [|e es IH]; intros new; cbn [foldl].
  - set_solver.
  - rewrite IH, dom_insert_L. set_solver.
Qed.

(** The first loop, whatever the addresses: one new handle for every
    address that has none, however often it is listed. *)
Lemma foldM_add_endpoint_any (es : list Endpoint) :
  ∀ new m,
  ∃ new' m' created,
    foldM add_endpoint (Some <$> es) (new, m) = Ok (new', m') ∧
    dom (handles m') = dom (handles m) ∪ list_to_set (URL <$> es) ∧
    tasks m' = tasks m ++ created ∧
    NoDup (server <$> created) ∧
    (∀ s, s ∈ server <$> created ↔ s ∈ URL <$> es ∧ handles m !! s = None) ∧
    Forall (fun h => handles m' !! server h = Some h) created ∧
    qos m' = qos m ∧ lb_step m m'.
Proof.
  induction es as [|e es IH]; intros new m.
  - exists new, m, []. cbn. rewrite app_nil_r.
    split_and!; try done; [set_solver|apply NoDup_nil_2|].
    intros s. split; [by intros ?%elem_of_nil|by intros [?%elem_of_nil _]].
  - cbn [fmap list_fmap foldM add_endpoint mbind result_bind].
    destruct (handles m !! URL e) as [h0|] eqn:Hh.
    + cbn [mbind result_bind].
      destruct (IH (<[URL e := URL e]> new) m)
        as (new' & m' & created & -> & Hdom & Ht & Hnd & Hsrv & Hall & Hq & Hstep).
      exists new', m', created. split; [done|].
      split_and!; try done.
      * rewrite Hdom. apply elem_of_dom_2 in Hh. set_solver.
      * intros s. rewrite Hsrv, elem_of_cons. split; [by intros [? ?]; split; [right|]|].
        intros [[->|?] ?]; [congruence|done].
    + destruct (lazy_handle (URL e) m Hh)
        as (h & m1 & m2 & Hmk & -> & Hs & Hh2 & Hq2 & Ht2 & Hstep2 & _).
      rewrite Hmk. cbn [mbind result_bind].
      set (m2 := go_HandleLog h (set_handles (<[URL e := h]> (handles m1)) m1)) in *.
      destruct (IH (<[URL e := URL e]> new) m2)
        as (new' & m' & created & -> & Hdom & Ht & Hnd & Hsrv & Hall & Hq & Hstep).
      exists new', m', (h :: created). split; [done|].
      split_and!.
      * rewrite Hdom, Hh2, dom_insert_L. set_solver.
      * rewrite Ht, Ht2. by rewrite <- app_assoc.
      * rewrite fmap_cons. apply NoDup_cons. split; [|done].
        rewrite Hsrv, Hs, Hh2, lookup_insert_eq. by intros [_ ?].
      * intros s. rewrite fmap_cons, !elem_of_cons, Hsrv, Hs, Hh2.
        destruct (decide (s = URL e)) as [->|Hne].
        -- split; [by intros _; split; [left|]|by left].
        -- rewrite lookup_insert_ne by done. split.
           ++ intros [?|[? ?]]; [done|]. by split; [right|].
           ++ intros [[?|?] ?]; [done|]. by right.
      * constructor; [|done]. rewrite Hs.
        destruct Hstep as (_&_&_&_&_&_&_&_&Hsub&_).
        eapply lookup_weaken; [|done]. rewrite Hh2. apply lookup_insert_eq.
      * congruence.
      * by eapply lb_step_trans.
Qed.

(** The first loop when every address has its handle: nothing is made. *)
Lemma foldM_add_endpoint_present (es : list Endpoint) (m : manager) :
  (∀ e, e ∈ es → is_Some (handles m !! URL e)) →
  ∀ new,
    foldM add_endpoint (Some <$> es) (new, m) =
      Ok (foldl (fun acc e => <[URL e := URL e]> acc) new es, m).
Proof.
  induction es as [|e es IH]; intros Hall new; [done|].
  cbn [fmap list_fmap foldM add_endpoint mbind result_bind foldl].
  destruct (Hall e) as [h ->]; [apply list_elem_of_here|].
  cbn [mbind result_bind]. apply IH. intros e' He'. apply Hall. by apply list_elem_of_further.
Qed.

(** The first loop fails at a nil endpoint. *)
Lemma foldM_add_endpoint_nil (endpoints : list (option Endpoint)) :
  None ∈ endpoints →
  ∀ st, foldM add_endpoint endpoints st = Panic NilDereference.
Proof.
  induction endpoints as [|[e|] endpoints IH]; intros Hin [new m].
  - by apply elem_of_nil in Hin.
  - apply elem_of_cons in Hin as [?|Hin]; [done|].
    cbn [foldM add_endpoint].
    destruct (handles m !! URL e); [by apply IH|].
    destruct (make_handle (URL e) m). by apply IH.
  - done.
Qed.

Lemma nil_or_fmap_Some {A : Type} (l : list (option A)) :
  None ∈ l ∨ ((None ∉ l) ∧ ∃ l', l = Some <$> l').
Proof.
  induction l as [|[a|] l IH].
  - right. split; [apply not_elem_of_nil|by exists []].
  - destruct IH as [Hin|[Hnotin [l' ->]]]; [left; by right|].
    right. split; [|by exists (a :: l')]. by intros [?|?]%elem_of_cons.
  - left. by left.
Qed.

Section UpdateEndpointsMore.

Variable range_order : ∀ A : Type, list (string * A) → list (string * A).
Hypothesis range_perm : ∀ (A : Type) (l : list (string * A)), range_order A l ≡ₚ l.

(** What a call with at least one endpoint, none of them nil, does. *)
Lemma UpdateEndpoints_any (es : list Endpoint) (m : manager) :
  es ≠ [] →
  ∃ m' created,
    UpdateEndpoints range_order (Some <$> es) m = Ok m' ∧
    abnormalServer m' = ∅ ∧
    eventServer m' =
      (range range_order (foldl (fun acc e => <[URL e := URL e]> acc) ∅ es)).*1 ∧
    dom (handles m') = list_to_set (URL <$> es) ∧
    (∀ s h, handles m !! s = Some h → s ∈ URL <$> es → handles m' !! s = Some h) ∧
    tasks m' = tasks m ++ created ∧
    NoDup (server <$> created) ∧
    (∀ s, s ∈ server <$> created ↔ s ∈ URL <$> es ∧ handles m !! s = None) ∧
    Forall (fun h => handles m' !! server h = Some h) created ∧
    loggers m' = loggers m ∧ heap m' = heap m ∧ qos m' = qos m ∧
    ctx_done m' = ctx_done m ∧ dis m' = dis m.
Proof.
  intros Hne. unfold UpdateEndpoints.
  case_decide as Hlen.
  { rewrite length_fmap in Hlen. destruct es; [done|]. cbn in Hlen. lia. }
  destruct (foldM_add_endpoint_any es ∅ (set_abnormalServer ∅ m))
    as (new & m1 & created & Hrun & Hdom & Ht & Hnd & Hsrv & Hall & Hq & Hstep).
  pose proof (foldM_add_endpoint_new _ _ _ _ _ Hrun) as Hnew.
  rewrite Hrun. cbn [mbind result_bind].
  destruct (foldl_drop_old new (range range_order (handles m1)) m1) as [Hframe Hlk].
  set (m2 := foldl (drop_old new) m1 (range range_order (handles m1))) in *.
  assert (Hdnew : dom new = list_to_set (URL <$> es)).
  { rewrite Hnew, dom_foldl_insert_URL. set_solver. }
  change (handles (set_abnormalServer ∅ m)) with (handles m) in *.
  change (tasks (set_abnormalServer ∅ m)) with (tasks m) in *.
  destruct Hstep as (Hctx&_&Hlog&_&Hab&Hdis&Hheap&_&Hsub&_).
  cbn in Hctx, Hlog, Hab, Hheap, Hsub, Hq, Hdis.
  assert (Hin_new : ∀ k, k ∈ URL <$> es → is_Some (new !! k)).
  { intros k Hk. apply elem_of_dom. rewrite Hdnew. by apply elem_of_list_to_set. }
  assert (Hout_new : ∀ k, k ∉ URL <$> es → new !! k = None).
  { intros k Hk. apply not_elem_of_dom. rewrite Hdnew. by rewrite elem_of_list_to_set. }
  assert (Hkeep : ∀ k, k ∈ URL <$> es → handles m2 !! k = handles m1 !! k).
  { intros k Hk. rewrite Hlk. case_decide as Hc; [|done].
    destruct Hc as [_ Hc]. destruct (Hin_new k Hk) as [? Hs]. congruence. }
  assert (Hgone : ∀ k, k ∉ URL <$> es → handles m2 !! k = None).
  { intros k Hk. rewrite Hlk. case_decide as Hc; [done|].
    destruct (handles m1 !! k) as [h|] eqn:Hh; [|done].
    exfalso. apply Hc. split; [|by apply Hout_new].
    apply list_elem_of_fmap. exists (k, h). split; [done|].
    by apply (elem_of_range range_order range_perm). }
  eexists _, created.
  split; [done|]. rewrite Hframe. cbn.
  split_and!; try done.
  - by rewrite foldl_keys, Hnew.
  - apply set_eq. intros k. rewrite elem_of_dom, elem_of_list_to_set.
    destruct (decide (k ∈ URL <$> es)) as [Hk|Hk].
    + rewrite Hkeep by done. split; [done|]. intros _.
      apply elem_of_dom. rewrite Hdom. set_solver.
    + rewrite Hgone by done. split; [by intros []|done].
  - intros k h Hh Hk. rewrite Hkeep by done. by eapply lookup_weaken.
  - apply Forall_forall. intros h Hh.
    assert (Hs : server h ∈ server <$> created).
    { apply list_elem_of_fmap. by exists h. }
    apply Hsrv in Hs as [Hin Hnone].
    rewrite Hkeep by done. by eapply Forall_forall in Hall.
Qed.

(** X6: UpdateEndpoints fails, with a nil dereference, exactly when one
    of the endpoints is nil; without a nil endpoint it returns. *)
Theorem UpdateEndpoints_nil_endpoint (endpoints : list (option Endpoint)) (m : manager) :
  match UpdateEndpoints range_order endpoints m with
  | Ok _ => None ∉ endpoints
  | Panic p => p = NilDereference ∧ None ∈ endpoints
  end.
Proof.
  destruct (nil_or_fmap_Some endpoints) as [Hin|[Hnotin [es ->]]].
  - unfold UpdateEndpoints. case_decide as Hlen.
    { destruct endpoints; [by apply elem_of_nil in Hin|cbn in Hlen; lia]. }
    by rewrite foldM_add_endpoint_nil.
  - destruct es as [|e es]; [done|].
    destruct (UpdateEndpoints_any (e :: es) m) as (m' & created & -> & _); done.
Qed.

(** X7: UpdateEndpoints with at least one endpoint, addresses repeated or
    not: every address is in the new list of servers once, the registry
    holds a handle for exactly the addresses given, the handles of the
    addresses that had one are kept, and one handle with one task is made
    for each address that had none, however often the address is given. *)
Theorem UpdateEndpoints_repeated_addresses (es : list Endpoint) (m : manager) :
  es ≠ [] →
  ∃ m' created,
    UpdateEndpoints range_order (Some <$> es) m = Ok m' ∧
    NoDup (eventServer m') ∧
    (∀ s, s ∈ eventServer m' ↔ s ∈ URL <$> es) ∧
    dom (handles m') = list_to_set (URL <$> es) ∧
    (∀ s h, handles m !! s = Some h → s ∈ URL <$> es → handles m' !! s = Some h) ∧
    tasks m' = tasks m ++ created ∧
    NoDup (server <$> created) ∧
    (∀ s, s ∈ server <$> created ↔ s ∈ URL <$> es ∧ handles m !! s = None) ∧
    Forall (fun h => handles m' !! server h = Some h) created.
Proof.
  intros Hne.
  destruct (UpdateEndpoints_any es m Hne)
    as (m' & created & Hrun & _ & Hes & Hdom & Hkeep & Ht & Hnd & Hsrv & Hall & _).
  exists m', created. split_and!; try done.
  - rewrite Hes. unfold range. rewrite range_perm. apply NoDup_fst_map_to_list.
  - intros s. rewrite Hes. unfold range. rewrite range_perm.
    rewrite <- (elem_of_list_to_set (C := gset string) s (URL <$> es)).
    assert (list_to_set (URL <$> es) =@{gset string}
            dom (foldl (fun acc e => <[URL e := URL e]> acc) (∅ : gmap string string) es)) as ->.
    { rewrite dom_foldl_insert_URL. set_solver. }
    rewrite elem_of_dom. split.
    + intros ([k v] & -> & Hkv%elem_of_map_to_list)%list_elem_of_fmap. by exists v.
    + intros [v Hv]. apply list_elem_of_fmap. exists (s, v).
      split; [done|]. by apply elem_of_map_to_list.
Qed.

End UpdateEndpointsMore.

Section UpdateEndpointsTwice.

Variable order1 order2 : ∀ A : Type, list (string * A) → list (string * A).
Hypothesis perm1 : ∀ (A : Type) (l : list (string * A)), order1 A l ≡ₚ l.
Hypothesis perm2 : ∀ (A : Type) (l : list (string * A)), order2 A l ≡ₚ l.

(** X8: UpdateEndpoints called again with the endpoints of the call
    before, whatever the orders the two calls range in: the second call
    returns, makes no handle and starts no task, and leaves the manager as
    the first call left it, but for the order of the list of servers. *)
Theorem UpdateEndpoints_twice (es : list Endpoint) (m m1 : manager) :
  UpdateEndpoints order1 (Some <$> es) m = Ok m1 →
  ∃ m2,
    UpdateEndpoints order2 (Some <$> es) m1 = Ok m2 ∧
    m2 = set_eventServer (eventServer m2) m1 ∧
    eventServer m2 ≡ₚ eventServer m1.
Proof.
  destruct es as [|e0 es0]; [intros [= <-]; by exists m; destruct m|].
  set (es := e0 :: es0). assert (Hne : es ≠ []) by done. clearbody es.
  intros Hrun1.
  destruct (UpdateEndpoints_any order1 perm1 es m Hne)
    as (m1' & _ & Hrun1' & Hab & Hes & Hdom & _).
  rewrite Hrun1 in Hrun1'. injection Hrun1' as <-.
  unfold UpdateEndpoints. case_decide as Hlen.
  { rewrite length_fmap in Hlen. destruct es; [done|]. cbn in Hlen. lia. }
  assert (Hm1 : set_abnormalServer ∅ m1 = m1) by (destruct m1; cbn in *; by subst).
  rewrite Hm1, foldM_add_endpoint_present; last first.
  { intros e He. apply elem_of_dom. rewrite Hdom. apply elem_of_list_to_set.
    apply list_elem_of_fmap. by exists e. }
  cbn [mbind result_bind].
  set (new := foldl (fun acc e => <[URL e := URL e]> acc) ∅ es) in *.
  destruct (foldl_drop_old new (range order2 (handles m1)) m1) as [Hframe Hlk].
  set (m2 := foldl (drop_old new) m1 (range order2 (handles m1))) in *.
  assert (Hh : handles m2 = handles m1).
  { apply map_eq. intros k. rewrite Hlk. case_decide as Hc; [|done].
    destruct Hc as [Hin Hnone]. exfalso.
    apply list_elem_of_fmap in Hin as ([k' h] & -> & Hkh%(elem_of_range order2 perm2)).
    apply elem_of_dom_2 in Hkh. rewrite Hdom in Hkh.
    apply not_elem_of_dom in Hnone. apply Hnone. unfold new.
    rewrite dom_foldl_insert_URL. set_solver. }
  assert (Hm2 : m2 = m1).
  { rewrite Hframe, Hh. by destruct m1. }
  eexists. split; [done|]. rewrite Hm2. cbn. split; [done|].
  rewrite foldl_keys, Hes. cbn. unfold range. by rewrite perm1, perm2.
Qed.

End UpdateEndpointsTwice.

(** X6 on the manager started for a: a call with the endpoint a and a nil
    endpoint fails, a call with the endpoint a alone returns. *)
Lemma UpdateEndpoints_nil_endpoint_witness :
  UpdateEndpoints range_id [Some (mkEndpoint "n1" "a" 1 0); None] (started ["a"])
    = Panic NilDereference ∧
  ∃ m', UpdateEndpoints range_id [Some (mkEndpoint "n1" "a" 1 0)] (started ["a"]) = Ok m'.
Proof.
  split.
  - pose proof (UpdateEndpoints_nil_endpoint range_id range_id_perm
                  [Some (mkEndpoint "n1" "a" 1 0); None] (started ["a"])) as Hnil.
    destruct (UpdateEndpoints range_id _ (started ["a"])) as [m'|p].
    + exfalso. apply Hnil. right. left.
    + destruct Hnil as [-> _]. reflexivity.
  - pose proof (UpdateEndpoints_nil_endpoint range_id range_id_perm
                  [Some (mkEndpoint "n1" "a" 1 0)] (started ["a"])) as Hok.
    destruct (UpdateEndpoints range_id _ (started ["a"])) as [m'|p].
    + by exists m'.
    + exfalso. destruct Hok as [_ Hin].
      apply elem_of_cons in Hin as [Heq|Hin]; [discriminate|by apply elem_of_nil in Hin].
Defined.

(** X7 on the manager started for a and b, with the endpoint a given
    twice and the endpoint c once. *)
Lemma UpdateEndpoints_repeated_addresses_witness :
  ∃ m' created,
    UpdateEndpoints range_id
      (Some <$> [mkEndpoint "n1" "a" 1 0; mkEndpoint "n2" "a" 1 0; mkEndpoint "n3" "c" 1 0])
      (started ["a"; "b"]) = Ok m' ∧
    NoDup (eventServer m') ∧
    dom (handles m') = {["a"; "c"]} ∧
    tasks m' = tasks (started ["a"; "b"]) ++ created ∧
    server <$> created = ["c"].
Proof.
  destruct (UpdateEndpoints_repeated_addresses range_id range_id_perm
              [mkEndpoint "n1" "a" 1 0; mkEndpoint "n2" "a" 1 0; mkEndpoint "n3" "c" 1 0]
              (started ["a"; "b"]))
    as (m' & created & Hrun & Hnd & _ & Hdom & _ & Ht & _); [discriminate|].
  exists m', created. split; [exact Hrun|]. split; [exact Hnd|].
  vm_compute in Hrun. injection Hrun as <-.
  split; [|split].
  - rewrite Hdom. vm_compute. reflexivity.
  - exact Ht.
  - vm_compute in Ht. injection Ht as <-. reflexivity.
Defined.

(** X8 on the manager started for a and b, with the endpoints a and c
    given twice over. *)
Lemma UpdateEndpoints_twice_witness :
  ∃ m1 m2,
    UpdateEndpoints range_id (Some <$> [mkEndpoint "n1" "a" 1 0; mkEndpoint "n3" "c" 1 0])
      (started ["a"; "b"]) = Ok m1 ∧
    UpdateEndpoints range_id (Some <$> [mkEndpoint "n1" "a" 1 0; mkEndpoint "n3" "c" 1 0]) m1
      = Ok m2 ∧
    handles m2 = handles m1 ∧ tasks m2 = tasks m1 ∧ eventServer m2 ≡ₚ eventServer m1.
Proof.
  destruct (UpdateEndpoints range_id
    (Some <$> [mkEndpoint "n1" "a" 1 0; mkEndpoint "n3" "c" 1 0]) (started ["a"; "b"]))
    as [m1|] eqn:Hrun; [|vm_compute in Hrun; discriminate].
  exists m1.
  destruct (UpdateEndpoints_twice range_id range_id range_id_perm range_id_perm _ _ _ Hrun)
    as (m2 & Hrun2 & Hfr & Hperm).
  exists m2. split; [reflexivity|]. split; [exact Hrun2|].
  split; [|split]; [by rewrite Hfr..|exact Hperm].
Defined.

(** ** DiscardedLoggerChan: what it leaves alone *)

Section DiscardFacts.

Variable range_order : ∀ A : Type, list (string * A) → list (string * A).
Hypothesis range_perm : ∀ (A : Type) (l : list (string * A)), range_order A l ≡ₚ l.

(** One turn of the second loop changes at most the queue of the logger it
    visits, and that only if the logger referred to [cc]. *)
Lemma rebind_frame (cc : chan) (kl : string * ptr) (m m' : manager) :
  rebind range_order cc kl m = Ok m' →
  failover_step m m' ∧ tasks m `prefix_of` tasks m' ∧ dom (heap m') = dom (heap m) ∧
  ∀ p lg, heap m !! p = Some lg →
    ∃ lg', heap m' !! p = Some lg' ∧ event lg' = event lg ∧ createTime lg' = createTime lg ∧
           (¬ (p = kl.2 ∧ sendChan lg = Some cc) → lg' = lg).
Proof.
  unfold rebind, GetChan. destruct (heap m !! kl.2) as [lg0|] eqn:Hlg0; [|done].
  cbn [mbind result_bind]. case_decide as Hcc.
  - destruct (getLBChan range_order m) as [[ch' m1]|] eqn:Hget; [|done].
    cbn [mbind result_bind].
    pose proof (getLBChan_creates_tasks range_order range_perm _ _ _ Hget) as Htasks.
    apply (getLBChan_frame range_order range_perm) in Hget as (Hstep & _).
    pose proof Hstep as (_&_&_&_&_&_&Hheap&_).
    unfold SetChan. rewrite Hheap, Hlg0. intros [= <-].
    split; [by apply lb_step_failover in Hstep|]. split; [done|].
    split; [cbn; by apply dom_insert_lookup_L|].
    intros p lg Hlg. cbn. destruct (decide (p = kl.2)) as [->|Hne].
    + rewrite lookup_insert_eq. rewrite Hlg0 in Hlg. injection Hlg as <-.
      eexists. split; [done|]. split_and!; try done. intros Hn. exfalso. by apply Hn.
    + rewrite lookup_insert_ne by done. by exists lg.
  - intros [= <-]. split; [apply failover_step_refl|]. split; [done|]. split; [done|].
    intros p lg Hlg. by exists lg.
Qed.

Lemma foldM_rebind_frame (cc : chan) (l : list (string * ptr)) :
  ∀ m m',
  foldM (rebind range_order cc) l m = Ok m' →
  failover_step m m' ∧ tasks m `prefix_of` tasks m' ∧ dom (heap m') = dom (heap m) ∧
  ∀ p lg, heap m !! p = Some lg →
    ∃ lg', heap m' !! p = Some lg' ∧ event lg' = event lg ∧ createTime lg' = createTime lg ∧
           (¬ (p ∈ l.*2 ∧ sendChan lg = Some cc) → lg' = lg).
Proof.
  induction l as [|kl l IH]; intros m m'.
  - intros [= <-]. split; [apply failover_step_refl|]. split; [done|]. split; [done|].
    intros p lg Hlg. by exists lg.
  - cbn [foldM]. destruct (rebind range_order cc kl m) as [m1|] eqn:Hre; [|done].
    cbn [mbind result_bind]. intros Hrest.
    destruct (rebind_frame _ _ _ _ Hre) as (Hstep1 & Ht1 & Hd1 & Hheap1).
    destruct (IH _ _ Hrest) as (Hstep2 & Ht2 & Hd2 & Hheap2).
    split; [by eapply failover_step_trans|]. split; [by etrans|]. split; [congruence|].
    intros p lg Hlg.
    destruct (Hheap1 p lg Hlg) as (lg1 & Hlg1 & He1 & Hc1 & Hsame1).
    destruct (Hheap2 p lg1 Hlg1) as (lg' & Hlg' & He2 & Hc2 & Hsame2).
    exists lg'. split; [done|]. split; [congruence|]. split; [congruence|].
    intros Hn. rewrite fmap_cons, elem_of_cons in Hn.
    assert (lg1 = lg) as -> by (apply Hsame1; tauto).
    apply Hsame2. tauto.
Qed.

Lemma DiscardedLoggerChan_frame (cc : chan) (m m' : manager) :
  DiscardedLoggerChan range_order cc m = Ok m' →
  ctx_done m' = ctx_done m ∧ dis m' = dis m ∧
  loggers m' = loggers m ∧ eventServer m' = eventServer m ∧
  handles m ⊆ handles m' ∧ chans m ⊆ chans m' ∧ tasks m `prefix_of` tasks m' ∧
  dom (heap m') = dom (heap m) ∧
  (∀ s h, handles m !! s = Some h → cacheChan h = cc → abnormalServer m' !! s = Some s) ∧
  (∀ s, (∀ h, handles m !! s = Some h → cacheChan h ≠ cc) →
        abnormalServer m' !! s = abnormalServer m !! s) ∧
  ∀ p lg, heap m !! p = Some lg →
    ∃ lg', heap m' !! p = Some lg' ∧ event lg' = event lg ∧ createTime lg' = createTime lg ∧
           (¬ ((∃ e, loggers m !! e = Some p) ∧ sendChan lg = Some cc) → lg' = lg).
Proof.
  unfold DiscardedLoggerChan. intros Hfold.
  apply foldM_rebind_frame in Hfold as (Hstep & Ht & Hd & Hheap).
  pose proof (foldl_mark_abnormal_frame cc (range range_order (handles m)) m) as Hfr.
  cbv zeta in Hfr.
  set (m1 := foldl (mark_abnormal cc) m (range range_order (handles m))) in *.
  destruct Hstep as (Hctx&_&Hl&Hes&Hab&Hdis&_&Hsub&Hcsub).
  rewrite Hfr in Hctx, Hl, Hes, Hsub, Hcsub, Hdis, Ht, Hd.
  cbn in Hctx, Hl, Hes, Hsub, Hcsub, Hdis, Ht, Hd.
  split_and!; try done.
  - intros s h Hs Hc. rewrite Hab.
    destruct (foldl_mark_abnormal_lookup cc (range range_order (handles m)) s m)
      as (_ & Hmark & _).
    eapply Hmark; [|done]. by apply (elem_of_range range_order range_perm).
  - intros s Hs. rewrite Hab.
    destruct (foldl_mark_abnormal_lookup cc (range range_order (handles m)) s m)
      as (_ & _ & Hsame).
    apply Hsame. intros v Hv%(elem_of_range range_order range_perm). by apply Hs.
  - intros p lg Hlg. destruct (Hheap p lg) as (lg' & Hlg' & He & Hc & Hsame).
    { by rewrite Hfr. }
    exists lg'. split_and!; try done. intros Hn. apply Hsame. intros [Hin Hcc].
    apply Hn. split; [|done].
    apply list_elem_of_fmap in Hin as ([e p'] & -> & Hin).
    apply (elem_of_range range_order range_perm) in Hin. rewrite Hfr in Hin. by exists e.
Qed.

(** X9: DiscardedLoggerChan, when it returns, has marked abnormal the
    servers whose registered handle owns the queue and no other server (none
    at all if no registered handle owns it); it keeps the record of loggers,
    the list of servers, the handles, channels and tasks there were; and of
    the logger objects it changes nothing but the queue of those that are on
    record and referred to the discarded queue, so a logger that was
    released before keeps the discarded queue. *)
Theorem DiscardedLoggerChan_touches_only_bound (cc : chan) (m m' : manager) :
  DiscardedLoggerChan range_order cc m = Ok m' →
  loggers m' = loggers m ∧ eventServer m' = eventServer m ∧
  handles m ⊆ handles m' ∧ chans m ⊆ chans m' ∧ tasks m `prefix_of` tasks m' ∧
  (∀ s h, handles m !! s = Some h → cacheChan h = cc → abnormalServer m' !! s = Some s) ∧
  (∀ s, (∀ h, handles m !! s = Some h → cacheChan h ≠ cc) →
        abnormalServer m' !! s = abnormalServer m !! s) ∧
  ∀ p lg, heap m !! p = Some lg →
    ∃ lg', heap m' !! p = Some lg' ∧ event lg' = event lg ∧ createTime lg' = createTime lg ∧
           (¬ ((∃ e, loggers m !! e = Some p) ∧ sendChan lg = Some cc) → lg' = lg).
Proof. intros Hrun. apply DiscardedLoggerChan_frame in Hrun. tauto. Qed.

End DiscardFacts.

(** X9 on the manager started for a and b whose logger, which refers to
    the queue 0 of a, was released: DiscardedLoggerChan on the queue 0 marks
    a abnormal and not b, and the released logger keeps the queue 0. *)
Lemma DiscardedLoggerChan_touches_only_bound_witness :
  ∃ m1 m',
    ReleaseLogger 0 (queued ["a"; "b"]) = Ok m1 ∧
    DiscardedLoggerChan range_id 0 m1 = Ok m' ∧
    abnormalServer m' !! "a" = Some "a" ∧
    abnormalServer m' !! "b" = None ∧
    heap m' !! 0 = Some (mkLogger "e" (Some 0) 0).
Proof.
  set (m0 := queued ["a"; "b"]).
  set (m1 := ok_or (ReleaseLogger 0 m0) m0).
  set (m' := ok_or (DiscardedLoggerChan range_id 0 m1) m1).
  assert (Hrel : ReleaseLogger 0 m0 = Ok m1) by (vm_compute; reflexivity).
  assert (Hrun : DiscardedLoggerChan range_id 0 m1 = Ok m') by (vm_compute; reflexivity).
  exists m1, m'. split; [exact Hrel|]. split; [exact Hrun|].
  destruct (DiscardedLoggerChan_touches_only_bound range_id range_id_perm _ _ _ Hrun)
    as (_ & _ & _ & _ & _ & Hmark & Hsame & Hheap).
  split; [|split].
  - apply (Hmark "a" (mkHandle "a" 1 0)); vm_compute; reflexivity.
  - rewrite (Hsame "b"); [vm_compute; reflexivity|].
    intros h Hh. vm_compute in Hh. injection Hh as <-. discriminate.
  - destruct (Hheap 0 (mkLogger "e" (Some 0) 0)) as (lg' & Hlg' & _ & _ & Hkeep);
      [vm_compute; reflexivity|].
    rewrite Hlg'. f_equal. apply Hkeep. intros [[e He] _].
    vm_compute in He. discriminate.
Defined.

(** ** The drain loop: order of the messages, stop and cancellation *)

Lemma sends_app (tr1 tr2 : list wire_op) : sends (tr1 ++ tr2) = sends tr1 ++ sends tr2.
Proof. apply omap_app. Qed.

Section DrainFacts.

Variable range_order : ∀ A : Type, list (string * A) → list (string * A).
Hypothesis range_perm : ∀ (A : Type) (l : list (string * A)), range_order A l ≡ₚ l.

(** X10: the drain loop takes the messages off the front of the queue of
    its handle, one for a receive case at most, and gives them to Send in
    the order of the queue; what it took is gone from the queue, the
    refused message of a failed Send included, and the rest of the queue
    stays as it was, in place. *)
Theorem drain_in_queue_order (h : handle) (cases : list select_case) :
  ∀ (tr : list wire_op) (m : manager) (c : channel) (o : outcome)
    (tr' : list wire_op) (m' : manager),
  drain range_order h cases tr m = Ok (o, tr', m') →
  chans m !! cacheChan h = Some c →
  ∃ taken c',
    chans m' !! cacheChan h = Some c' ∧
    buf c = taken ++ buf c' ∧ cap c' = cap c ∧ closed c' = closed c ∧
    sends tr' = sends tr ++ taken ∧ length taken ≤ length cases.
Proof.
  induction cases as [|[| |ok] cases IH]; intros tr m c o tr' m'; cbn [drain].
  - intros [= <- <- <-] Hc. exists [], c. rewrite app_nil_r. split_and!; done.
  - destruct (ctx_done m).
    + intros [= <- <- <-] Hc. exists [], c.
      rewrite sends_app. cbn. split_and!; try done. lia.
    + intros Hrun Hc. destruct (IH _ _ _ _ _ _ Hrun Hc) as (taken & c' & ? & ? & ? & ? & ? & ?).
      exists taken, c'. split_and!; try done. cbn. lia.
  - assert (Hskip : drain range_order h cases tr m = Ok (o, tr', m') →
      chans m !! cacheChan h = Some c →
      ∃ taken c',
        chans m' !! cacheChan h = Some c' ∧
        buf c = taken ++ buf c' ∧ cap c' = cap c ∧ closed c' = closed c ∧
        sends tr' = sends tr ++ taken ∧ length taken ≤ length (StopClosed :: cases)).
    { intros Hrun Hc. destruct (IH _ _ _ _ _ _ Hrun Hc) as (taken & c' & ? & ? & ? & ? & ? & ?).
      exists taken, c'. split_and!; try done. cbn. lia. }
    destruct (chans m !! stop h) as [cs|]; [|done].
    destruct (closed cs); [|done].
    intros [= <- <- <-] Hc. exists [], c.
    rewrite sends_app. cbn. split_and!; try done. lia.
  - intros Hrun Hc. rewrite Hc in Hrun.
    destruct (buf c) as [|me q] eqn:Hbuf.
    { destruct (IH _ _ _ _ _ _ Hrun Hc) as (taken & c' & ? & Hb & ? & ? & ? & ?).
      exists taken, c'. rewrite <- Hb, Hbuf. split_and!; try done. cbn. lia. }
    set (m1 := set_chans (<[cacheChan h := mkChannel q (cap c) (closed c)]> (chans m)) m) in *.
    assert (Hc1 : chans m1 !! cacheChan h = Some (mkChannel q (cap c) (closed c))).
    { apply lookup_insert_eq. }
    destruct ok.
    + destruct (IH _ _ _ _ _ _ Hrun Hc1) as (taken & c' & Hc' & Hb & Hcap & Hcl & Hs & Hlen).
      exists (me :: taken), c'. cbn in Hb, Hcap, Hcl.
      split_and!; try done.
      * by rewrite Hb.
      * rewrite Hs, sends_app. cbn. by rewrite <- app_assoc.
      * cbn. lia.
    + destruct (DiscardedLoggerChan range_order (cacheChan h) m1) as [m2|] eqn:Hdis; [|done].
      cbn [mbind result_bind] in Hrun. injection Hrun as <- <- <-.
      apply (DiscardedLoggerChan_frame range_order range_perm) in Hdis
        as (_&_&_&_&_&Hsub&_).
      exists [me], (mkChannel q (cap c) (closed c)).
      split_and!; try done.
      * by eapply lookup_weaken.
      * by rewrite sends_app.
      * cbn. lia.
Qed.

End DrainFacts.

(** X10 on the manager whose queue 0 holds one record, the receive case
    taken twice: the record is sent and the queue is empty. *)
Lemma drain_in_queue_order_witness :
  ∃ tr' m' c',
    drain range_id (mkHandle "a" 1 0) [Recv true; Recv true] [] (queued ["a"])
      = Ok (Waiting, tr', m') ∧
    chans m' !! 0 = Some c' ∧ buf c' = [] ∧
    sends tr' = [[Byte.x7b; Byte.x7d]].
Proof.
  set (m0 := queued ["a"]).
  set (r := ok_or (drain range_id (mkHandle "a" 1 0) [Recv true; Recv true] [] m0)
                  (Waiting, [], m0)).
  assert (Hrun : drain range_id (mkHandle "a" 1 0) [Recv true; Recv true] [] m0
                 = Ok (Waiting, r.1.2, r.2)) by (vm_compute; reflexivity).
  destruct (drain_in_queue_order range_id range_id_perm _ _ _ _
              (mkChannel [[Byte.x7b; Byte.x7d]] 100 false) _ _ _ Hrun)
    as (taken & c' & Hc' & Hbuf & _ & _ & Hs & _); [vm_compute; reflexivity|].
  exists r.1.2, r.2, c'. split; [exact Hrun|]. split; [exact Hc'|].
  vm_compute in Hc'. injection Hc' as <-. split; [reflexivity|].
  cbn in Hbuf. rewrite app_nil_r in Hbuf. rewrite Hs, <- Hbuf. reflexivity.
Defined.

(** X11: once Stop has closed the stop channel of a handle, a drain task
    of the handle that takes the stop case closes its stream and returns
    nil, leaving the manager as it is: the handle stays registered and the
    queue keeps its records.  A second Stop fails, closing a closed
    channel. *)
Theorem Stop_ends_drain (range_order : ∀ A : Type, list (string * A) → list (string * A))
    (h : handle) (cases : list select_case) (tr : list wire_op) (m m1 : manager) :
  Stop h m = Ok m1 →
  drain range_order h (StopClosed :: cases) tr m1 = Ok (Returned None, tr ++ [CloseSend], m1) ∧
  Stop h m1 = Panic CloseOfClosedChannel ∧
  m1 = set_chans (chans m1) m ∧
  (∀ ch, ch ≠ stop h → chans m1 !! ch = chans m !! ch) ∧
  (∃ c, chans m !! stop h = Some c ∧ closed c = false ∧
        drain range_order h (StopClosed :: cases) tr m = drain range_order h cases tr m).
Proof.
  unfold Stop. destruct (chans m !! stop h) as [c|] eqn:Hc; [|done].
  destruct (closed c) eqn:Hcl; [done|]. intros [= <-].
  cbn [drain]. cbn. rewrite lookup_insert_eq. cbn. split_and!; try done.
  - intros ch Hne. by rewrite lookup_insert_ne.
  - exists c. by rewrite Hc, Hcl.
Qed.

(** X11 on the manager started for a, whose handle has the stop channel 1. *)
Lemma Stop_ends_drain_witness :
  ∃ m1,
    Stop (mkHandle "a" 1 0) (queued ["a"]) = Ok m1 ∧
    drain range_id (mkHandle "a" 1 0) [StopClosed; Recv true] [] m1
      = Ok (Returned None, [CloseSend], m1) ∧
    Stop (mkHandle "a" 1 0) m1 = Panic CloseOfClosedChannel ∧
    chans m1 !! 0 = chans (queued ["a"]) !! 0.
Proof.
  set (m0 := queued ["a"]).
  set (m1 := ok_or (Stop (mkHandle "a" 1 0) m0) m0).
  assert (Hrun : Stop (mkHandle "a" 1 0) m0 = Ok m1) by (vm_compute; reflexivity).
  destruct (Stop_ends_drain range_id _ [Recv true] [] _ _ Hrun) as (Hd & Hs & _ & Hq & _).
  exists m1. split; [exact Hrun|]. split; [exact Hd|]. split; [exact Hs|].
  apply Hq. discriminate.
Defined.

(** ** Start, NewManager and CloseManager *)

(** The loop of Start over the servers [l]. *)
Lemma Start_loop (l : list string) :
  ∀ m,
  let m' := foldl (fun m s => let '(h, m') := make_handle s m in
                              go_HandleLog h (set_handles (<[s := h]> (handles m')) m')) m l in
  ∃ created,
    tasks m' = tasks m ++ created ∧ server <$> created = l ∧
    Forall (fun h => chans m !! cacheChan h = None ∧ is_Some (chans m' !! cacheChan h)) created ∧
    NoDup (cacheChan <$> created) ∧
    dom (handles m') = dom (handles m) ∪ list_to_set l ∧
    (∀ s, handles m' !! s =
          from_option Some (handles m !! s) (last (filter (fun h => server h = s) created))) ∧
    chans m ⊆ chans m' ∧
    m' = set_tasks (tasks m') (set_chans (chans m') (set_handles (handles m') m)).
Proof.
  induction l as [|s l IH]; intros m; cbn zeta.
  - exists []. cbn. rewrite app_nil_r. split_and!; try done.
    + apply NoDup_nil_2.
    + set_solver.
    + by destruct m.
  - cbn [foldl].
    destruct (make_handle_chans s m) as (cc & st & -> & Hcc & Hst & Hne).
    set (h := mkHandle s st cc).
    set (m1 := go_HandleLog h _).
    destruct (IH m1) as (created & Ht & Hsrv & Hall & Hnd & Hdom & Hlk & Hsub & Hfr).
    set (m' := foldl _ m1 l) in *.
    assert (Hcc1 : chans m1 !! cc = Some (mkChannel [] 100 false)).
    { subst m1. cbn. rewrite lookup_insert_ne by done. apply lookup_insert_eq. }
    assert (Hsub1 : chans m ⊆ chans m1).
    { subst m1. cbn. etrans; [apply (insert_subseteq (chans m) cc); done|].
      apply insert_subseteq. by rewrite lookup_insert_ne. }
    exists (h :: created). split_and!.
    + rewrite Ht. subst m1. cbn. by rewrite <- app_assoc.
    + by rewrite fmap_cons, Hsrv.
    + constructor.
      * split; [done|]. exists (mkChannel [] 100 false). by eapply lookup_weaken.
      * eapply Forall_impl; [exact Hall|]. intros h' [Hnone Hsome]. split; [|done].
        by eapply lookup_weaken_None.
    + rewrite fmap_cons. apply NoDup_cons. split; [|done].
      intros (h' & Heq & Hin)%list_elem_of_fmap.
      eapply Forall_forall in Hall as [Hnone _]; [|done]. cbn in Heq. congruence.
    + rewrite Hdom. subst m1. cbn. rewrite dom_insert_L. clear. set_solver.
    + intros s0. rewrite Hlk. subst m1. cbn.
      destruct (decide (s = s0)) as [<-|Hs0].
      * rewrite lookup_insert_eq, last_cons. by destruct (last (filter _ created)).
      * by rewrite lookup_insert_ne.
    + by etrans.
    + rewrite Hfr. by destruct m.
Qed.

(** X12: Start returns no error.  It starts one task for every entry of
    the list of servers, in the order of the list, each with a queue of its
    own; the registry holds for every listed server the handle of the last
    task started for it, so a server listed twice has two tasks and the
    queue of the first is not in the registry.  The callback is registered
    with discovery if there is a client, the collector is started, and the
    loggers, the list of servers and the cursor stay as they are. *)
Theorem Start_tasks_and_handles (m : manager) :
  (Start m).2 = None ∧
  gc_started (Start m).1 = true ∧
  dis (Start m).1 = AddProject "event_log_event_grpc" <$> dis m ∧
  loggers (Start m).1 = loggers m ∧ eventServer (Start m).1 = eventServer m ∧
  qos (Start m).1 = qos m ∧ abnormalServer (Start m).1 = abnormalServer m ∧
  ∃ created,
    tasks (Start m).1 = tasks m ++ created ∧
    server <$> created = eventServer m ∧
    NoDup (cacheChan <$> created) ∧
    dom (handles (Start m).1) = dom (handles m) ∪ list_to_set (eventServer m) ∧
    ∀ s, handles (Start m).1 !! s =
         from_option Some (handles m !! s) (last (filter (fun h => server h = s) created)).
Proof.
  destruct (Start_loop (eventServer m) m) as (created & Ht & Hsrv & _ & Hnd & Hdom & Hlk & _ & Hfr).
  unfold Start. cbn [fst snd].
  set (m1 := foldl _ m (eventServer m)) in *.
  assert (Hdis : dis m1 = dis m) by (by rewrite Hfr).
  assert (Hrest : loggers m1 = loggers m ∧ eventServer m1 = eventServer m ∧
                  qos m1 = qos m ∧ abnormalServer m1 = abnormalServer m) by (by rewrite Hfr).
  destruct Hrest as (Hl & Hes & Hq & Hab).
  rewrite Hdis. destruct (dis m) as [d|]; cbn; (split_and!; try done; by exists created).
Qed.

Lemma NewManager_shape (d : option Discover) (err : option error) (conf : EventConfig) :
  match NewManager (d, err) conf with
  | (None, r) => r = err ∧ is_Some err ∧ EventLogServers conf = []
  | (Some m, r) =>
      r = None ∧ (err = None ∨ EventLogServers conf ≠ []) ∧
      eventServer m = EventLogServers conf ∧
      dom (handles m) = list_to_set (EventLogServers conf) ∧
      (server <$> tasks m) = EventLogServers conf ∧
      dis m = AddProject "event_log_event_grpc" <$> d ∧
      loggers m = ∅ ∧ heap m = ∅ ∧ qos m = 0%Z ∧ abnormalServer m = ∅ ∧
      ctx_done m = false ∧ gc_started m = true
  end.
Proof.
  set (m0 := mkManager false conf 0 ∅ ∅ (EventLogServers conf) ∅ d ∅ ∅ [] false).
  assert (Hstart :
    let m := (Start m0).1 in
    (Start m0).2 = None ∧
    eventServer m = EventLogServers conf ∧
    dom (handles m) = list_to_set (EventLogServers conf) ∧
    (server <$> tasks m) = EventLogServers conf ∧
    dis m = AddProject "event_log_event_grpc" <$> d ∧
    loggers m = ∅ ∧ heap m = ∅ ∧ qos m = 0%Z ∧ abnormalServer m = ∅ ∧
    ctx_done m = false ∧ gc_started m = true).
  { destruct (Start_loop (eventServer m0) m0)
      as (created & Ht & Hsrv & _ & _ & Hdom & _ & _ & Hfr).
    unfold Start. cbn [fst snd].
    set (m1 := foldl _ m0 (eventServer m0)) in *.
    assert (Hall : dis m1 = d ∧ eventServer m1 = EventLogServers conf ∧
      loggers m1 = ∅ ∧ heap m1 = ∅ ∧ qos m1 = 0%Z ∧ abnormalServer m1 = ∅ ∧
      ctx_done m1 = false) by (by rewrite Hfr).
    destruct Hall as (Hdis & Hes & Hl & Hh & Hq & Hab & Hctx).
    assert (Hd : dom (handles m1) = list_to_set (EventLogServers conf)).
    { rewrite Hdom. cbn. set_solver. }
    assert (Htasks : server <$> tasks m1 = EventLogServers conf) by (by rewrite Ht).
    rewrite Hdis. by destruct d. }
  cbv zeta in Hstart. unfold NewManager. fold m0.
  destruct (Start m0) as [m r]. cbn [fst snd] in Hstart.
  destruct Hstart as (-> & Hrest).
  destruct err as [e|].
  - case_decide as Hlen.
    + split; [done|]. split; [done|]. destruct (EventLogServers conf); [done|cbn in Hlen; lia].
    + split; [done|]. split; [|done]. right. intros Heq. rewrite Heq in Hlen. cbn in Hlen. lia.
  - split; [done|]. split; [by left|done].
Qed.

(** X13: NewManager returns the error of discovery, and makes no manager,
    exactly when discovery failed and no server is configured.  Otherwise
    it returns no error, and the manager it makes has the configured
    servers as its list, a handle for each of them and a task for every
    entry, no logger, the cursor at 0, no abnormal server, and its context
    not cancelled. *)
Theorem NewManager_result (d : option Discover) (err : option error) (conf : EventConfig) :
  match NewManager (d, err) conf with
  | (None, r) => r = err ∧ is_Some err ∧ EventLogServers conf = []
  | (Some m, r) =>
      r = None ∧ (err = None ∨ EventLogServers conf ≠ []) ∧
      eventServer m = EventLogServers conf ∧
      dom (handles m) = list_to_set (EventLogServers conf) ∧
      (server <$> tasks m) = EventLogServers conf ∧
      dis m = AddProject "event_log_event_grpc" <$> d ∧
      loggers m = ∅ ∧ heap m = ∅ ∧ qos m = 0%Z ∧ abnormalServer m = ∅ ∧
      ctx_done m = false ∧ gc_started m = true
  end.
Proof. apply NewManager_shape. Qed.

(** X14: CloseManager does nothing when no manager was made.  On the
    manager NewManager made with a discovery client it cancels the context
    and stops the client, and leaves the handles, the queues with their
    records and the loggers as they are; from then on a drain task that
    takes the case of the cancelled context closes its stream and returns
    nil without sending what is queued. *)
Theorem CloseManager_cancels (range_order : ∀ A : Type, list (string * A) → list (string * A))
    (d : Discover) (err r : option error) (conf : EventConfig) (m : manager) :
  NewManager (Some d, err) conf = (Some m, r) →
  CloseManager (GetManager None) = Ok None ∧
  ∃ m',
    CloseManager (GetManager (Some m)) = Ok (Some m') ∧
    m' = set_dis (Some (Stop_discover (AddProject "event_log_event_grpc" d)))
           (set_ctx_done true m) ∧
    ∀ h cases tr,
      drain range_order h (CtxDone :: cases) tr m' = Ok (Returned None, tr ++ [CloseSend], m').
Proof.
  intros Hnew. split; [done|].
  pose proof (NewManager_shape (Some d) err conf) as Hres. rewrite Hnew in Hres.
  destruct Hres as (_ & _ & _ & _ & _ & Hdis & _).
  unfold CloseManager, GetManager, Close. cbn. rewrite Hdis. cbn.
  eexists. split; [done|]. split; [done|]. done.
Qed.

(** X14 on the manager made for the server a. *)
Lemma CloseManager_cancels_witness :
  ∃ m m',
    NewManager (Some (mkDiscover [] false), None) (mkEventConfig ["a"] []) = (Some m, None) ∧
    CloseManager (GetManager (Some m)) = Ok (Some m') ∧
    ctx_done m' = true ∧ chans m' = chans m ∧
    drain range_id (mkHandle "a" 1 0) [CtxDone] [] m' = Ok (Returned None, [CloseSend], m').
Proof.
  set (m := started ["a"]).
  assert (Hnew : NewManager (Some (mkDiscover [] false), None) (mkEventConfig ["a"] [])
                 = (Some m, None)) by (vm_compute; reflexivity).
  destruct (CloseManager_cancels range_id _ _ _ _ _ Hnew) as (_ & m' & Hclose & Hm' & Hdrain).
  exists m, m'. split; [exact Hnew|]. split; [exact Hclose|].
  split; [by rewrite Hm'|]. split; [by rewrite Hm'|]. apply (Hdrain _ [] []).
Defined.

(** ** What holds of every manager NewManager made, whatever was called since *)

Lemma event_id_of_normal (e : string) : event_id_of e ≠ "" ∧ event_id_of e ≠ " ".
Proof.
  unfold event_id_of. case_decide as He; [done|].
  split; intros ->; apply He; [by right|by left].
Qed.

Lemma loggers_step_refl (m : manager) : loggers_step m m.
Proof. split; [|done]. intros p lg Hlg. by exists lg. Qed.

Lemma loggers_step_trans (m1 m2 m3 : manager) :
  loggers_step m1 m2 → loggers_step m2 m3 → loggers_step m1 m3.
Proof.
  intros [Hk1 Hok1] [Hk2 Hok2]. split; [|tauto].
  intros p lg Hlg. destruct (Hk1 p lg Hlg) as (lg1 & Hlg1 & He1 & Hc1).
  destruct (Hk2 p lg1 Hlg1) as (lg2 & Hlg2 & He2 & Hc2).
  exists lg2. split; [done|]. split; congruence.
Qed.

(** A step that takes loggers off the record, or leaves it, and leaves
    the objects alone. *)
Lemma loggers_step_shrink (m m' : manager) :
  loggers m' ⊆ loggers m → heap m' = heap m → loggers_step m m'.
Proof.
  intros Hsub Hheap. split.
  - intros p lg Hlg. exists lg. by rewrite Hheap.
  - intros [Hkey Hnorm]. split.
    + intros e l Hl. rewrite Hheap. apply (Hkey e l). by eapply lookup_weaken.
    + intros l lg. rewrite Hheap. apply Hnorm.
Qed.

Lemma loggers_step_set_chans (cs : gmap chan channel) (m : manager) :
  loggers_step m (set_chans cs m).
Proof. by apply loggers_step_shrink. Qed.

Lemma Close_frame (m m' : manager) (err : option error) :
  Close m = Ok (m', err) →
  err = None ∧ ∃ d, dis m = Some d ∧ m' = set_dis (Some (Stop_discover d)) (set_ctx_done true m).
Proof.
  unfold Close. cbn. destruct (dis m) as [d|]; [|done]. intros [= <- <-].
  split; [done|]. by exists d.
Qed.

Lemma Stop_frame (h : handle) (m m' : manager) :
  Stop h m = Ok m' →
  ∃ c, chans m !! stop h = Some c ∧ closed c = false ∧
       m' = set_chans (<[stop h := mkChannel (buf c) (cap c) true]> (chans m)) m.
Proof.
  unfold Stop. destruct (chans m !! stop h) as [c|]; [|done].
  destruct (closed c) eqn:Hcl; [done|]. intros [= <-]. by exists c.
Qed.

Section ReachFacts.

Variable range_order : ∀ A : Type, list (string * A) → list (string * A).
Hypothesis range_perm : ∀ (A : Type) (l : list (string * A)), range_order A l ≡ₚ l.

Lemma GC_sweep_shrink (now : Z) (m m' : manager) :
  GC_sweep range_order now m = Ok m' → loggers m' ⊆ loggers m ∧ heap m' = heap m.
Proof.
  unfold GC_sweep. destruct (foldM _ _ _) as [old|]; [|done]. cbn [mbind result_bind].
  case_decide; intros [= <-]; [|done].
  destruct (foldl_delete_loggers old m) as [Hfr Hlk]. cbv zeta in Hfr, Hlk.
  split; [|by rewrite Hfr].
  apply map_subseteq_spec. intros e l. rewrite Hlk. by case_decide.
Qed.

Lemma UpdateEndpoints_loggers (endpoints : list (option Endpoint)) (m m' : manager) :
  UpdateEndpoints range_order endpoints m = Ok m' →
  loggers m' = loggers m ∧ heap m' = heap m.
Proof.
  destruct (nil_or_fmap_Some endpoints) as [Hin|[_ [es ->]]].
  - unfold UpdateEndpoints. case_decide; [by intros [= <-]|].
    by rewrite foldM_add_endpoint_nil.
  - destruct es as [|e es]; [by intros [= <-]|].
    destruct (UpdateEndpoints_any range_order range_perm (e :: es) m)
      as (m1 & created & -> & _ & _ & _ & _ & _ & _ & _ & _ & Hl & Hh & _); [done|].
    by intros [= <-].
Qed.

Lemma GetLogger_loggers_step (now : Z) (e : string) (l : ptr) (m m' : manager) :
  GetLogger range_order now e m = Ok (l, m') → loggers_step m m'.
Proof.
  rewrite GetLogger_unfold.
  destruct (loggers m !! event_id_of e) as [l0|] eqn:Hl0.
  { intros [= <- <-]. apply loggers_step_refl. }
  destruct (getLBChan range_order m) as [[ch m1]|] eqn:Hget; [|done].
  apply getLBChan_loop_frame_heap in Hget as [Hheap Hlog].
  cbn. intros [= <- <-]. rewrite Hheap, Hlog.
  pose proof (is_fresh (dom (heap m))) as Hfresh.
  set (l := fresh (dom (heap m))) in *.
  assert (Hne : ∀ p lg, heap m !! p = Some lg → p ≠ l).
  { intros p lg Hlg ->. by apply Hfresh, elem_of_dom. }
  split.
  - intros p lg Hlg. exists lg. cbn. by rewrite lookup_insert_ne by (symmetry; by eapply Hne).
  - intros [Hkey Hnorm]. split.
    + intros e' l'. cbn. intros [[<- <-]|[Hne' Hl']]%lookup_insert_Some.
      * by rewrite lookup_insert_eq.
      * specialize (Hkey e' l' Hl'). cbn in Hkey.
        destruct (heap m !! l') as [lg'|] eqn:Hlg'; [|done].
        rewrite lookup_insert_ne by (symmetry; by eapply Hne). by rewrite Hlg'.
    + intros p lg. cbn. intros [[<- <-]|[_ Hlg]]%lookup_insert_Some.
      * apply event_id_of_normal.
      * by apply (Hnorm p lg).
Qed.

Lemma DiscardedLoggerChan_loggers_step (cc : chan) (m m' : manager) :
  DiscardedLoggerChan range_order cc m = Ok m' → loggers_step m m'.
Proof.
  intros (_&_&Hl&_&_&_&_&Hd&_&_&Hheap)%(DiscardedLoggerChan_frame range_order range_perm).
  split.
  - intros p lg Hlg. destruct (Hheap p lg Hlg) as (lg' & ? & ? & ? & _). by exists lg'.
  - intros [Hkey Hnorm]. split.
    + intros e l. rewrite Hl. intros Hel. specialize (Hkey e l Hel). cbn in Hkey.
      destruct (heap m !! l) as [lg|] eqn:Hlg; [|done].
      destruct (Hheap l lg Hlg) as (lg' & -> & He & _). cbn in *. congruence.
    + intros p lg' Hlg'.
      assert (is_Some (heap m !! p)) as [lg Hlg].
      { apply elem_of_dom. rewrite <- Hd. by apply elem_of_dom. }
      destruct (Hheap p lg Hlg) as (lg'' & Hlg'' & He & _).
      rewrite Hlg' in Hlg''. injection Hlg'' as <-. rewrite He. by apply (Hnorm p lg).
Qed.

Lemma drain_loggers_step (h : handle) (cases : list select_case) :
  ∀ tr m o tr' m',
  drain range_order h cases tr m = Ok (o, tr', m') → loggers_step m m'.
Proof.
  induction cases as [|[| |ok] cases IH]; intros tr m o tr' m'; cbn [drain].
  - intros [= _ _ <-]. apply loggers_step_refl.
  - destruct (ctx_done m); [|by apply IH]. intros [= _ _ <-]. apply loggers_step_refl.
  - destruct (chans m !! stop h) as [c|]; [|by apply IH].
    destruct (closed c); [|by apply IH]. intros [= _ _ <-]. apply loggers_step_refl.
  - destruct (chans m !! cacheChan h) as [c|]; [|by apply IH].
    destruct (buf c) as [|me q]; [by apply IH|].
    destruct ok.
    + intros Hrun%IH. eapply loggers_step_trans; [apply loggers_step_set_chans|done].
    + destruct (DiscardedLoggerChan _ _ _) as [m2|] eqn:Hdis; [|done].
      cbn [mbind result_bind]. intros [= _ _ <-].
      eapply loggers_step_trans; [apply loggers_step_set_chans|].
      by eapply DiscardedLoggerChan_loggers_step.
Qed.

Lemma HandleLog_body_wf (h : handle) (a : attempt) (tr tr' : list wire_op)
    (m m' : manager) (o : outcome) :
  manager_wf m → HandleLog_body range_order h a tr m = Ok (o, tr', m') → manager_wf m'.
Proof.
  intros Hwf. destruct a as [| |cases]; cbn [HandleLog_body].
  - by intros [= _ _ <-].
  - destruct (DiscardedLoggerChan _ _ _) as [m1|] eqn:Hdis; [|done].
    cbn [mbind result_bind]. intros [= _ _ <-].
    by eapply DiscardedLoggerChan_wf.
  - by eapply drain_wf.
Qed.

Lemma manager_step_wf (m m' : manager) :
  manager_step range_order m m' → manager_wf m → manager_wf m'.
Proof.
  intros Hstep Hwf. destruct Hstep.
  - by apply Start_wf.
  - by eapply GetLogger_wf.
  - by eapply ReleaseLogger_wf.
  - by eapply GC_sweep_wf.
  - by eapply UpdateEndpoints_wf.
  - by eapply DiscardedLoggerChan_wf.
  - by apply RemoveHandle_wf.
  - apply Close_frame in H as (_ & d & _ & ->). revert Hwf. by apply manager_wf_shrink.
  - apply Stop_frame in H as (c & Hc & _ & ->). revert Hwf.
    apply manager_wf_shrink; cbn; try done. rewrite dom_insert_L. set_solver.
  - by eapply HandleLog_body_wf.
  - revert Hwf. apply manager_wf_shrink; cbn; try done. rewrite dom_insert_L. set_solver.
Qed.

Lemma manager_step_loggers (m m' : manager) :
  manager_step range_order m m' → loggers_step m m'.
Proof.
  intros Hstep. destruct Hstep.
  - destruct (Start_loggers m) as [Hl Hh]. apply loggers_step_shrink; [by rewrite Hl|done].
  - by eapply GetLogger_loggers_step.
  - unfold ReleaseLogger in H. destruct (heap m !! l) as [lg|]; [|done].
    destruct (loggers m !! event lg); injection H as <-; [|apply loggers_step_refl].
    apply loggers_step_shrink; [apply delete_subseteq|done].
  - apply GC_sweep_shrink in H as [Hl Hh]. by apply loggers_step_shrink.
  - apply UpdateEndpoints_loggers in H as [Hl Hh]. apply loggers_step_shrink; [by rewrite Hl|done].
  - by eapply DiscardedLoggerChan_loggers_step.
  - rewrite RemoveHandle_eq. by apply loggers_step_shrink.
  - apply Close_frame in H as (_ & d & _ & ->). by apply loggers_step_shrink.
  - apply Stop_frame in H as (c & _ & _ & ->). apply loggers_step_set_chans.
  - destruct a as [| |cases]; cbn [HandleLog_body] in H.
    + injection H as _ _ <-. apply loggers_step_refl.
    + destruct (DiscardedLoggerChan _ _ _) as [m1|] eqn:Hdis; [|done].
      cbn [mbind result_bind] in H. injection H as _ _ <-.
      by eapply DiscardedLoggerChan_loggers_step.
    + by eapply drain_loggers_step.
  - apply loggers_step_set_chans.
Qed.

Lemma reachable_inv (m0 m : manager) :
  rtc (manager_step range_order) m0 m →
  loggers_kept m0 m ∧ (manager_wf m0 → manager_wf m) ∧ (loggers_ok m0 → loggers_ok m).
Proof.
  induction 1 as [m|m1 m2 m3 Hstep _ (Hk & Hwf & Hok)].
  - destruct (loggers_step_refl m). done.
  - pose proof (manager_step_wf _ _ Hstep) as Hwf1.
    pose proof (manager_step_loggers _ _ Hstep) as Hl1.
    destruct (loggers_step_trans m1 m2 m3 Hl1 (conj Hk Hok)) as [Hk' Hok'].
    split_and!; [done|tauto|done].
Qed.

Lemma NewManager_loggers_ok (got : option Discover * option error) (conf : EventConfig)
    (m : manager) (err : option error) :
  NewManager got conf = (Some m, err) → loggers_ok m.
Proof.
  destruct got as [d e]. intros Hnew.
  pose proof (NewManager_shape d e conf) as Hres. rewrite Hnew in Hres.
  destruct Hres as (_&_&_&_&_&_&Hl&Hh&_).
  split; intros k x; [rewrite Hl|rewrite Hh]; by rewrite lookup_empty.
Qed.

(** X15: of every manager NewManager made, after any calls of its
    methods, runs of its drain tasks and records put on its queues: the
    queues of the registered handles exist and no two servers share one,
    every handle is registered under its own server, every logger on record
    exists and is on record under its own event id, and no logger has the
    empty or the blank event id. *)
Theorem reachable_manager_sound (got : option Discover * option error) (conf : EventConfig)
    (m0 m : manager) (err : option error) :
  NewManager got conf = (Some m0, err) →
  rtc (manager_step range_order) m0 m →
  manager_wf m ∧ loggers_ok m.
Proof.
  intros Hnew Hrtc. destruct (reachable_inv _ _ Hrtc) as (_ & Hwf & Hok).
  split; [by eapply Hwf, NewManager_wf|by eapply Hok, NewManager_loggers_ok].
Qed.

(** X16: a logger object is never taken away and its event id and
    creation time never change, whatever is called on the manager: Event
    and CreateTime return for ever what they returned first. *)
Theorem logger_identity_stable (m m' : manager) (l : ptr) (e : string) (t : Z) :
  rtc (manager_step range_order) m m' →
  Event l m = Ok e → CreateTime l m = Ok t →
  Event l m' = Ok e ∧ CreateTime l m' = Ok t.
Proof.
  intros Hrtc. destruct (reachable_inv _ _ Hrtc) as (Hk & _).
  unfold Event, CreateTime. destruct (heap m !! l) as [lg|] eqn:Hlg; [|done].
  intros [= <-] [= <-]. destruct (Hk l lg Hlg) as (lg' & -> & -> & ->). done.
Qed.

(** X17: the collector goes by the creation time alone.  A logger on
    record whose creation is more than a minute back is taken off the
    record by the next run of the collector, whatever was called on the
    manager since the logger was made, and however lately it was used. *)
Theorem GC_collects_by_creation_time (got : option Discover * option error)
    (conf : EventConfig) (m0 m1 m2 : manager) (err : option error)
    (e : string) (l : ptr) (t now : Z) :
  NewManager got conf = (Some m0, err) →
  rtc (manager_step range_order) m0 m1 →
  CreateTime l m1 = Ok t →
  rtc (manager_step range_order) m1 m2 →
  loggers m2 !! e = Some l →
  (t + Minute < now)%Z →
  ∃ m3, GC_sweep range_order now m2 = Ok m3 ∧ loggers m3 !! e = None.
Proof.
  intros Hnew Hrtc1 Ht Hrtc2 Hl Hage.
  destruct (reachable_inv _ _ Hrtc1) as (_ & Hwf1 & _).
  destruct (reachable_inv _ _ Hrtc2) as (Hk & Hwf2 & _).
  assert (Hwf : manager_wf m2) by (by eapply Hwf2, Hwf1, NewManager_wf).
  destruct Hwf as (_ & Halloc & _).
  destruct (GC_sweep_lookup range_order range_perm now m2 Halloc) as (m3 & Hrun & _ & Hchar).
  exists m3. split; [done|].
  destruct (loggers m3 !! e) as [l'|] eqn:Hl'; [|done].
  apply Hchar in Hl' as (Hreg & lg' & Hlg' & Hkeep). exfalso.
  rewrite Hl in Hreg. injection Hreg as <-.
  unfold CreateTime in Ht. destruct (heap m1 !! l) as [lg|] eqn:Hlg; [|done].
  injection Ht as <-. destruct (Hk l lg Hlg) as (lg2 & Hlg2 & _ & Hc).
  rewrite Hlg' in Hlg2. injection Hlg2 as <-. lia.
Qed.

End ReachFacts.

(** X15 on the manager made for the server a, after a call of GetLogger. *)
Lemma reachable_manager_sound_witness :
  ∃ m0 m,
    NewManager (Some (mkDiscover [] false), None) (mkEventConfig ["a"] []) = (Some m0, None) ∧
    rtc (manager_step range_id) m0 m ∧
    loggers m !! "e" = Some 0 ∧
    manager_wf m ∧ loggers_ok m.
Proof.
  set (m0 := started ["a"]).
  set (m := (ok_or (GetLogger range_id 0 "e" m0) (0, m0)).2).
  assert (Hnew : NewManager (Some (mkDiscover [] false), None) (mkEventConfig ["a"] [])
                 = (Some m0, None)) by (vm_compute; reflexivity).
  assert (Hget : GetLogger range_id 0 "e" m0 = Ok (0, m)) by (vm_compute; reflexivity).
  assert (Hrtc : rtc (manager_step range_id) m0 m).
  { apply rtc_once. eapply step_GetLogger. exact Hget. }
  exists m0, m. split; [exact Hnew|]. split; [exact Hrtc|].
  split; [vm_compute; reflexivity|].
  exact (reachable_manager_sound range_id range_id_perm _ _ _ _ _ Hnew Hrtc).
Defined.

(** X16 on the manager started for a and b with the logger 0 for "e":
    after DiscardedLoggerChan on the queue 0 the logger refers to the queue
    2, and has the event id and the creation time it had. *)
Lemma logger_identity_stable_witness :
  ∃ m m',
    rtc (manager_step range_id) m m' ∧
    Event 0 m = Ok "e" ∧ CreateTime 0 m = Ok 0%Z ∧
    GetChan 0 m = Ok (Some 0) ∧ GetChan 0 m' = Ok (Some 2) ∧
    Event 0 m' = Ok "e" ∧ CreateTime 0 m' = Ok 0%Z.
Proof.
  set (m := queued ["a"; "b"]).
  set (m' := ok_or (DiscardedLoggerChan range_id 0 m) m).
  assert (Hrun : DiscardedLoggerChan range_id 0 m = Ok m') by (vm_compute; reflexivity).
  assert (Hrtc : rtc (manager_step range_id) m m').
  { apply rtc_once. eapply step_DiscardedLoggerChan. exact Hrun. }
  assert (He : Event 0 m = Ok "e") by (vm_compute; reflexivity).
  assert (Ht : CreateTime 0 m = Ok 0%Z) by (vm_compute; reflexivity).
  exists m, m'. split; [exact Hrtc|]. split; [exact He|]. split; [exact Ht|].
  split; [vm_compute; reflexivity|]. split; [vm_compute; reflexivity|].
  exact (logger_identity_stable range_id range_id_perm _ _ _ _ _ Hrtc He Ht).
Defined.

(** X17 on the manager made for the server a: the logger for "e" is made
    at time 0, a record is put on its queue, and the run of the collector a
    nanosecond after the minute takes the logger off the record. *)
Lemma GC_collects_by_creation_time_witness :
  ∃ m0 m1 m2 m3,
    NewManager (Some (mkDiscover [] false), None) (mkEventConfig ["a"] []) = (Some m0, None) ∧
    GetLogger range_id 0 "e" m0 = Ok (0, m1) ∧
    rtc (manager_step range_id) m1 m2 ∧
    loggers m2 !! "e" = Some 0 ∧
    GC_sweep range_id (Minute + 1) m2 = Ok m3 ∧ loggers m3 !! "e" = None.
Proof.
  set (m0 := started ["a"]).
  set (m1 := (ok_or (GetLogger range_id 0 "e" m0) (0, m0)).2).
  set (m2 := set_chans (<[0 := mkChannel ([] ++ [[Byte.x7b; Byte.x7d]]) 100 false]> (chans m1)) m1).
  assert (Hnew : NewManager (Some (mkDiscover [] false), None) (mkEventConfig ["a"] [])
                 = (Some m0, None)) by (vm_compute; reflexivity).
  assert (Hget : GetLogger range_id 0 "e" m0 = Ok (0, m1)) by (vm_compute; reflexivity).
  assert (Hrtc1 : rtc (manager_step range_id) m0 m1).
  { apply rtc_once. eapply step_GetLogger. exact Hget. }
  assert (Hrtc2 : rtc (manager_step range_id) m1 m2).
  { apply rtc_once. apply (step_push range_id 0 (mkChannel [] 100 false)).
    vm_compute. reflexivity. }
  assert (Ht : CreateTime 0 m1 = Ok 0%Z) by (vm_compute; reflexivity).
  assert (Hl : loggers m2 !! "e" = Some 0) by (vm_compute; reflexivity).
  destruct (GC_collects_by_creation_time range_id range_id_perm _ _ _ _ _ _ "e" 0 0%Z
              (Minute + 1)%Z Hnew Hrtc1 Ht Hrtc2 Hl) as (m3 & Hrun & Hgone);
    [vm_compute; reflexivity|].
  exists m0, m1, m2, m3. split_and!; assumption.
Defined.

(** ** The queue of a logger *)

(** X18: SetChan followed by GetChan returns the queue set; SetChan
    changes nothing but the queue of its logger, which keeps its event id
    and creation time; both fail on a logger that does not exist. *)
Theorem SetChan_GetChan (l : ptr) (ch : option chan) (m : manager) :
  match SetChan l ch m with
  | Ok m' =>
      GetChan l m' = Ok ch ∧
      Event l m' = Event l m ∧ CreateTime l m' = CreateTime l m ∧
      (∀ l', l' ≠ l → heap m' !! l' = heap m !! l') ∧
      m' = set_heap (heap m') m
  | Panic p =>
      p = NilDereference ∧ heap m !! l = None ∧ GetChan l m = Panic NilDereference
  end.
Proof.
  unfold SetChan, GetChan, Event, CreateTime.
  destruct (heap m !! l) as [lg|] eqn:Hlg; [|done].
  cbn. rewrite lookup_insert_eq. split_and!; try done.
  intros l' Hne. by rewrite lookup_insert_ne.
Qed.

(** ** The cursor of the load balancer past the largest int32 *)

Section CursorFacts.

Variable range_order : ∀ A : Type, list (string * A) → list (string * A).

Lemma getLBChan_loop_negative (n : nat) :
  ∀ m ch m',
  (- 2 ^ 31 ≤ qos m)%Z → (qos m + Z.of_nat n < 0)%Z →
  getLBChan_loop range_order n m = Ok (ch, m') → (qos m' < 0)%Z.
Proof.
  induction n as [|n IH]; intros m ch m' Hlo Hhi; [intros [= _ <-]; lia|].
  rewrite getLBChan_loop_S. cbv zeta.
  case_decide; [done|]. case_decide; [done|].
  destruct (eventServer m !! _) as [s|]; [|done].
  assert (Hw : wrap32 (qos m + 1) = (qos m + 1)%Z) by (apply wrap32_small; lia).
  rewrite Hw.
  destruct (abnormalServer m !! s).
  { apply IH; cbn; lia. }
  destruct (handles m !! s) as [h|]; [intros [= _ <-]; cbn; lia|].
  destruct (make_handle_spec s (set_qos (qos m + 1) m))
    as (h & m1 & -> & _ & _ & _ & _ & Hq & _).
  intros [= _ <-]. cbn in *. lia.
Qed.

(** X19: the cursor is an int32 and is never reset.  A selection made
    with the cursor at the largest int32 leaves it negative; and with a
    negative cursor that is not a multiple of the number of servers a
    selection fails, the index being out of range. *)
Theorem getLBChan_cursor_overflow (m : manager) :
  eventServer m ≠ [] →
  (Z.of_nat (length (eventServer m)) < 2 ^ 31)%Z →
  (qos m = (2 ^ 31 - 1)%Z →
   ∀ ch m', getLBChan range_order m = Ok (ch, m') → (qos m' < 0)%Z) ∧
  ((qos m < 0)%Z →
   Z.rem (qos m) (Z.of_nat (length (eventServer m))) ≠ 0%Z →
   getLBChan range_order m = Panic IndexOutOfRange).
Proof.
  intros Hne Hlen. unfold getLBChan.
  destruct (eventServer m) as [|s0 l] eqn:Hes; [done|].
  set (n := length l). change (length (s0 :: l)) with (S n) in *.
  rewrite getLBChan_loop_S. cbv zeta. rewrite Hes. change (length (s0 :: l)) with (S n).
  rewrite (wrap32_small (Z.of_nat (S n))) by lia.
  rewrite decide_False by lia.
  split.
  - intros Hq ch m'. case_decide; [done|].
    destruct ((s0 :: l) !! _) as [s|]; [|done].
    assert (Hw : wrap32 (qos m + 1) = (- 2 ^ 31)%Z) by (by rewrite Hq).
    rewrite Hw.
    destruct (abnormalServer m !! s).
    { apply getLBChan_loop_negative; cbn; lia. }
    destruct (handles m !! s) as [h|]; [intros [= _ <-]; cbn; lia|].
    destruct (make_handle_spec s (set_qos (- 2 ^ 31) m))
      as (h & m1 & -> & _ & _ & _ & _ & Hq1 & _).
    intros [= _ <-]. cbn in *. lia.
  - intros Hneg Hrem. rewrite decide_True; [done|].
    pose proof (Z.rem_nonpos (qos m) (Z.of_nat (S n))). lia.
Qed.

End CursorFacts.

(** X19 on the manager started for a and b: from the largest int32 the
    cursor goes to the least; set to an odd negative number, the selection
    fails. *)
Lemma getLBChan_cursor_overflow_witness :
  ∃ ch m',
    getLBChan range_id (set_qos (2 ^ 31 - 1) (started ["a"; "b"])) = Ok (ch, m') ∧
    (qos m' < 0)%Z ∧
    getLBChan range_id (set_qos (-3) (started ["a"; "b"])) = Panic IndexOutOfRange.
Proof.
  set (m := set_qos (2 ^ 31 - 1) (started ["a"; "b"])).
  set (r := ok_or (getLBChan range_id m) (None, m)).
  assert (Hrun : getLBChan range_id m = Ok (r.1, r.2)) by (vm_compute; reflexivity).
  destruct (getLBChan_cursor_overflow range_id m) as [Hover _];
    [discriminate|vm_compute; reflexivity|].
  destruct (getLBChan_cursor_overflow range_id (set_qos (-3) (started ["a"; "b"])))
    as [_ Hpanic]; [discriminate|vm_compute; reflexivity|].
  exists r.1, r.2. split; [exact Hrun|]. split.
  - apply (Hover eq_refl _ _ Hrun).
  - apply Hpanic; [vm_compute; reflexivity|vm_compute; discriminate].
Defined.

(** ** The stream of a drain task, and the abnormal servers *)

Section StreamFacts.

Variable range_order : ∀ A : Type, list (string * A) → list (string * A).
Hypothesis range_perm : ∀ (A : Type) (l : list (string * A)), range_order A l ≡ₚ l.

Lemma drain_wire (h : handle) (cases : list select_case) :
  ∀ tr m o tr' m',
  drain range_order h cases tr m = Ok (o, tr', m') →
  ∃ pre,
    Forall (fun op => is_send op = true) pre ∧
    ((o = Waiting ∧ tr' = tr ++ pre) ∨ (o = Returned None ∧ tr' = tr ++ pre ++ [CloseSend])).
Proof.
  induction cases as [|[| |ok] cases IH]; intros tr m o tr' m'; cbn [drain].
  - intros [= <- <- _]. exists []. split; [done|]. left. by rewrite app_nil_r.
  - destruct (ctx_done m); [|by apply IH].
    intros [= <- <- _]. exists []. split; [done|]. by right.
  - destruct (chans m !! stop h) as [c|]; [|by apply IH].
    destruct (closed c); [|by apply IH].
    intros [= <- <- _]. exists []. split; [done|]. by right.
  - destruct (chans m !! cacheChan h) as [c|]; [|by apply IH].
    destruct (buf c) as [|me q]; [by apply IH|].
    destruct ok.
    + intros (pre & Hpre & Hout)%IH. exists (Send me true :: pre).
      split; [by constructor|]. rewrite <- !app_assoc in Hout. done.
    + destruct (DiscardedLoggerChan _ _ _) as [m2|]; [|done].
      cbn [mbind result_bind]. intros [= <- <- _].
      exists [Send me false]. split; [by constructor|]. by right.
Qed.

(** X20: what one run of the function literal of HandleLog puts on the
    wire.  Once the log stream is open the run never returns an error: it
    waits in the select, or it returns nil, and it returns nil exactly when
    the last thing it did on the stream was to close it; the stream is
    closed once, after the messages, and it is not closed while the task
    waits.  A run that fails to connect or to open the stream returns the
    error and closes nothing. *)
Theorem HandleLog_body_closes_stream (h : handle) (a : attempt) (tr tr' : list wire_op)
    (m m' : manager) (o : outcome) :
  HandleLog_body range_order h a tr m = Ok (o, tr', m') →
  match a with
  | ConnectFails =>
      o = Returned (Some ErrConnect) ∧ tr' = tr ++ [Dial (server h) false] ∧ m' = m
  | LogFails =>
      o = Returned (Some ErrLogStream) ∧ tr' = tr ++ [Dial (server h) true; OpenLog false]
  | Streams _ =>
      ∃ pre,
        Forall (fun op => is_send op = true) pre ∧
        ((o = Waiting ∧ tr' = tr ++ [Dial (server h) true; OpenLog true] ++ pre) ∨
         (o = Returned None ∧
          tr' = tr ++ [Dial (server h) true; OpenLog true] ++ pre ++ [CloseSend]))
  end.
Proof.
  destruct a as [| |cases]; cbn [HandleLog_body].
  - by intros [= <- <- <-].
  - destruct (DiscardedLoggerChan _ _ _) as [m1|]; [|done].
    cbn [mbind result_bind]. by intros [= <- <- _].
  - intros (pre & Hpre & Hout)%drain_wire. exists pre. split; [done|].
    rewrite <- !app_assoc in Hout. done.
Qed.

Lemma DiscardedLoggerChan_abnormal (cc : chan) (m m' : manager) :
  DiscardedLoggerChan range_order cc m = Ok m' →
  dom (abnormalServer m) ⊆ dom (abnormalServer m').
Proof.
  intros (_&_&_&_&_&_&_&_&Hmark&Hsame&_)%(DiscardedLoggerChan_frame range_order range_perm).
  intros s [v Hv]%elem_of_dom. apply elem_of_dom.
  destruct (handles m !! s) as [h0|] eqn:Hh0.
  - destruct (decide (cacheChan h0 = cc)) as [Hcc|Hcc].
    + rewrite (Hmark s h0); done.
    + rewrite Hsame; [by rewrite Hv|]. intros h1 Hh1. congruence.
  - rewrite Hsame; [by rewrite Hv|]. intros h1 Hh1. congruence.
Qed.

Lemma drain_abnormal (h : handle) (cases : list select_case) :
  ∀ tr m o tr' m',
  drain range_order h cases tr m = Ok (o, tr', m') →
  dom (abnormalServer m) ⊆ dom (abnormalServer m').
Proof.
  induction cases as [|[| |ok] cases IH]; intros tr m o tr' m'; cbn [drain].
  - by intros [= _ _ <-].
  - destruct (ctx_done m); [|by apply IH]. by intros [= _ _ <-].
  - destruct (chans m !! stop h) as [c|]; [|by apply IH].
    destruct (closed c); [|by apply IH]. by intros [= _ _ <-].
  - destruct (chans m !! cacheChan h) as [c|]; [|by apply IH].
    destruct (buf c) as [|me q]; [by apply IH|].
    destruct ok; [by intros Hrun%IH|].
    destruct (DiscardedLoggerChan _ _ _) as [m2|] eqn:Hrun; [|done].
    cbn [mbind result_bind]. intros [= _ _ <-]. by apply DiscardedLoggerChan_abnormal in Hrun.
Qed.

(** X21: a server once abnormal stays abnormal through every call on
    the manager and every run of a drain task, but for an UpdateEndpoints
    with at least one endpoint, which empties the set of abnormal servers;
    nothing else takes a server out of the set. *)
Theorem abnormal_until_UpdateEndpoints (m m' : manager) :
  manager_step range_order m m' →
  dom (abnormalServer m) ⊆ dom (abnormalServer m') ∨
  (∃ endpoints, endpoints ≠ [] ∧
     UpdateEndpoints range_order endpoints m = Ok m' ∧ abnormalServer m' = ∅).
Proof.
  intros Hstep. destruct Hstep.
  - left. destruct (Start_loop (eventServer m) m) as (_ & _ & _ & _ & _ & _ & _ & _ & Hfr).
    unfold Start. cbn [fst]. set (m1 := foldl _ m (eventServer m)) in *.
    assert (Hab : abnormalServer m1 = abnormalServer m) by (by rewrite Hfr).
    destruct (dis m1); cbn; by rewrite Hab.
  - left. rewrite GetLogger_unfold in H.
    destruct (loggers m !! event_id_of e); [by injection H as _ <-|].
    destruct (getLBChan range_order m) as [[ch m1]|] eqn:Hget; [|done].
    apply (getLBChan_frame range_order range_perm) in Hget as ((_&_&_&_&Hab&_) & _).
    cbn in H. injection H as _ <-. cbn. by rewrite Hab.
  - left. unfold ReleaseLogger in H. destruct (heap m !! l); [|done].
    by destruct (loggers m !! _); injection H as <-.
  - left. unfold GC_sweep in H. destruct (foldM _ _ _) as [old|]; [|done].
    cbn [mbind result_bind] in H. case_decide; injection H as <-; [|done].
    destruct (foldl_delete_loggers old m) as [-> _]. done.
  - destruct (nil_or_fmap_Some endpoints) as [Hin|[_ [es ->]]].
    { exfalso. unfold UpdateEndpoints in H. case_decide as Hlen.
      - destruct endpoints; [by apply elem_of_nil in Hin|cbn in Hlen; lia].
      - by rewrite foldM_add_endpoint_nil in H. }
    destruct es as [|e es]; [left; by injection H as <-|].
    right. exists (Some <$> e :: es). split; [done|]. split; [done|].
    destruct (UpdateEndpoints_any range_order range_perm (e :: es) m)
      as (m1 & created & Hrun & Hab & _); [done|]. congruence.
  - left. by eapply DiscardedLoggerChan_abnormal.
  - left. by rewrite RemoveHandle_eq.
  - left. by apply Close_frame in H as (_ & d & _ & ->).
  - left. by apply Stop_frame in H as (c & _ & _ & ->).
  - left. destruct a as [| |cases]; cbn [HandleLog_body] in H.
    + by injection H as _ _ <-.
    + destruct (DiscardedLoggerChan _ _ _) as [m1|] eqn:Hrun; [|done].
      cbn [mbind result_bind] in H. injection H as _ _ <-.
      by eapply DiscardedLoggerChan_abnormal.
    + by eapply drain_abnormal.
  - by left.
Qed.

End StreamFacts.

(** X20 on the manager whose queue 0 holds one record: the run sends it,
    then takes the case of the closed stop channel, closes the stream and
    returns nil. *)
Lemma HandleLog_body_closes_stream_witness :
  ∃ m1 tr' m',
    Stop (mkHandle "a" 1 0) (queued ["a"]) = Ok m1 ∧
    HandleLog_body range_id (mkHandle "a" 1 0) (Streams [Recv true; StopClosed]) [] m1
      = Ok (Returned None, tr', m') ∧
    ∃ pre, Forall (fun op => is_send op = true) pre ∧
           tr' = [Dial "a" true; OpenLog true] ++ pre ++ [CloseSend].
Proof.
  set (m0 := queued ["a"]).
  set (m1 := ok_or (Stop (mkHandle "a" 1 0) m0) m0).
  set (r := ok_or (HandleLog_body range_id (mkHandle "a" 1 0)
                     (Streams [Recv true; StopClosed]) [] m1) (Waiting, [], m1)).
  assert (Hstop : Stop (mkHandle "a" 1 0) m0 = Ok m1) by (vm_compute; reflexivity).
  assert (Hrun : HandleLog_body range_id (mkHandle "a" 1 0)
                   (Streams [Recv true; StopClosed]) [] m1
                 = Ok (Returned None, r.1.2, r.2)) by (vm_compute; reflexivity).
  exists m1, r.1.2, r.2. split; [exact Hstop|]. split; [exact Hrun|].
  destruct (HandleLog_body_closes_stream range_id _ _ _ _ _ _ _ Hrun)
    as (pre & Hpre & [[Hw _]|[_ Htr]]); [discriminate|].
  exists pre. split; [exact Hpre|exact Htr].
Defined.

(** X21 on the manager started for a and b after DiscardedLoggerChan on
    the queue of a: a call of GetLogger leaves a abnormal. *)
Lemma abnormal_until_UpdateEndpoints_witness :
  ∃ m m',
    manager_step range_id m m' ∧
    abnormalServer m !! "a" = Some "a" ∧
    dom (abnormalServer m) ⊆ dom (abnormalServer m').
Proof.
  set (m0 := started ["a"; "b"]).
  set (m := ok_or (DiscardedLoggerChan range_id 0 m0) m0).
  set (m' := (ok_or (GetLogger range_id 0 "e" m) (0, m)).2).
  assert (Hget : GetLogger range_id 0 "e" m = Ok (0, m')) by (vm_compute; reflexivity).
  assert (Hstep : manager_step range_id m m') by (eapply step_GetLogger; exact Hget).
  exists m, m'. split; [exact Hstep|]. split; [vm_compute; reflexivity|].
  destruct (abnormal_until_UpdateEndpoints range_id range_id_perm _ _ Hstep)
    as [Hsub|(endpoints & _ & _ & Hempty)]; [exact Hsub|].
  vm_compute in Hempty. discriminate.
Defined.
